(** * betadb: a Bitcask-style key/value engine, shallowly embedded

    The development follows the Go sources: the record codec
    ([data/log_record.go], [data/data_file.go]), the ordered in-memory key
    directory ([index/btree.go]), the engine ([db.go]), the atomic write
    batch ([batch.go]), merge ([merge.go]) and the engine iterator
    ([iterator.go]).

    Conventions.
    - A Go [[]byte] is a [list byte]; a nil slice and an empty slice are both
      the empty list.
    - Fixed-width integers are [Z] with the wrap-around written where the Go
      operation can overflow ([u32], [u64]).
    - A Go function returning [(T, error)] returns [result T]; a runtime
      panic is the error [Panic].
    - Files live in a directory store; a [DataFile] is a handle (id and
      write cursor) on the file of that id, so two handles on one id see the
      same bytes, as two descriptors on one path do. *)

From Stdlib Require Import ZArith List Lia Bool.
From Stdlib Require Import Strings.Byte Strings.String.
From stdpp Require Import gmap list sorting.

Local Open Scope Z_scope.

(** ** Machine integers and bytes *)

Definition u32 (z : Z) : Z := z mod 2 ^ 32.
Definition u64 (z : Z) : Z := z mod 2 ^ 64.

Definition byte_to_Z (b : byte) : Z := Z.of_N (Byte.to_N b).

(** Go's conversion [byte(x)]: the low eight bits. *)
Definition byte_of_Z (z : Z) : byte :=
  match Byte.of_N (Z.to_N (z mod 256)) with
  | Some b => b
  | None => x00
  end.

Definition bytes_of_string (s : string) : list byte := list_byte_of_string s.

Definition blen (b : list byte) : Z := Z.of_nat (length b).

(** [b[from:]] and [b[:to]] for in-range indices. *)
Definition slice_from (b : list byte) (from : Z) : list byte := drop (Z.to_nat from) b.
Definition slice_to (b : list byte) (to : Z) : list byte := take (Z.to_nat to) b.

(** ** Errors *)

Inductive error : Type :=
| ErrKeyIsEmpty
| ErrIndexUpdateFailed
| ErrKeyNotFound
| ErrDataFileNotFound
| ErrDataDirectoryCorrupted
| ErrExceedMaxBatchNum
| ErrMergeIsInProgress
| ErrDatabaseIsUsing
| ErrMergeRatioUnreached
| ErrNoEnoughSpaceForMerge
| ErrInvalidCRC
| EOF
| ErrIO
| ErrSyntax
| ErrInvalidOptions
| Panic
| OutOfFuel.

Inductive result (A : Type) : Type :=
| Ok (a : A)
| Err (e : error).
Arguments Ok {A} a.
Arguments Err {A} e.

#[global] Instance result_ret : MRet result := @Ok.
#[global] Instance result_bind : MBind result :=
  fun A B (k : A -> result B) (r : result A) =>
    match r with
    | Ok a => k a
    | Err e => Err e
    end.

(** ** encoding/binary *)

Module binary.

Definition MaxVarintLen32 : Z := 5.
Definition MaxVarintLen64 : Z := 10.

(** [PutUvarint]: the bytes written for [x]; the loop runs at most nine
    times for a 64-bit [x]. *)
Fixpoint PutUvarint_loop (fuel : nat) (x : Z) : list byte :=
  match fuel with
  | O => [byte_of_Z x]
  | S fuel' =>
      if 128 <=? x
      then byte_of_Z (Z.lor (byte_to_Z (byte_of_Z x)) 128)
             :: PutUvarint_loop fuel' (Z.shiftr x 7)
      else [byte_of_Z x]
  end.

Definition PutUvarint (x : Z) : list byte := PutUvarint_loop 10 (u64 x).

(** [PutVarint]: zig-zag, then [PutUvarint]. [x] is an int64. *)
Definition PutVarint (x : Z) : list byte :=
  let ux := u64 (Z.shiftl (u64 x) 1) in
  PutUvarint (if x <? 0 then Z.lxor ux (2 ^ 64 - 1) else ux).

(** [Uvarint]: value and number of bytes read; [0] bytes when the buffer
    ends before the last byte, a negative count on overflow. *)
Fixpoint Uvarint_loop (buf : list byte) (i x s : Z) : Z * Z :=
  match buf with
  | [] => (0, 0)
  | b :: rest =>
      if i =? MaxVarintLen64 then (0, - (i + 1))
      else if byte_to_Z b <? 128 then
        if (i =? MaxVarintLen64 - 1) && (1 <? byte_to_Z b)
        then (0, - (i + 1))
        else (Z.lor x (u64 (Z.shiftl (byte_to_Z b) s)), i + 1)
      else Uvarint_loop rest (i + 1)
             (Z.lor x (u64 (Z.shiftl (Z.land (byte_to_Z b) 127) s)))
             (s + 7)
  end.

Definition Uvarint (buf : list byte) : Z * Z := Uvarint_loop buf 0 0 0.

Definition Varint (buf : list byte) : Z * Z :=
  let '(ux, n) := Uvarint buf in
  let x := Z.shiftr ux 1 in
  (if Z.odd ux then Z.lnot x else x, n).

(** [LittleEndian.PutUint32] and [LittleEndian.Uint32]. *)
Definition PutUint32 (v : Z) : list byte :=
  [byte_of_Z v; byte_of_Z (Z.shiftr v 8);
   byte_of_Z (Z.shiftr v 16); byte_of_Z (Z.shiftr v 24)].

Definition Uint32 (b : list byte) : Z :=
  match b with
  | b0 :: b1 :: b2 :: b3 :: _ =>
      Z.lor (Z.lor (Z.lor (byte_to_Z b0) (Z.shiftl (byte_to_Z b1) 8))
               (Z.shiftl (byte_to_Z b2) 16))
        (Z.shiftl (byte_to_Z b3) 24)
  | _ => 0
  end.

End binary.

(** ** hash/crc32, IEEE polynomial *)

Module crc32.

Definition IEEE : Z := 0xedb88320.
Definition Size : Z := 4.

(** One round of [simplePopulateTable]. *)
Definition shift_round (crc : Z) : Z :=
  if Z.odd crc then Z.lxor (Z.shiftr crc 1) IEEE else Z.shiftr crc 1.

Definition IEEETable (i : Z) : Z :=
  shift_round (shift_round (shift_round (shift_round
    (shift_round (shift_round (shift_round (shift_round i))))))).

Definition not32 (crc : Z) : Z := Z.lxor crc 0xffffffff.

(** The loop body of [simpleUpdate]:
    [crc = tab[byte(crc)^v] ^ (crc >> 8)]. *)
Definition update_byte (crc : Z) (v : byte) : Z :=
  Z.lxor (IEEETable (Z.lxor (crc mod 256) (byte_to_Z v))) (Z.shiftr crc 8).

Definition Update (crc : Z) (p : list byte) : Z :=
  not32 (fold_left update_byte p (not32 crc)).

Definition ChecksumIEEE (data : list byte) : Z := Update 0 data.

End crc32.

(** ** package data: log records *)

Module data.

Definition LogRecordType := byte.
Definition LogRecordNormal : LogRecordType := x00.
Definition LogRecordDeleted : LogRecordType := x01.
Definition LogRecordTxnFinished : LogRecordType := x02.

Definition maxLogRecordHeaderSize : Z := binary.MaxVarintLen32 * 2 + 5.

Record LogRecord : Type := mkLogRecord {
  Key : list byte;
  Value : list byte;
  Type_ : LogRecordType
}.

Record logRecordHeader : Type := mkHeader {
  crc : Z;
  recordType : LogRecordType;
  keySize : Z;
  valueSize : Z
}.

Record LogRecordPos : Type := mkPos {
  Fid : Z;
  Offset : Z;
  Size : Z
}.

Record TransactionRecord : Type := mkTxnRecord {
  Record_ : LogRecord;
  Pos : LogRecordPos
}.

(** [EncodeLogRecord]. The header buffer holds [maxLogRecordHeaderSize]
    bytes; a size varint that does not fit in what is left of it makes
    [PutVarint] index out of range. *)
Definition EncodeLogRecord (logRecord : LogRecord) : result (list byte * Z) :=
  let ks := binary.PutVarint (blen (Key logRecord)) in
  let vs := binary.PutVarint (blen (Value logRecord)) in
  if maxLogRecordHeaderSize <? 5 + blen ks + blen vs then Err Panic
  else
    let index := 5 + blen ks + blen vs in
    let size := index + blen (Key logRecord) + blen (Value logRecord) in
    let body := Type_ logRecord :: ks ++ vs ++ Key logRecord ++ Value logRecord in
    let crc := crc32.ChecksumIEEE body in
    Ok (binary.PutUint32 crc ++ body, size).

Definition EncodeLogRecordPos (pos : LogRecordPos) : list byte :=
  binary.PutVarint (Fid pos) ++ binary.PutVarint (Offset pos)
    ++ binary.PutVarint (Size pos).

Definition DecodeLogRecordPos (buffer : list byte) : LogRecordPos :=
  let '(fileID, n1) := binary.Varint buffer in
  let index := n1 in
  let '(offset, n2) := binary.Varint (slice_from buffer index) in
  let index := index + n2 in
  let '(size, _) := binary.Varint (slice_from buffer index) in
  {| Fid := u32 fileID; Offset := offset; Size := u32 size |}.

(** [decodeLogRecordHeader]: [None] is the nil header. Slicing the buffer
    at a negative index panics. *)
Definition decodeLogRecordHeader (buffer : list byte)
  : result (option logRecordHeader * Z) :=
  if blen buffer <=? 4 then Ok (None, 0)
  else
    let crc := binary.Uint32 (slice_to buffer 4) in
    let recordType := nth 4 buffer x00 in
    let index := 5 in
    let '(keySize, n) := binary.Varint (slice_from buffer index) in
    let index := index + n in
    if (index <? 0) || (blen buffer <? index) then Err Panic
    else
      let '(valueSize, n) := binary.Varint (slice_from buffer index) in
      let index := index + n in
      Ok (Some {| crc := crc; recordType := recordType;
                  keySize := u32 keySize; valueSize := u32 valueSize |},
          index).

Definition getLogRecordCRC (lr : LogRecord) (header : list byte) : Z :=
  let crc := crc32.ChecksumIEEE header in
  let crc := crc32.Update crc (Key lr) in
  crc32.Update crc (Value lr).

(** *** Data files *)

(** [readNBytes] on a file with the given contents: allocate, then
    [ReadAt], which reports [io.EOF] when fewer than [numBytes] bytes lie
    at [offset] (and nothing when no byte is asked for). *)
Definition readNBytes (contents : list byte) (numBytes offset : Z)
  : result (list byte) :=
  if numBytes <? 0 then Err Panic
  else if offset <? 0 then Err ErrIO
  else if (0 <? numBytes) && (blen contents <? offset + numBytes) then Err EOF
  else Ok (take (Z.to_nat numBytes) (drop (Z.to_nat offset) contents)).

(** [ReadLogRecord] on a file with the given contents. *)
Definition ReadLogRecord (contents : list byte) (offset : Z)
  : result (LogRecord * Z) :=
  let fileSize := blen contents in
  let headerBytes :=
    if fileSize <? offset + maxLogRecordHeaderSize
    then fileSize - offset else maxLogRecordHeaderSize in
  headerBuffer ← readNBytes contents headerBytes offset;
  '(header, headerSize) ← decodeLogRecordHeader headerBuffer;
  match header with
  | None => Err EOF
  | Some header =>
      if (crc header =? 0) && (keySize header =? 0) && (valueSize header =? 0)
      then Err EOF
      else
        let recordSize := headerSize + keySize header + valueSize header in
        logRecord ←
          (if (0 <? keySize header) || (0 <? valueSize header) then
             kvBuffer ← readNBytes contents (keySize header + valueSize header)
                           (offset + headerSize);
             Ok {| Key := slice_to kvBuffer (keySize header);
                   Value := slice_from kvBuffer (keySize header);
                   Type_ := recordType header |}
           else Ok {| Key := []; Value := []; Type_ := recordType header |});
        if (headerSize <? crc32.Size) then Err Panic
        else
          let crc' := getLogRecordCRC logRecord
                        (slice_from (slice_to headerBuffer headerSize) crc32.Size) in
          if crc' =? crc header then Ok (logRecord, recordSize)
          else Err ErrInvalidCRC
  end.

End data.


(** ** strconv: decimal text *)

Module strconv.

Definition digit (d : Z) : byte := byte_of_Z (48 + d).

Fixpoint Itoa_loop (fuel : nat) (n : Z) (acc : list byte) : list byte :=
  match fuel with
  | O => acc
  | S fuel' =>
      let acc' := digit (n mod 10) :: acc in
      if n <? 10 then acc' else Itoa_loop fuel' (n / 10) acc'
  end.

(** [FormatUint(n, 10)], and [Itoa] of a non-negative [n]; twenty digits
    hold a 64-bit number. *)
Definition FormatUint (n : Z) : list byte := Itoa_loop 20 n [].

Fixpoint digits_value (s : list byte) (acc : Z) : option Z :=
  match s with
  | [] => Some acc
  | c :: rest =>
      let d := byte_to_Z c - 48 in
      if (0 <=? d) && (d <=? 9) then digits_value rest (10 * acc + d) else None
  end.

(** [ParseUint(s, 10, 64)]: digits only, at least one, below 2^64. *)
Definition ParseUint (s : list byte) : result Z :=
  match s with
  | [] => Err ErrSyntax
  | _ =>
      match digits_value s 0 with
      | Some n => if n <? 2 ^ 64 then Ok n else Err ErrSyntax
      | None => Err ErrSyntax
      end
  end.

(** [Atoi]: an optional sign, then digits; the value is an [int]. *)
Definition Atoi (s : list byte) : result Z :=
  let '(neg, body) :=
    match s with
    | c :: rest =>
        if byte_to_Z c =? 45 then (true, rest)
        else if byte_to_Z c =? 43 then (false, rest)
        else (false, s)
    | [] => (false, s)
    end in
  match body with
  | [] => Err ErrSyntax
  | _ =>
      match digits_value body 0 with
      | Some n =>
          let v := if neg then - n else n in
          if (- 2 ^ 63 <=? v) && (v <? 2 ^ 63) then Ok v else Err ErrSyntax
      | None => Err ErrSyntax
      end
  end.

End strconv.

(** ** package index: the key directory *)

#[global] Instance byte_eq_dec : EqDecision byte := Byte.byte_eq_dec.

#[global] Program Instance byte_countable : Countable byte :=
  inj_countable' Byte.to_N (fun n => default x00 (Byte.of_N n)) _.
Next Obligation. intros x. destruct x; reflexivity. Qed.

Module index.

(** [bytes.Compare]. *)
Fixpoint Compare (a b : list byte) : comparison :=
  match a, b with
  | [], [] => Eq
  | [], _ :: _ => Lt
  | _ :: _, [] => Gt
  | x :: a', y :: b' =>
      match byte_to_Z x ?= byte_to_Z y with
      | Eq => Compare a' b'
      | c => c
      end
  end.

Record Item : Type := mkItem {
  key : list byte;
  pos : data.LogRecordPos
}.

(** [Item.Less]: [bytes.Compare(i.key, rhs.key) == -1]. *)
Definition Less (i rhs : Item) : bool :=
  match Compare (key i) (key rhs) with
  | Lt => true
  | _ => false
  end.

Definition item_le (i rhs : Item) : Prop := Less rhs i = false.

#[global] Instance item_le_dec (i rhs : Item) : Decision (item_le i rhs).
Proof. unfold item_le. apply _. Defined.

(** The three index variants share one contract: a finite map from key to
    position that is traversed in key order. The map is the contract; the
    traversal order is that of [Less]. *)
Abbreviation Indexer := (gmap (list byte) data.LogRecordPos) (only parsing).

Definition NewIndexer : Indexer := ∅.

Definition Put (key : list byte) (pos : data.LogRecordPos) (idx : Indexer)
  : option data.LogRecordPos * Indexer :=
  (idx !! key, <[key := pos]> idx).

Definition Get (key : list byte) (idx : Indexer) : option data.LogRecordPos :=
  idx !! key.

Definition Delete (key : list byte) (idx : Indexer)
  : (option data.LogRecordPos * bool) * Indexer :=
  match idx !! key with
  | None => ((None, false), idx)
  | Some old => ((Some old, true), delete key idx)
  end.

Definition Size (idx : Indexer) : Z := Z.of_nat (size idx).

(** [tree.Ascend]: the items in ascending key order. *)
Definition Ascend (idx : Indexer) : list Item :=
  merge_sort item_le ((fun kp => mkItem kp.1 kp.2) <$> map_to_list idx).

Definition Descend (idx : Indexer) : list Item := reverse (Ascend idx).

(** The snapshot iterator. *)
Record bTreeIterator : Type := mkIter {
  currentIndex : nat;
  reverse_ : bool;
  values : list Item
}.

Definition Iterator (idx : Indexer) (reverse : bool) : bTreeIterator :=
  {| currentIndex := 0;
     reverse_ := reverse;
     values := if reverse then Descend idx else Ascend idx |}.

Definition Rewind (bti : bTreeIterator) : bTreeIterator :=
  {| currentIndex := 0; reverse_ := reverse_ bti; values := values bti |}.

Definition Next (bti : bTreeIterator) : bTreeIterator :=
  {| currentIndex := S (currentIndex bti); reverse_ := reverse_ bti;
     values := values bti |}.

Definition Valid (bti : bTreeIterator) : bool :=
  bool_decide (currentIndex bti < length (values bti))%nat.

(** [Key] and [Value] index the snapshot; out of range they panic. *)
Definition Key (bti : bTreeIterator) : result (list byte) :=
  match values bti !! currentIndex bti with
  | Some it => Ok (key it)
  | None => Err Panic
  end.

Definition Value (bti : bTreeIterator) : result data.LogRecordPos :=
  match values bti !! currentIndex bti with
  | Some it => Ok (pos it)
  | None => Err Panic
  end.

End index.


(** ** package betadb: the engine *)

Module betadb.

Inductive IndexerType : Type := BTree | ART | BPlusTree.

#[global] Instance IndexerType_eq_dec : EqDecision IndexerType.
Proof. solve_decision. Defined.

Record Options : Type := mkOptions {
  DirectoryPath : string;
  DataFileSize : Z;
  SyncWrites : bool;
  BytesPerSync : Z;
  IndexType : IndexerType;
  MMapAtStartUp : bool;
  (** [DataFileMergeRatio] is a float32; [checkOptions] only asks whether
      it lies in [0, 1], which is the field kept here. *)
  DataFileMergeRatio_valid : bool
}.

Record IteratorOptions : Type := mkIteratorOptions {
  Prefix : list byte;
  Reverse : bool
}.

Record WriteBatchOptions : Type := mkWriteBatchOptions {
  MaxBatchNum : Z;
  wb_SyncWrites : bool
}.

(** A data file handle: the file id and the write cursor. The bytes are
    those of the file of that id in the directory. *)
Record DataFile : Type := mkDataFile {
  FileID : Z;
  WriteOffset : Z
}.

(** The files of a data directory: the [NNNNNNNNN.data] files by id,
    [hint-index], [merge-finished], [seq-no], and [bptree-index] (the
    persistent index, held as the map it stores). The lock file is not
    modelled. *)
Record Directory : Type := mkDirectory {
  dataFiles : gmap Z (list byte);
  hintFile : option (list byte);
  mergeFinishedFile : option (list byte);
  seqNoFile : option (list byte);
  bptreeIndex : option index.Indexer
}.

Definition emptyDirectory : Directory :=
  {| dataFiles := ∅; hintFile := None; mergeFinishedFile := None;
     seqNoFile := None; bptreeIndex := None |}.

Definition directory_is_empty (d : Directory) : bool :=
  bool_decide (dataFiles d = ∅) && bool_decide (hintFile d = None)
  && bool_decide (mergeFinishedFile d = None) && bool_decide (seqNoFile d = None)
  && bool_decide (bptreeIndex d = None).

Definition file_contents (d : Directory) (fid : Z) : list byte :=
  default [] (dataFiles d !! fid).

Record Database : Type := mkDatabase {
  options : Options;
  fileIDs : list Z;
  activeFile : option DataFile;
  olderFiles : gmap Z DataFile;
  index_ : index.Indexer;
  seqNo : Z;
  isMerging : bool;
  seqNoFilesExists : bool;
  isInitial : bool;
  bytesWrite : Z;
  reclaimSize : Z;
  (** the files under [options.DirectoryPath] *)
  dir : Directory;
  (** the sibling [-merge] directory, when it exists *)
  mergeDir : option Directory;
  (** set when the [bptree-index] file was renamed over while the index was
      open: the open index then no longer is the file of that name *)
  indexUnlinked : bool;
  (** the calls of [DataFile.Sync] on data files, the latest first: the file
      id and the length of the file that was flushed *)
  syncLog : list (Z * Z)
}.

Definition set_fileIDs (v : list Z) (db : Database) : Database :=
  mkDatabase (options db) v (activeFile db) (olderFiles db) (index_ db) (seqNo db)
    (isMerging db) (seqNoFilesExists db) (isInitial db) (bytesWrite db)
    (reclaimSize db) (dir db) (mergeDir db) (indexUnlinked db) (syncLog db).
Definition set_activeFile (v : option DataFile) (db : Database) : Database :=
  mkDatabase (options db) (fileIDs db) v (olderFiles db) (index_ db) (seqNo db)
    (isMerging db) (seqNoFilesExists db) (isInitial db) (bytesWrite db)
    (reclaimSize db) (dir db) (mergeDir db) (indexUnlinked db) (syncLog db).
Definition set_olderFiles (v : gmap Z DataFile) (db : Database) : Database :=
  mkDatabase (options db) (fileIDs db) (activeFile db) v (index_ db) (seqNo db)
    (isMerging db) (seqNoFilesExists db) (isInitial db) (bytesWrite db)
    (reclaimSize db) (dir db) (mergeDir db) (indexUnlinked db) (syncLog db).
Definition set_index (v : index.Indexer) (db : Database) : Database :=
  mkDatabase (options db) (fileIDs db) (activeFile db) (olderFiles db) v (seqNo db)
    (isMerging db) (seqNoFilesExists db) (isInitial db) (bytesWrite db)
    (reclaimSize db) (dir db) (mergeDir db) (indexUnlinked db) (syncLog db).
Definition set_seqNo (v : Z) (db : Database) : Database :=
  mkDatabase (options db) (fileIDs db) (activeFile db) (olderFiles db) (index_ db) v
    (isMerging db) (seqNoFilesExists db) (isInitial db) (bytesWrite db)
    (reclaimSize db) (dir db) (mergeDir db) (indexUnlinked db) (syncLog db).
Definition set_isMerging (v : bool) (db : Database) : Database :=
  mkDatabase (options db) (fileIDs db) (activeFile db) (olderFiles db) (index_ db)
    (seqNo db) v (seqNoFilesExists db) (isInitial db) (bytesWrite db)
    (reclaimSize db) (dir db) (mergeDir db) (indexUnlinked db) (syncLog db).
Definition set_seqNoFilesExists (v : bool) (db : Database) : Database :=
  mkDatabase (options db) (fileIDs db) (activeFile db) (olderFiles db) (index_ db)
    (seqNo db) (isMerging db) v (isInitial db) (bytesWrite db)
    (reclaimSize db) (dir db) (mergeDir db) (indexUnlinked db) (syncLog db).
Definition set_bytesWrite (v : Z) (db : Database) : Database :=
  mkDatabase (options db) (fileIDs db) (activeFile db) (olderFiles db) (index_ db)
    (seqNo db) (isMerging db) (seqNoFilesExists db) (isInitial db) v
    (reclaimSize db) (dir db) (mergeDir db) (indexUnlinked db) (syncLog db).
Definition set_reclaimSize (v : Z) (db : Database) : Database :=
  mkDatabase (options db) (fileIDs db) (activeFile db) (olderFiles db) (index_ db)
    (seqNo db) (isMerging db) (seqNoFilesExists db) (isInitial db) (bytesWrite db)
    v (dir db) (mergeDir db) (indexUnlinked db) (syncLog db).
Definition set_dir (v : Directory) (db : Database) : Database :=
  mkDatabase (options db) (fileIDs db) (activeFile db) (olderFiles db) (index_ db)
    (seqNo db) (isMerging db) (seqNoFilesExists db) (isInitial db) (bytesWrite db)
    (reclaimSize db) v (mergeDir db) (indexUnlinked db) (syncLog db).
Definition set_mergeDir (v : option Directory) (db : Database) : Database :=
  mkDatabase (options db) (fileIDs db) (activeFile db) (olderFiles db) (index_ db)
    (seqNo db) (isMerging db) (seqNoFilesExists db) (isInitial db) (bytesWrite db)
    (reclaimSize db) (dir db) v (indexUnlinked db) (syncLog db).
Definition set_indexUnlinked (v : bool) (db : Database) : Database :=
  mkDatabase (options db) (fileIDs db) (activeFile db) (olderFiles db) (index_ db)
    (seqNo db) (isMerging db) (seqNoFilesExists db) (isInitial db) (bytesWrite db)
    (reclaimSize db) (dir db) (mergeDir db) v (syncLog db).
Definition set_syncLog (v : list (Z * Z)) (db : Database) : Database :=
  mkDatabase (options db) (fileIDs db) (activeFile db) (olderFiles db) (index_ db)
    (seqNo db) (isMerging db) (seqNoFilesExists db) (isInitial db) (bytesWrite db)
    (reclaimSize db) (dir db) (mergeDir db) (indexUnlinked db) v.

Definition set_dataFiles (v : gmap Z (list byte)) (d : Directory) : Directory :=
  mkDirectory v (hintFile d) (mergeFinishedFile d) (seqNoFile d) (bptreeIndex d).
Definition set_hintFile (v : option (list byte)) (d : Directory) : Directory :=
  mkDirectory (dataFiles d) v (mergeFinishedFile d) (seqNoFile d) (bptreeIndex d).
Definition set_mergeFinishedFile (v : option (list byte)) (d : Directory) : Directory :=
  mkDirectory (dataFiles d) (hintFile d) v (seqNoFile d) (bptreeIndex d).
Definition set_seqNoFile (v : option (list byte)) (d : Directory) : Directory :=
  mkDirectory (dataFiles d) (hintFile d) (mergeFinishedFile d) v (bptreeIndex d).
Definition set_bptreeIndex (v : option index.Indexer) (d : Directory) : Directory :=
  mkDirectory (dataFiles d) (hintFile d) (mergeFinishedFile d) (seqNoFile d) v.

(** Methods on [*Database] mutate the receiver and may return an error:
    a state transformer with a result. *)
Definition M (A : Type) : Type := Database -> result A * Database.

Definition ret {A : Type} (a : A) : M A := fun db => (Ok a, db).
Definition fail {A : Type} (e : error) : M A := fun db => (Err e, db).
Definition bindM {A B : Type} (m : M A) (k : A -> M B) : M B :=
  fun db =>
    match m db with
    | (Ok a, db') => k a db'
    | (Err e, db') => (Err e, db')
    end.
Definition gets {A : Type} (f : Database -> A) : M A := fun db => (Ok (f db), db).
Definition modify (f : Database -> Database) : M unit := fun db => (Ok tt, f db).
Definition lift {A : Type} (r : result A) : M A := fun db => (r, db).

Notation "'do' x <- m ; k" := (bindM m (fun x => k))
  (at level 10, x pattern, m at level 100, k at level 200).
Notation "'do_' m ; k" := (bindM m (fun _ => k))
  (at level 10, m at level 100, k at level 200).

Definition nonTransactionSeqNo : Z := 0.
Definition txnFinKey : list byte := bytes_of_string "txn-fin".
Definition seqNoKey : list byte := bytes_of_string "seq.no".
Definition mergeFinishedKey : list byte := bytes_of_string "merge.finished".

(** [logRecordKeyWithSeq]: the sequence number as a uvarint, then the key. *)
Definition logRecordKeyWithSeq (key : list byte) (seqNo : Z) : list byte :=
  binary.PutUvarint seqNo ++ key.

(** [parseLogRecordKey]: [key[n:]] panics when [Uvarint] reports an overflow
    with a negative count. *)
Definition parseLogRecordKey (key : list byte) : result (list byte * Z) :=
  let '(seqNo, n) := binary.Uvarint key in
  if n <? 0 then Err Panic else Ok (slice_from key n, seqNo).

(** [data.OpenDataFile]: the file is created when it does not exist. *)
Definition OpenDataFile (d : Directory) (fileID : Z) : Directory :=
  match dataFiles d !! fileID with
  | Some _ => d
  | None => set_dataFiles (<[fileID := []]> (dataFiles d)) d
  end.

(** [DataFile.Write] on the file of id [fileID]: append. *)
Definition write_file (d : Directory) (fileID : Z) (buffer : list byte) : Directory :=
  set_dataFiles (<[fileID := file_contents d fileID ++ buffer]> (dataFiles d)) d.

(** [setActiveDataFile]. Opening a file does not fail here: I/O errors of
    the operating system are outside the model. *)
Definition setActiveDataFile (db : Database) : Database :=
  let initialFileID :=
    match activeFile db with
    | Some af => u32 (FileID af + 1)
    | None => 0
    end in
  set_activeFile (Some {| FileID := initialFileID; WriteOffset := 0 |})
    (set_dir (OpenDataFile (dir db) initialFileID) db).

(** [DataFile.Sync] on a data file: the file is flushed as long as it is. *)
Definition sync_file (df : DataFile) (db : Database) : Database :=
  set_syncLog ((FileID df, blen (file_contents (dir db) (FileID df))) :: syncLog db) db.

(** The rotation step of [appendLogRecord] (and of [Merge]): the active
    file is synced, becomes an old file under its id, and a new active file
    is opened. *)
Definition rotateActiveFile (af : DataFile) (db : Database) : Database :=
  setActiveDataFile
    (set_olderFiles (<[FileID af := af]> (olderFiles db)) (sync_file af db)).

(** [appendLogRecord]. File offsets and sizes are below 2^63, so the int64
    arithmetic on them is exact; [bytesWrite] is a [uint]. *)
Definition appendLogRecord (logRecord : data.LogRecord) : M data.LogRecordPos :=
  fun db =>
    let db :=
      match activeFile db with
      | None => setActiveDataFile db
      | Some _ => db
      end in
    match data.EncodeLogRecord logRecord, activeFile db with
    | Err e, _ => (Err e, db)
    | Ok _, None => (Err Panic, db)
    | Ok (encRecord, size), Some af =>
        let db :=
          if DataFileSize (options db) <? WriteOffset af + size
          then rotateActiveFile af db else db in
        match activeFile db with
        | None => (Err Panic, db)
        | Some af =>
            let writeOffset := WriteOffset af in
            let db :=
              set_activeFile
                (Some {| FileID := FileID af;
                         WriteOffset := WriteOffset af + blen encRecord |})
                (set_dir (write_file (dir db) (FileID af) encRecord) db) in
            let db := set_bytesWrite (u64 (bytesWrite db + size)) db in
            let needSync :=
              SyncWrites (options db)
              || ((0 <? BytesPerSync (options db))
                  && (BytesPerSync (options db) <=? bytesWrite db)) in
            let db :=
              if needSync then
                let db := sync_file af db in
                if 0 <? bytesWrite db then set_bytesWrite 0 db else db
              else db in
            (Ok {| data.Fid := FileID af; data.Offset := writeOffset;
                   data.Size := u32 size |}, db)
        end
    end.

Definition appendLogRecordWithLock (logRecord : data.LogRecord) : M data.LogRecordPos :=
  appendLogRecord logRecord.

Definition add_reclaim (oldPos : option data.LogRecordPos) (db : Database) : Database :=
  match oldPos with
  | Some old => set_reclaimSize (reclaimSize db + data.Size old) db
  | None => db
  end.

(** [index.Put] and [index.Delete] on the engine's index. *)
Definition index_Put (key : list byte) (pos : data.LogRecordPos) : M (option data.LogRecordPos) :=
  fun db =>
    let '(oldPos, idx) := index.Put key pos (index_ db) in
    (Ok oldPos, set_index idx db).

Definition index_Delete (key : list byte) : M (option data.LogRecordPos * bool) :=
  fun db =>
    let '(r, idx) := index.Delete key (index_ db) in
    (Ok r, set_index idx db).

Definition Put (key value : list byte) : M unit :=
  if bool_decide (key = []) then fail ErrKeyIsEmpty
  else
    let logRecord :=
      {| data.Key := logRecordKeyWithSeq key nonTransactionSeqNo;
         data.Value := value;
         data.Type_ := data.LogRecordNormal |} in
    do pos <- appendLogRecordWithLock logRecord;
    do oldPos <- index_Put key pos;
    modify (add_reclaim oldPos).

Definition Delete (key : list byte) : M unit :=
  if bool_decide (key = []) then fail ErrKeyIsEmpty
  else
    do found <- gets (fun db => index.Get key (index_ db));
    match found with
    | None => ret tt
    | Some _ =>
        let logRecord :=
          {| data.Key := logRecordKeyWithSeq key nonTransactionSeqNo;
             data.Value := [];
             data.Type_ := data.LogRecordDeleted |} in
        do pos <- appendLogRecordWithLock logRecord;
        do_ modify (fun db => set_reclaimSize (reclaimSize db + data.Size pos) db);
        do (oldPos, ok) <- index_Delete key;
        if ok then modify (add_reclaim oldPos) else fail ErrIndexUpdateFailed
    end.

(** [getValueByPosition]; [db.activeFile.FileID] on a nil active file is a
    nil dereference. *)
Definition getValueByPosition (db : Database) (logRecordPos : data.LogRecordPos)
  : result (list byte) :=
  match activeFile db with
  | None => Err Panic
  | Some af =>
      let dataFile :=
        if FileID af =? data.Fid logRecordPos then Some af
        else olderFiles db !! data.Fid logRecordPos in
      match dataFile with
      | None => Err ErrDataFileNotFound
      | Some df =>
          '(logRecord, _) ←
            data.ReadLogRecord (file_contents (dir db) (FileID df))
              (data.Offset logRecordPos);
          if bool_decide (data.Type_ logRecord = data.LogRecordDeleted)
          then Err ErrKeyNotFound
          else Ok (data.Value logRecord)
      end
  end.

Definition Get (db : Database) (key : list byte) : result (list byte) :=
  if bool_decide (key = []) then Err ErrKeyIsEmpty
  else
    match index.Get key (index_ db) with
    | None => Err ErrKeyNotFound
    | Some logRecordPos => getValueByPosition db logRecordPos
    end.

(** [ListKeys]: the keys of the forward index iterator. *)
Definition ListKeys (db : Database) : list (list byte) :=
  index.key <$> index.values (index.Iterator (index_ db) false).

(** *** The atomic write batch *)

Record WriteBatch : Type := mkWriteBatch {
  wb_options : WriteBatchOptions;
  (** [pendingWrites]: one record per key, listed in the order the map is
      ranged over *)
  pendingWrites : list (list byte * data.LogRecord)
}.

Definition NewWriteBatch (db : Database) (opts : WriteBatchOptions) : result WriteBatch :=
  if bool_decide (IndexType (options db) = BPlusTree)
     && negb (seqNoFilesExists db) && negb (isInitial db)
  then Err Panic
  else Ok {| wb_options := opts; pendingWrites := [] |}.

(** [m[k] = v] and [delete(m, k)] on the pending map. *)
Fixpoint pending_set (k : list byte) (v : data.LogRecord)
    (m : list (list byte * data.LogRecord)) : list (list byte * data.LogRecord) :=
  match m with
  | [] => [(k, v)]
  | (k', v') :: rest =>
      if bool_decide (k' = k) then (k, v) :: rest
      else (k', v') :: pending_set k v rest
  end.

Definition pending_delete (k : list byte) (m : list (list byte * data.LogRecord))
  : list (list byte * data.LogRecord) :=
  filter (fun kv => kv.1 ≠ k) m.

Definition wb_Put (wb : WriteBatch) (key value : list byte) : result WriteBatch :=
  if bool_decide (key = []) then Err ErrKeyIsEmpty
  else
    let logRecord :=
      {| data.Key := key; data.Value := value; data.Type_ := data.LogRecordNormal |} in
    Ok {| wb_options := wb_options wb;
          pendingWrites := pending_set key logRecord (pendingWrites wb) |}.

Definition wb_Delete (wb : WriteBatch) (db : Database) (key : list byte) : result WriteBatch :=
  if bool_decide (key = []) then Err ErrKeyIsEmpty
  else
    match index.Get key (index_ db) with
    | None =>
        Ok {| wb_options := wb_options wb;
              pendingWrites := pending_delete key (pendingWrites wb) |}
    | Some _ =>
        let logRecord :=
          {| data.Key := key; data.Value := []; data.Type_ := data.LogRecordDeleted |} in
        Ok {| wb_options := wb_options wb;
              pendingWrites := pending_set key logRecord (pendingWrites wb) |}
    end.

(** The first loop of [Commit]: append every pending record under the
    batch's sequence number and remember where it went. *)
Fixpoint commit_append (seqNo : Z) (records : list (list byte * data.LogRecord))
    (positions : gmap (list byte) data.LogRecordPos)
  : M (gmap (list byte) data.LogRecordPos) :=
  match records with
  | [] => ret positions
  | (_, record) :: rest =>
      do logRecordPos <-
        appendLogRecord
          {| data.Key := logRecordKeyWithSeq (data.Key record) seqNo;
             data.Value := data.Value record;
             data.Type_ := data.Type_ record |};
      commit_append seqNo rest (<[data.Key record := logRecordPos]> positions)
  end.

(** The second loop of [Commit]: update the index. The first loop stored a
    position under the key of every pending record, so [positions[k]] is
    never the nil position here; the model stops with [Panic] on that
    branch. *)
Fixpoint commit_update (records : list (list byte * data.LogRecord))
    (positions : gmap (list byte) data.LogRecordPos) : M unit :=
  match records with
  | [] => ret tt
  | (_, record) :: rest =>
      do_ (match positions !! data.Key record with
           | None => fail Panic
           | Some pos =>
               if bool_decide (data.Type_ record = data.LogRecordNormal) then
                 do oldPos <- index_Put (data.Key record) pos;
                 modify (add_reclaim oldPos)
               else if bool_decide (data.Type_ record = data.LogRecordDeleted) then
                 do (oldPos, _) <- index_Delete (data.Key record);
                 modify (add_reclaim oldPos)
               else ret tt
           end);
      commit_update rest positions
  end.

(** [Commit]: the result, the batch afterwards and the engine afterwards. *)
Definition Commit (wb : WriteBatch) (db : Database) : result unit * WriteBatch * Database :=
  if bool_decide (pendingWrites wb = []) then (Ok tt, wb, db)
  else if MaxBatchNum (wb_options wb) <? Z.of_nat (length (pendingWrites wb))
  then (Err ErrExceedMaxBatchNum, wb, db)
  else
    let seqNo := u64 (seqNo db + 1) in
    let db := set_seqNo seqNo db in
    let finishedRecord :=
      {| data.Key := logRecordKeyWithSeq txnFinKey seqNo;
         data.Value := [];
         data.Type_ := data.LogRecordTxnFinished |} in
    let '(r, db) :=
      (do positions <- commit_append seqNo (pendingWrites wb) ∅;
       do_ appendLogRecord finishedRecord;
       do_ modify (fun db =>
                     match wb_SyncWrites (wb_options wb), activeFile db with
                     | true, Some af => sync_file af db
                     | _, _ => db
                     end);
       commit_update (pendingWrites wb) positions) db in
    match r with
    | Ok _ => (Ok tt, {| wb_options := wb_options wb; pendingWrites := [] |}, db)
    | Err e => (Err e, wb, db)
    end.


(** *** Recovery *)

(** The closure [updateIndex] of [loadIndexFromDataFiles]. *)
Definition updateIndex (key : list byte) (tp : data.LogRecordType)
    (pos : data.LogRecordPos) (db : Database) : Database :=
  if bool_decide (tp = data.LogRecordDeleted) then
    let '((oldPos, _), idx) := index.Delete key (index_ db) in
    let db := set_index idx db in
    let db := set_reclaimSize (reclaimSize db + data.Size pos) db in
    add_reclaim oldPos db
  else
    let '(oldPos, idx) := index.Put key pos (index_ db) in
    add_reclaim oldPos (set_index idx db).

(** What the replay loop carries besides the engine: the buffered records
    of open transactions and the largest sequence number seen. *)
Record ReplayState : Type := mkReplayState {
  transactionRecords : gmap Z (list data.TransactionRecord);
  currentSeqNo : Z
}.

Definition flush_transaction (records : list data.TransactionRecord) (db : Database)
  : Database :=
  fold_left
    (fun db txnRecord =>
       updateIndex (data.Key (data.Record_ txnRecord))
         (data.Type_ (data.Record_ txnRecord)) (data.Pos txnRecord) db)
    records db.

(** One turn of the inner loop of [loadIndexFromDataFiles], after a record
    was read at [offset] of file [fileID]. *)
Definition replay_record (fileID offset : Z) (logRecord : data.LogRecord) (size : Z)
    (st : ReplayState) (db : Database) : result ReplayState * Database :=
  let logRecordPos :=
    {| data.Fid := fileID; data.Offset := offset; data.Size := u32 size |} in
  match parseLogRecordKey (data.Key logRecord) with
  | Err e => (Err e, db)
  | Ok (realKey, seqNo) =>
      let '(txns, db) :=
        if seqNo =? nonTransactionSeqNo then
          (transactionRecords st,
           updateIndex realKey (data.Type_ logRecord) logRecordPos db)
        else if bool_decide (data.Type_ logRecord = data.LogRecordTxnFinished) then
          (delete seqNo (transactionRecords st),
           flush_transaction (default [] (transactionRecords st !! seqNo)) db)
        else
          let buffered :=
            {| data.Record_ :=
                 {| data.Key := realKey; data.Value := data.Value logRecord;
                    data.Type_ := data.Type_ logRecord |};
               data.Pos := logRecordPos |} in
          (<[seqNo := default [] (transactionRecords st !! seqNo) ++ [buffered]]>
             (transactionRecords st), db) in
      (Ok {| transactionRecords := txns;
             currentSeqNo := if currentSeqNo st <? seqNo then seqNo
                             else currentSeqNo st |}, db)
  end.

(** The inner loop over one file. Every turn moves [offset] forward by at
    least a header, so a fuel of the file length plus one is never used
    up; [OutOfFuel] marks the branch that is not reached. *)
Fixpoint replay_file (fuel : nat) (fileID : Z) (contents : list byte) (offset : Z)
    (st : ReplayState) (db : Database) : result (Z * ReplayState) * Database :=
  match fuel with
  | O => (Err OutOfFuel, db)
  | S fuel' =>
      match data.ReadLogRecord contents offset with
      | Err EOF => (Ok (offset, st), db)
      | Err e => (Err e, db)
      | Ok (logRecord, size) =>
          match replay_record fileID offset logRecord size st db with
          | (Err e, db) => (Err e, db)
          | (Ok st, db) => replay_file fuel' fileID contents (offset + size) st db
          end
      end
  end.

(** [getNonMergeFileID] on the [merge-finished] file of a directory; opening
    creates the file, so a missing file reads as an empty one. *)
Definition getNonMergeFileID (d : Directory) : result Z :=
  '(record, _) ← data.ReadLogRecord (default [] (mergeFinishedFile d)) 0;
  nonMergeFileID ← strconv.Atoi (data.Value record);
  Ok (u32 nonMergeFileID).

(** The outer loop of [loadIndexFromDataFiles] over [db.fileIDs]. *)
Fixpoint replay_files (ids : list Z) (hasMerge : bool) (nonMergeFileID : Z)
    (st : ReplayState) (db : Database) : result ReplayState * Database :=
  match ids with
  | [] => (Ok st, db)
  | fid :: rest =>
      let fileID := u32 fid in
      if hasMerge && (fileID <? nonMergeFileID) then
        replay_files rest hasMerge nonMergeFileID st db
      else
        match activeFile db with
        | None => (Err Panic, db)
        | Some af =>
            let dataFile :=
              if fileID =? FileID af then Some af else olderFiles db !! fileID in
            match dataFile with
            | None => (Err Panic, db)
            | Some df =>
                let contents := file_contents (dir db) (FileID df) in
                match replay_file (S (length contents)) fileID contents 0 st db with
                | (Err e, db) => (Err e, db)
                | (Ok (offset, st), db) =>
                    let db :=
                      match rest, activeFile db with
                      | [], Some af =>
                          set_activeFile
                            (Some {| FileID := FileID af; WriteOffset := offset |}) db
                      | _, _ => db
                      end in
                    replay_files rest hasMerge nonMergeFileID st db
                end
            end
        end
  end.

Definition loadIndexFromDataFiles (db : Database) : result unit * Database :=
  match fileIDs db with
  | [] => (Ok tt, db)
  | _ =>
      let merged :=
        match mergeFinishedFile (dir db) with
        | Some _ => fid ← getNonMergeFileID (dir db); Ok (true, fid)
        | None => Ok (false, 0)
        end in
      match merged with
      | Err e => (Err e, db)
      | Ok (hasMerge, nonMergeFileID) =>
          match replay_files (fileIDs db) hasMerge nonMergeFileID
                  {| transactionRecords := ∅; currentSeqNo := nonTransactionSeqNo |} db with
          | (Err e, db) => (Err e, db)
          | (Ok st, db) => (Ok tt, set_seqNo (currentSeqNo st) db)
          end
      end
  end.

(** [loadIndexFromHintFile]: the loop over the hint file. *)
Fixpoint load_hint (fuel : nat) (contents : list byte) (offset : Z) (idx : index.Indexer)
  : result index.Indexer :=
  match fuel with
  | O => Err OutOfFuel
  | S fuel' =>
      match data.ReadLogRecord contents offset with
      | Err EOF => Ok idx
      | Err e => Err e
      | Ok (logRecord, size) =>
          let pos := data.DecodeLogRecordPos (data.Value logRecord) in
          load_hint fuel' contents (offset + size)
            (index.Put (data.Key logRecord) pos idx).2
      end
  end.

Definition loadIndexFromHintFile (db : Database) : result unit * Database :=
  match hintFile (dir db) with
  | None => (Ok tt, db)
  | Some contents =>
      match load_hint (S (length contents)) contents 0 (index_ db) with
      | Err e => (Err e, db)
      | Ok idx => (Ok tt, set_index idx db)
      end
  end.

(** [loadMergeFiles]: when the merge directory holds [merge-finished], the
    data files below the frontier are removed and every file of the merge
    directory but [seq-no] (and the lock file) is renamed into the data
    directory. The merge directory is removed on every path. *)
Definition loadMergeFiles (db : Database) : result unit * Database :=
  match mergeDir db with
  | None => (Ok tt, db)
  | Some md =>
      let db := set_mergeDir None db in
      match mergeFinishedFile md with
      | None => (Ok tt, db)
      | Some _ =>
          match getNonMergeFileID md with
          | Err e => (Err e, db)
          | Ok nonMergeFileID =>
              let kept :=
                filter (fun kv => ¬ (0 <= kv.1 < nonMergeFileID)) (dataFiles (dir db)) in
              let d := set_dataFiles (dataFiles md ∪ kept) (dir db) in
              let d := match hintFile md with
                       | Some h => set_hintFile (Some h) d
                       | None => d
                       end in
              let d := set_mergeFinishedFile (mergeFinishedFile md) d in
              match bptreeIndex md with
              | Some idx =>
                  (Ok tt, set_indexUnlinked true (set_dir (set_bptreeIndex (Some idx) d) db))
              | None => (Ok tt, set_dir d db)
              end
          end
      end
  end.

(** [loadDataFiles]: the ids of the data files in ascending order; the
    largest is the active file, the others are old files. *)
Definition loadDataFiles (db : Database) : Database :=
  let fileIDs := merge_sort Z.le ((map_to_list (dataFiles (dir db))).*1) in
  let db := set_fileIDs fileIDs db in
  let older := list_to_map ((fun fid => (u32 fid, mkDataFile (u32 fid) 0)) <$> removelast fileIDs) in
  match last fileIDs with
  | None => db
  | Some fid =>
      set_activeFile (Some (mkDataFile (u32 fid) 0))
        (set_olderFiles (older ∪ olderFiles db) db)
  end.

(** [loadSeqNo]. *)
Definition loadSeqNo (db : Database) : result unit * Database :=
  match seqNoFile (dir db) with
  | None => (Ok tt, db)
  | Some contents =>
      match ('(record, _) ← data.ReadLogRecord contents 0;
             strconv.ParseUint (data.Value record)) with
      | Err e => (Err e, db)
      | Ok seqNo =>
          (Ok tt,
           set_dir (set_seqNoFile None (dir db))
             (set_seqNoFilesExists true (set_seqNo seqNo db)))
      end
  end.

Definition checkOptions (options : Options) : result unit :=
  if bool_decide (DirectoryPath options = ""%string) then Err ErrInvalidOptions
  else if DataFileSize options <=? 0 then Err ErrInvalidOptions
  else if negb (DataFileMergeRatio_valid options) then Err ErrInvalidOptions
  else Ok tt.

(** [Open] on the data directory ([None] when the path does not exist) and
    its sibling merge directory. Memory-mapped and standard reads return the
    same bytes and the same errors on every path of [ReadLogRecord], so the
    I/O kind of a file is not part of the state. *)
Definition Open (options : Options) (d : option Directory) (md : option Directory)
  : result Database :=
  _ ← checkOptions options;
  let isInitial :=
    match d with
    | None => true
    | Some d => directory_is_empty d
    end in
  let d := default emptyDirectory d in
  let '(idx, d) :=
    if bool_decide (IndexType options = BPlusTree)
    then (default ∅ (bptreeIndex d),
          set_bptreeIndex (Some (default ∅ (bptreeIndex d))) d)
    else (index.NewIndexer, d) in
  let db :=
    {| options := options; fileIDs := []; activeFile := None; olderFiles := ∅;
       index_ := idx; seqNo := 0; isMerging := false; seqNoFilesExists := false;
       isInitial := isInitial; bytesWrite := 0; reclaimSize := 0;
       dir := d; mergeDir := md; indexUnlinked := false;
       syncLog := [] |} in
  match loadMergeFiles db with
  | (Err e, _) => Err e
  | (Ok _, db) =>
      let db := loadDataFiles db in
      if bool_decide (IndexType options ≠ BPlusTree) then
        match loadIndexFromHintFile db with
        | (Err e, _) => Err e
        | (Ok _, db) =>
            match loadIndexFromDataFiles db with
            | (Err e, _) => Err e
            | (Ok _, db) => Ok db
            end
        end
      else
        match loadSeqNo db with
        | (Err e, _) => Err e
        | (Ok _, db) =>
            match activeFile db with
            | Some af =>
                Ok (set_activeFile
                      (Some {| FileID := FileID af;
                               WriteOffset := blen (file_contents (dir db) (FileID af)) |})
                      db)
            | None => Ok db
            end
        end
  end.

(** [Close]: the sequence number is appended to [seq-no]; closing the
    persistent index leaves its map in [bptree-index], unless that name now
    is another file. *)
Definition Close (db : Database) : result unit * Database :=
  let db :=
    if bool_decide (IndexType (options db) = BPlusTree) && negb (indexUnlinked db)
    then set_dir (set_bptreeIndex (Some (index_ db)) (dir db)) db
    else db in
  match activeFile db with
  | None => (Ok tt, db)
  | Some _ =>
      let record :=
        {| data.Key := seqNoKey; data.Value := strconv.FormatUint (seqNo db);
           data.Type_ := data.LogRecordNormal |} in
      match data.EncodeLogRecord record with
      | Err e => (Err e, db)
      | Ok (encodeRecord, _) =>
          (Ok tt,
           set_dir (set_seqNoFile (Some (default [] (seqNoFile (dir db)) ++ encodeRecord))
                      (dir db)) db)
      end
  end.


(** *** Merge *)

(** What [Merge] asks of the operating system: the size of the data
    directory, the free disk space, and the outcome of the float32 test
    [float32(reclaimSize)/float32(totalSize) < DataFileMergeRatio]. *)
Record MergeEnv : Type := mkMergeEnv {
  totalSize : Z;
  availableDiskSpace : Z;
  ratioUnreached : bool
}.

(** The merge engine and the bytes of the hint file being written. *)
Record MergeState : Type := mkMergeState {
  mergeDB : Database;
  hintBytes : list byte
}.

(** [WriteHintRecord]. *)
Definition WriteHintRecord (hint : list byte) (key : list byte) (pos : data.LogRecordPos)
  : result (list byte) :=
  '(encRecord, _) ←
    data.EncodeLogRecord
      {| data.Key := key; data.Value := data.EncodeLogRecordPos pos;
         data.Type_ := data.LogRecordNormal |};
  Ok (hint ++ encRecord).

(** One turn of the inner loop of [Merge], after a record was read at
    [offset] of the file [fileID]. *)
Definition merge_record (db : Database) (fileID offset : Z) (logRecord : data.LogRecord)
    (ms : MergeState) : result unit * MergeState :=
  match parseLogRecordKey (data.Key logRecord) with
  | Err e => (Err e, ms)
  | Ok (readKey, _) =>
      match index.Get readKey (index_ db) with
      | Some logRecordPos =>
          if (data.Fid logRecordPos =? fileID) && (data.Offset logRecordPos =? offset) then
            let rewritten :=
              {| data.Key := logRecordKeyWithSeq readKey nonTransactionSeqNo;
                 data.Value := data.Value logRecord;
                 data.Type_ := data.Type_ logRecord |} in
            match appendLogRecord rewritten (mergeDB ms) with
            | (Err e, mdb) => (Err e, {| mergeDB := mdb; hintBytes := hintBytes ms |})
            | (Ok pos, mdb) =>
                match WriteHintRecord (hintBytes ms) readKey pos with
                | Err e => (Err e, {| mergeDB := mdb; hintBytes := hintBytes ms |})
                | Ok hint => (Ok tt, {| mergeDB := mdb; hintBytes := hint |})
                end
            end
          else (Ok tt, ms)
      | None => (Ok tt, ms)
      end
  end.

Fixpoint merge_file (fuel : nat) (db : Database) (fileID : Z) (contents : list byte)
    (offset : Z) (ms : MergeState) : result unit * MergeState :=
  match fuel with
  | O => (Err OutOfFuel, ms)
  | S fuel' =>
      match data.ReadLogRecord contents offset with
      | Err EOF => (Ok tt, ms)
      | Err e => (Err e, ms)
      | Ok (logRecord, size) =>
          match merge_record db fileID offset logRecord ms with
          | (Err e, ms) => (Err e, ms)
          | (Ok _, ms) => merge_file fuel' db fileID contents (offset + size) ms
          end
      end
  end.

Fixpoint merge_files (db : Database) (files : list DataFile) (ms : MergeState)
  : result unit * MergeState :=
  match files with
  | [] => (Ok tt, ms)
  | dataFile :: rest =>
      let contents := file_contents (dir db) (FileID dataFile) in
      match merge_file (S (length contents)) db (FileID dataFile) contents 0 ms with
      | (Err e, ms) => (Err e, ms)
      | (Ok _, ms) => merge_files db rest ms
      end
  end.

Definition DataFile_le (a b : DataFile) : Prop := FileID a <= FileID b.

#[global] Instance DataFile_le_dec (a b : DataFile) : Decision (DataFile_le a b).
Proof. unfold DataFile_le. apply _. Defined.

Definition merge_directory (ms : MergeState) : Directory :=
  set_hintFile (Some (hintBytes ms)) (dir (mergeDB ms)).

(** [Merge]. The syncs of the hint file, of the merge engine and of the
    marker file change no bytes of the merge directory and are left out. *)
Definition Merge (env : MergeEnv) : M unit :=
  fun db =>
    match activeFile db with
    | None => (Ok tt, db)
    | Some af =>
        if isMerging db then (Err ErrMergeIsInProgress, db)
        else if ratioUnreached env then (Err ErrMergeRatioUnreached, db)
        else if availableDiskSpace env <=? u64 (totalSize env - reclaimSize db)
        then (Err ErrNoEnoughSpaceForMerge, db)
        else
          let db := rotateActiveFile af db in
          match activeFile db with
          | None => (Err Panic, db)
          | Some newActive =>
              let nonMergeFileID := FileID newActive in
              let filesToBeMerged :=
                merge_sort DataFile_le ((map_to_list (olderFiles db)).*2) in
              let mergeOptions :=
                {| DirectoryPath := (DirectoryPath (options db) ++ "-merge")%string;
                   DataFileSize := DataFileSize (options db);
                   SyncWrites := false;
                   BytesPerSync := BytesPerSync (options db);
                   IndexType := IndexType (options db);
                   MMapAtStartUp := MMapAtStartUp (options db);
                   DataFileMergeRatio_valid := DataFileMergeRatio_valid (options db) |} in
              match Open mergeOptions (Some emptyDirectory) None with
              | Err e => (Err e, set_mergeDir (Some emptyDirectory) db)
              | Ok mdb =>
                  match merge_files db filesToBeMerged
                          {| mergeDB := mdb; hintBytes := [] |} with
                  | (Err e, ms) => (Err e, set_mergeDir (Some (merge_directory ms)) db)
                  | (Ok _, ms) =>
                      let mergeFinishedRecord :=
                        {| data.Key := mergeFinishedKey;
                           data.Value := strconv.FormatUint nonMergeFileID;
                           data.Type_ := data.LogRecordNormal |} in
                      match data.EncodeLogRecord mergeFinishedRecord with
                      | Err e => (Err e, set_mergeDir (Some (merge_directory ms)) db)
                      | Ok (encodeRecord, _) =>
                          (Ok tt,
                           set_mergeDir
                             (Some (set_mergeFinishedFile (Some encodeRecord)
                                      (merge_directory ms))) db)
                      end
                  end
              end
          end
    end.

(** *** The engine iterator *)

Record Iterator : Type := mkIterator {
  indexIter : index.bTreeIterator;
  it_options : IteratorOptions
}.

Definition NewIterator (db : Database) (opts : IteratorOptions) : Iterator :=
  {| indexIter := index.Iterator (index_ db) (Reverse opts); it_options := opts |}.

(** [prefixLen <= len(key) && bytes.Compare(prefix, key[:prefixLen]) == 0]. *)
Definition has_prefix (prefix key : list byte) : bool :=
  (blen prefix <=? blen key)
  && bool_decide (index.Compare prefix (slice_to key (blen prefix)) = Eq).

(** The loop of [skipToNext]; it runs at most once per remaining item. *)
Fixpoint skip_loop (fuel : nat) (prefix : list byte) (bti : index.bTreeIterator)
  : index.bTreeIterator :=
  match fuel with
  | O => bti
  | S fuel' =>
      match index.values bti !! index.currentIndex bti with
      | None => bti
      | Some item =>
          if has_prefix prefix (index.key item) then bti
          else skip_loop fuel' prefix (index.Next bti)
      end
  end.

Definition skipToNext (it : Iterator) : Iterator :=
  if blen (Prefix (it_options it)) =? 0 then it
  else
    {| indexIter :=
         skip_loop (length (index.values (indexIter it))) (Prefix (it_options it))
           (indexIter it);
       it_options := it_options it |}.

Definition it_Rewind (it : Iterator) : Iterator :=
  skipToNext {| indexIter := index.Rewind (indexIter it); it_options := it_options it |}.

Definition it_Next (it : Iterator) : Iterator :=
  skipToNext {| indexIter := index.Next (indexIter it); it_options := it_options it |}.

Definition it_Valid (it : Iterator) : bool := index.Valid (indexIter it).

Definition it_Key (it : Iterator) : result (list byte) := index.Key (indexIter it).

Definition it_Value (db : Database) (it : Iterator) : result (list byte) :=
  logRecordPos ← index.Value (indexIter it);
  getValueByPosition db logRecordPos.

(** The keys a caller sees with
    [for it.Rewind(); it.Valid(); it.Next() { ... it.Key() ... }]. *)
Fixpoint iterate_loop (fuel : nat) (it : Iterator) : list (list byte) :=
  match fuel with
  | O => []
  | S fuel' =>
      if it_Valid it then
        match it_Key it with
        | Ok k => k :: iterate_loop fuel' (it_Next it)
        | Err _ => []
        end
      else []
  end.

Definition iterate (it : Iterator) : list (list byte) :=
  iterate_loop (S (length (index.values (indexIter it)))) (it_Rewind it).

End betadb.

(** ** The bytes of a frame after the checksum: the type and the two sizes *)

Definition frame_header (t : byte) (klen vlen : Z) : list byte :=
  t :: binary.PutVarint klen ++ binary.PutVarint vlen.

(** The index of the table entry with a given top byte: the top bytes of
    the 256 entries are pairwise different. *)
Definition table_index_of_top (top : Z) : Z :=
  let hits := filter (fun i => Z.shiftr (crc32.IEEETable i) 24 =? top)
                (map Z.of_nat (seq 0 256)) in
  hd 0 hits.

(** ** Damage to stored bytes *)

Definition flip_bit (b : byte) (bit : Z) : byte :=
  byte_of_Z (Z.lxor (byte_to_Z b) (2 ^ bit)).

Definition flip_bit_at (contents : list byte) (pos : nat) (bit : Z) : list byte :=
  alter (fun b => flip_bit b bit) pos contents.

(** ** A user key of 2^32 - 1 bytes; with the one-byte sequence prefix of a
    plain write the stored key has 2^32 bytes *)

Definition giant_user_key : list byte := replicate (Z.to_nat (2 ^ 32 - 1)) x00.
Definition giant_key : list byte := x00 :: giant_user_key.


(** ** Predicates on engine states *)

Module inv.
Import betadb.

(** The file id [fid] names an open file: there is an active file, and
    [fid] is its id or the id of an old file stored under its own id. *)
Definition resolves (db : Database) (fid : Z) : Prop :=
  exists af, activeFile db = Some af
    /\ (FileID af = fid
        \/ exists df, olderFiles db !! fid = Some df /\ FileID df = fid).

(** The write cursor of the active file is the length of the file, and no
    data file with a larger id holds bytes. Without an active file no data
    file holds bytes. *)
Definition cursor_ok (db : Database) : Prop :=
  match activeFile db with
  | None => forall fid, file_contents (dir db) fid = []
  | Some af =>
      WriteOffset af = blen (file_contents (dir db) (FileID af))
      /\ 0 <= FileID af
      /\ forall fid, FileID af < fid -> file_contents (dir db) fid = []
  end.

(** The next file id does not wrap around. *)
Definition no_wrap (db : Database) : Prop :=
  forall af, activeFile db = Some af -> FileID af + 1 < 2 ^ 32.

(** The record [r] is stored at [pos]: the file that [pos] names holds the
    encoding of [r] at the offset of [pos]. *)
Definition stored_at (db : Database) (pos : data.LogRecordPos) (r : data.LogRecord) : Prop :=
  resolves db (data.Fid pos)
  /\ exists pre post enc n,
       data.EncodeLogRecord r = Ok (enc, n)
       /\ file_contents (dir db) (data.Fid pos) = pre ++ enc ++ post
       /\ data.Offset pos = blen pre.

(** The active file's id is above the id of every old file; without an
    active file there is no old file. *)
Definition older_below_active (db : Database) : Prop :=
  match activeFile db with
  | None => olderFiles db = ∅
  | Some af => forall fid df, olderFiles db !! fid = Some df -> fid < FileID af
  end.

(** Every entry of the key directory names an open file. *)
Definition index_resolves (db : Database) : Prop :=
  forall k pos, index_ db !! k = Some pos -> resolves db (data.Fid pos).

(** Every entry of the key directory refers to a record that reads back
    with a matching checksum and is not a tombstone. *)
Definition index_refers_to_live_records (db : Database) : Prop :=
  forall k pos, index_ db !! k = Some pos ->
    exists v, getValueByPosition db pos = Ok v.

(** Every entry of the key directory is the position of a stored record
    that is not a tombstone and whose sizes fit the header. *)
Definition index_stored (db : Database) : Prop :=
  forall k pos, index_ db !! k = Some pos ->
    exists r, stored_at db pos r
      /\ blen (data.Key r) < 2 ^ 32 /\ blen (data.Value r) < 2 ^ 32
      /\ data.Type_ r <> data.LogRecordDeleted.

(** From [db] to [db']: files only grew at their end and every open file
    stayed open. *)
Definition grows (db db' : Database) : Prop :=
  (forall fid, exists extra,
      file_contents (dir db') fid = file_contents (dir db) fid ++ extra)
  /\ (forall fid, resolves db fid -> resolves db' fid).

(** [appendLogRecord] in two steps: the engine just before the bytes are
    written (an active file exists, rotated when the record does not fit),
    and the engine after the write to the active file [af]. *)
Definition before_write (size : Z) (db : Database) : Database :=
  let db :=
    match activeFile db with
    | None => setActiveDataFile db
    | Some _ => db
    end in
  match activeFile db with
  | Some af =>
      if DataFileSize (options db) <? WriteOffset af + size
      then rotateActiveFile af db else db
  | None => db
  end.

Definition after_write (encRecord : list byte) (size : Z) (af : DataFile)
    (db : Database) : Database :=
  let db :=
    set_activeFile
      (Some {| FileID := FileID af; WriteOffset := WriteOffset af + blen encRecord |})
      (set_dir (write_file (dir db) (FileID af) encRecord) db) in
  let db := set_bytesWrite (u64 (bytesWrite db + size)) db in
  let needSync :=
    SyncWrites (options db)
    || ((0 <? BytesPerSync (options db))
        && (BytesPerSync (options db) <=? bytesWrite db)) in
  if needSync then
    let db := sync_file af db in
    if 0 <? bytesWrite db then set_bytesWrite 0 db else db
  else db.

(** The active file's id is at most [n]. *)
Definition active_id_le (n : Z) (db : Database) : Prop :=
  forall af, activeFile db = Some af -> FileID af <= n.

(** A sound engine at most [n] file rotations away from a fresh one. *)
Definition sound (n : Z) (db : Database) : Prop :=
  cursor_ok db /\ older_below_active db /\ active_id_le n db.

End inv.

(** ** Sequences of engine operations *)

Module ops.
Import betadb.

Inductive op : Type :=
| OpPut (key value : list byte)
| OpDelete (key : list byte)
| OpCommit (wb : WriteBatch)
| OpMerge (env : MergeEnv).

(** The keys an operation writes. *)
Definition touches (k : list byte) (o : op) : Prop :=
  match o with
  | OpPut key _ => key = k
  | OpDelete key => key = k
  | OpCommit wb => k ∈ (fun kv => data.Key kv.2) <$> pendingWrites wb
  | OpMerge _ => False
  end.

(** The engine after an operation, whatever the operation returned. *)
Definition exec (o : op) (db : Database) : Database :=
  match o with
  | OpPut key value => (betadb.Put key value db).2
  | OpDelete key => (betadb.Delete key db).2
  | OpCommit wb => (Commit wb db).2
  | OpMerge env => (Merge env db).2
  end.

Definition exec_all (os : list op) (db : Database) : Database :=
  fold_left (fun db o => exec o db) os db.

(** A bound on the records an operation appends and the files it opens. *)
Definition appends (o : op) : Z :=
  match o with
  | OpPut _ _ => 1
  | OpDelete _ => 1
  | OpCommit wb => Z.of_nat (length (pendingWrites wb)) + 1
  | OpMerge _ => 1
  end.

Definition total_appends (os : list op) : Z :=
  fold_right (fun o n => appends o + n) 0 os.

(** What an operation returned. *)
Definition returned (o : op) (db : Database) : result unit :=
  match o with
  | OpPut key value => (betadb.Put key value db).1
  | OpDelete key => (betadb.Delete key db).1
  | OpCommit wb => (Commit wb db).1.1
  | OpMerge env => (Merge env db).1
  end.

(** A sequence of operations each of which has to succeed. *)
Fixpoint run (os : list op) (db : Database) : result Database :=
  match os with
  | [] => Ok db
  | o :: os' =>
      match returned o db with
      | Ok _ => run os' (exec o db)
      | Err e => Err e
      end
  end.

End ops.

(** ** The log as recovery reads it *)

Module recovery.
Import betadb.

(** A record of the log as the replay loop holds it: the sequence number
    parsed from the stored key, and the record under its real key with
    its position. *)
Record Entry : Type := mkEntry {
  entrySeqNo : Z;
  entryRecord : data.TransactionRecord
}.

Definition entryKey (e : Entry) : list byte := data.Key (data.Record_ (entryRecord e)).
Definition entryType (e : Entry) : data.LogRecordType :=
  data.Type_ (data.Record_ (entryRecord e)).
Definition entryPos (e : Entry) : data.LogRecordPos := data.Pos (entryRecord e).

Definition entry_of (fileID offset : Z) (logRecord : data.LogRecord) (size : Z)
  : result Entry :=
  '(realKey, seqNo) ← parseLogRecordKey (data.Key logRecord);
  Ok {| entrySeqNo := seqNo;
        entryRecord :=
          {| data.Record_ :=
               {| data.Key := realKey; data.Value := data.Value logRecord;
                  data.Type_ := data.Type_ logRecord |};
             data.Pos :=
               {| data.Fid := fileID; data.Offset := offset; data.Size := u32 size |} |} |}.

(** The records of one file from [offset] on, up to the first read that
    fails. *)
Fixpoint scan_file (fuel : nat) (fileID : Z) (contents : list byte) (offset : Z)
  : list Entry :=
  match fuel with
  | O => []
  | S fuel' =>
      match data.ReadLogRecord contents offset with
      | Ok (logRecord, size) =>
          match entry_of fileID offset logRecord size with
          | Ok e => e :: scan_file fuel' fileID contents (offset + size)
          | Err _ => []
          end
      | Err _ => []
      end
  end.

(** The records of the files that [loadIndexFromDataFiles] visits, in the
    order it visits them. *)
Fixpoint scan_files (db : Database) (ids : list Z) (hasMerge : bool)
    (nonMergeFileID : Z) : list Entry :=
  match ids with
  | [] => []
  | fid :: rest =>
      let fileID := u32 fid in
      if hasMerge && (fileID <? nonMergeFileID) then
        scan_files db rest hasMerge nonMergeFileID
      else
        match activeFile db with
        | None => []
        | Some af =>
            match (if fileID =? FileID af then Some af else olderFiles db !! fileID) with
            | None => []
            | Some df =>
                let contents := file_contents (dir db) (FileID df) in
                scan_file (S (length contents)) fileID contents 0
                  ++ scan_files db rest hasMerge nonMergeFileID
            end
        end
  end.

Definition log_of (db : Database) : list Entry :=
  match fileIDs db with
  | [] => []
  | _ =>
      match mergeFinishedFile (dir db) with
      | Some _ =>
          match getNonMergeFileID (dir db) with
          | Ok fid => scan_files db (fileIDs db) true fid
          | Err _ => []
          end
      | None => scan_files db (fileIDs db) false 0
      end
  end.

(** [updateIndex] on the record of an entry. *)
Definition apply_entry (db : Database) (e : Entry) : Database :=
  updateIndex (entryKey e) (entryType e) (entryPos e) db.

(** One turn of the replay loop on a parsed record: the buffer of open
    transactions and the engine. *)
Definition replay_entry (s : gmap Z (list data.TransactionRecord) * Database) (e : Entry)
  : gmap Z (list data.TransactionRecord) * Database :=
  if entrySeqNo e =? nonTransactionSeqNo then (s.1, apply_entry s.2 e)
  else if bool_decide (entryType e = data.LogRecordTxnFinished) then
    (delete (entrySeqNo e) s.1,
     flush_transaction (default [] (s.1 !! entrySeqNo e)) s.2)
  else
    (<[entrySeqNo e := default [] (s.1 !! entrySeqNo e) ++ [entryRecord e]]> s.1, s.2).

(** The log holds a batch terminator of sequence [seq]. *)
Definition has_terminator (seq : Z) (log : list Entry) : Prop :=
  exists t, t ∈ log /\ entrySeqNo t = seq /\ entryType t = data.LogRecordTxnFinished.

(** The entry [e] occurs in the log as a plain record, or as a record of
    a batch with a terminator of its sequence further on. *)
Definition committed (log : list Entry) (e : Entry) : Prop :=
  exists before after,
    log = before ++ e :: after
    /\ (entrySeqNo e = nonTransactionSeqNo
        \/ (entryType e <> data.LogRecordTxnFinished
            /\ has_terminator (entrySeqNo e) after)).

(** The entry is held in the buffer of open transactions. *)
Definition buffered (txns : gmap Z (list data.TransactionRecord)) (e : Entry) : Prop :=
  entrySeqNo e <> nonTransactionSeqNo
  /\ entryRecord e ∈ default [] (txns !! entrySeqNo e).

(** The entry is a tombstone, or a record reads back from its position. *)
Definition readable (db : Database) (e : Entry) : Prop :=
  entryType e = data.LogRecordDeleted
  \/ exists v, getValueByPosition db (entryPos e) = Ok v.

End recovery.

(** ** Sample configurations *)

Module sample.
Import betadb.

Definition options_of (it : IndexerType) (dataFileSize : Z) : Options :=
  {| DirectoryPath := "/tmp/betadb"; DataFileSize := dataFileSize;
     SyncWrites := false; BytesPerSync := 0; IndexType := it;
     MMapAtStartUp := true; DataFileMergeRatio_valid := true |}.

Definition env : MergeEnv :=
  {| totalSize := 100; availableDiskSpace := 1000000; ratioUnreached := false |}.

(** The engine that [Open] returns on a path that does not exist, for the
    in-memory index variants. *)
Definition empty_db (o : Options) : Database :=
  {| options := o; fileIDs := []; activeFile := None; olderFiles := ∅;
     index_ := ∅; seqNo := 0; isMerging := false; seqNoFilesExists := false;
     isInitial := true; bytesWrite := 0; reclaimSize := 0;
     dir := emptyDirectory; mergeDir := None; indexUnlinked := false;
     syncLog := [] |}.

Definition key_a : list byte := bytes_of_string "a".
Definition key_b : list byte := bytes_of_string "b".
Definition val_1 : list byte := bytes_of_string "1".
Definition val_2 : list byte := bytes_of_string "2".

(** The bytes of a record, and a data directory whose file 0 holds the
    given bytes. *)
Definition bytes_of (r : data.LogRecord) : list byte :=
  match data.EncodeLogRecord r with
  | Ok (enc, _) => enc
  | Err _ => []
  end.

Definition directory_of (contents : list byte) : Directory :=
  set_dataFiles {[ 0 := contents ]} emptyDirectory.


(** Close, then [Open] with the same options on what is on disk. *)
Definition reopen (db : Database) : result Database :=
  match Close db with
  | (Err e, _) => Err e
  | (Ok _, db) => Open (options db) (Some (dir db)) (mergeDir db)
  end.

End sample.


(** * Proofs *)

Import betadb inv ops recovery.

Lemma byte_to_Z_range (b : byte) : 0 <= byte_to_Z b < 256.
Proof.
  unfold byte_to_Z. pose proof (Byte.to_N_bounded b). lia.
Qed.

Lemma byte_of_to_Z (b : byte) : byte_of_Z (byte_to_Z b) = b.
Proof.
  unfold byte_of_Z. pose proof (byte_to_Z_range b) as Hr.
  rewrite Z.mod_small by exact Hr.
  unfold byte_to_Z. rewrite N2Z.id, Byte.of_to_N. reflexivity.
Qed.

Lemma byte_to_of_Z (z : Z) : byte_to_Z (byte_of_Z z) = z mod 256.
Proof.
  unfold byte_of_Z, byte_to_Z.
  pose proof (Z.mod_pos_bound z 256 ltac:(lia)) as Hm.
  destruct (Byte.of_N (Z.to_N (z mod 256))) as [b|] eqn:E.
  - apply Byte.to_of_N in E. rewrite E. rewrite Z2N.id; lia.
  - apply Byte.of_N_None_iff in E. lia.
Qed.

Lemma byte_to_Z_inj (a b : byte) : byte_to_Z a = byte_to_Z b -> a = b.
Proof.
  intros H. rewrite <- (byte_of_to_Z a), <- (byte_of_to_Z b). now rewrite H.
Qed.

(** Bounds through bits. *)
Lemma Z_bits_above (a n : Z) :
  0 <= n -> 0 <= a < 2 ^ n -> forall i, n <= i -> Z.testbit a i = false.
Proof.
  intros Hn Ha i Hi.
  destruct (Z.eq_dec a 0) as [->|Hne]; [apply Z.bits_0|].
  apply Z.bits_above_log2; [lia|].
  assert (Z.log2 a < n) by (apply Z.log2_lt_pow2; lia). lia.
Qed.

Lemma Z_bound_of_bits (a n : Z) :
  0 <= n -> 0 <= a -> (forall i, n <= i -> Z.testbit a i = false) -> a < 2 ^ n.
Proof.
  intros Hn Ha Hb.
  destruct (Z.eq_dec a 0) as [->|Hne]; [apply Z.pow_pos_nonneg; lia|].
  apply Z.log2_lt_pow2; [lia|].
  destruct (Z_lt_le_dec (Z.log2 a) n) as [|Hge]; [assumption|].
  pose proof (Z.bit_log2 a ltac:(lia)) as Hbit.
  rewrite Hb in Hbit by assumption. discriminate.
Qed.

Lemma Z_lxor_range (a b n : Z) :
  0 <= n -> 0 <= a < 2 ^ n -> 0 <= b < 2 ^ n -> 0 <= Z.lxor a b < 2 ^ n.
Proof.
  intros Hn Ha Hb. split.
  - apply Z.lxor_nonneg. lia.
  - apply Z_bound_of_bits; [lia| apply Z.lxor_nonneg; lia|].
    intros i Hi. rewrite Z.lxor_spec, !(Z_bits_above _ n) by (assumption || lia).
    reflexivity.
Qed.

Lemma Z_lor_range (a b n : Z) :
  0 <= n -> 0 <= a < 2 ^ n -> 0 <= b < 2 ^ n -> 0 <= Z.lor a b < 2 ^ n.
Proof.
  intros Hn Ha Hb. split.
  - apply Z.lor_nonneg. lia.
  - apply Z_bound_of_bits; [lia| apply Z.lor_nonneg; lia|].
    intros i Hi. rewrite Z.lor_spec, !(Z_bits_above _ n) by (assumption || lia).
    reflexivity.
Qed.

Lemma Z_lxor_cancel_r (a b m : Z) : Z.lxor a m = Z.lxor b m -> a = b.
Proof.
  intros H.
  assert (Z.lxor (Z.lxor a m) m = Z.lxor (Z.lxor b m) m) by now rewrite H.
  now rewrite !Z.lxor_assoc, !Z.lxor_nilpotent, !Z.lxor_0_r in H0.
Qed.

Lemma Z_lxor_lxor (a m : Z) : Z.lxor (Z.lxor a m) m = a.
Proof. now rewrite Z.lxor_assoc, Z.lxor_nilpotent, Z.lxor_0_r. Qed.

Lemma blen_nonneg (b : list byte) : 0 <= blen b.
Proof. unfold blen. lia. Qed.

Lemma blen_app (a b : list byte) : blen (a ++ b) = blen a + blen b.
Proof. unfold blen. rewrite length_app. lia. Qed.

Lemma blen_cons (x : byte) (b : list byte) : blen (x :: b) = 1 + blen b.
Proof. unfold blen. cbn [length]. lia. Qed.

Lemma blen_nil : blen [] = 0.
Proof. reflexivity. Qed.

(** Splitting a number into its low seven bits and the rest. *)
Lemma low7_high_lor (x s : Z) :
  0 <= s ->
  Z.lor (Z.shiftl (x mod 128) s) (Z.shiftl (Z.shiftr x 7) (s + 7)) = Z.shiftl x s.
Proof.
  intros Hs. apply Z.bits_inj'. intros n Hn.
  rewrite Z.lor_spec, !Z.shiftl_spec by lia.
  destruct (Z_lt_le_dec (n - s) 0) as [Hlt|Hge].
  - rewrite !Z.testbit_neg_r by lia. reflexivity.
  - change 128 with (2 ^ 7). rewrite Z.testbit_mod_pow2 by lia.
    destruct (Z_lt_le_dec (n - s) 7) as [Hlt7|Hge7].
    + rewrite (Z.testbit_neg_r _ (n - (s + 7))) by lia.
      rewrite (proj2 (Z.ltb_lt _ _)) by lia. now rewrite orb_false_r.
    + rewrite (proj2 (Z.ltb_ge _ _)) by lia. cbn [andb orb].
      rewrite Z.shiftr_spec by lia. f_equal. lia.
Qed.

Lemma cont_byte_facts (b : byte) :
  let c := byte_to_Z (byte_of_Z (Z.lor (byte_to_Z b) 128)) in
  (c <? 128) = false /\ Z.land c 127 = byte_to_Z b mod 128.
Proof. destruct b; vm_compute; split; reflexivity. Qed.

Lemma mod256_mod128 (x : Z) : (x mod 256) mod 128 = x mod 128.
Proof.
  change 256 with (128 * 2). rewrite Z.rem_mul_r by lia.
  rewrite (Z.mul_comm 128), Z.mod_add by lia. apply Z.mod_mod. lia.
Qed.

Lemma Uvarint_loop_Put (fuel : nat) :
  forall x rest i acc,
    0 <= i <= 9 -> 0 <= x < 2 ^ (64 - 7 * i) -> (Z.to_nat (9 - i) <= fuel)%nat ->
    binary.Uvarint_loop (binary.PutUvarint_loop fuel x ++ rest) i acc (7 * i)
    = (Z.lor acc (Z.shiftl x (7 * i)), i + blen (binary.PutUvarint_loop fuel x)).
Proof.
  induction fuel as [|fuel IH]; intros x rest i acc Hi Hx Hf.
  - assert (i = 9) by lia. subst i. change (2 ^ (64 - 7 * 9)) with 2 in Hx.
    cbn [binary.PutUvarint_loop app binary.Uvarint_loop].
    change (9 =? binary.MaxVarintLen64) with false.
    rewrite byte_to_of_Z, Z.mod_small by lia.
    rewrite (proj2 (Z.ltb_lt x 128)) by lia.
    rewrite (proj2 (Z.ltb_ge 1 x)) by lia. rewrite andb_false_r.
    unfold u64. rewrite Z.mod_small.
    + reflexivity.
    + rewrite Z.shiftl_mul_pow2 by lia. change (2 ^ (7 * 9)) with (2 ^ 63).
      change (2 ^ 64) with (2 * 2 ^ 63). nia.
  - cbn [binary.PutUvarint_loop].
    assert (Hne : (i =? binary.MaxVarintLen64) = false)
      by (apply Z.eqb_neq; unfold binary.MaxVarintLen64; lia).
    destruct (Z.leb_spec 128 x) as [Hge|Hlt].
    + assert (Hi8 : i <= 8).
      { destruct (Z.eq_dec i 9) as [->|]; [|lia].
        change (2 ^ (64 - 7 * 9)) with 2 in Hx. lia. }
      cbn [app binary.Uvarint_loop]. rewrite Hne.
      pose proof (cont_byte_facts (byte_of_Z x)) as [Hc1 Hc2].
      cbv zeta in Hc1, Hc2. rewrite Hc1, Hc2.
      rewrite byte_to_of_Z, mod256_mod128.
      pose proof (Z.mod_pos_bound x 128 ltac:(lia)) as Hm.
      assert (Hu : u64 (Z.shiftl (x mod 128) (7 * i)) = Z.shiftl (x mod 128) (7 * i)).
      { unfold u64. apply Z.mod_small. rewrite Z.shiftl_mul_pow2 by lia.
        split; [apply Z.mul_nonneg_nonneg; [lia|apply Z.pow_nonneg; lia]|].
        apply Z.lt_le_trans with (128 * 2 ^ (7 * i)).
        - apply Z.mul_lt_mono_pos_r; [apply Z.pow_pos_nonneg; lia|lia].
        - change 128 with (2 ^ 7). rewrite <- Z.pow_add_r by lia.
          apply Z.pow_le_mono_r; lia. }
      rewrite Hu.
      replace (7 * i + 7) with (7 * (i + 1)) by lia.
      rewrite IH.
      * rewrite <- Z.lor_assoc.
        replace (7 * (i + 1)) with (7 * i + 7) by lia.
        rewrite low7_high_lor by lia. rewrite blen_cons. f_equal. lia.
      * lia.
      * split; [apply Z.shiftr_nonneg; lia|].
        rewrite Z.shiftr_div_pow2 by lia.
        apply Z.div_lt_upper_bound; [lia|].
        rewrite <- Z.pow_add_r by lia.
        replace (7 + (64 - 7 * (i + 1))) with (64 - 7 * i) by lia. lia.
      * lia.
    + cbn [app binary.Uvarint_loop]. rewrite Hne.
      rewrite byte_to_of_Z, Z.mod_small by lia.
      rewrite (proj2 (Z.ltb_lt x 128)) by lia.
      assert (Hov : (i =? binary.MaxVarintLen64 - 1) && (1 <? x) = false).
      { destruct (Z.eqb_spec i (binary.MaxVarintLen64 - 1)) as [E|]; [|reflexivity].
        unfold binary.MaxVarintLen64 in E. assert (i = 9) by lia. subst i.
        change (2 ^ (64 - 7 * 9)) with 2 in Hx.
        cbn [andb]. apply Z.ltb_ge. lia. }
      rewrite Hov.
      unfold u64. rewrite Z.mod_small.
      * rewrite blen_cons, blen_nil. f_equal. 
      * rewrite Z.shiftl_mul_pow2 by lia.
        split; [apply Z.mul_nonneg_nonneg; [lia|apply Z.pow_nonneg; lia]|].
        apply Z.lt_le_trans with (2 ^ (64 - 7 * i) * 2 ^ (7 * i)).
        -- apply Z.mul_lt_mono_pos_r; [apply Z.pow_pos_nonneg; lia|lia].
        -- rewrite <- Z.pow_add_r by lia.
           replace (64 - 7 * i + 7 * i) with 64 by lia. lia.
Qed.

Lemma Uvarint_PutUvarint (x : Z) (rest : list byte) :
  0 <= x < 2 ^ 64 ->
  binary.Uvarint (binary.PutUvarint x ++ rest) = (x, blen (binary.PutUvarint x)).
Proof.
  intros Hx. unfold binary.Uvarint, binary.PutUvarint, u64.
  rewrite Z.mod_small by exact Hx.
  pose proof (Uvarint_loop_Put 10 x rest 0 0) as H.
  change (7 * 0) with 0 in H. rewrite H.
  - rewrite Z.lor_0_l, Z.shiftl_0_r. reflexivity.
  - lia.
  - exact Hx.
  - cbn. lia.
Qed.

(** Length of a varint: one byte per seven bits. *)
Lemma PutUvarint_loop_len (fuel : nat) :
  forall x k, 0 <= x < 2 ^ (7 * k) -> 1 <= k ->
    1 <= blen (binary.PutUvarint_loop fuel x) <= k.
Proof.
  induction fuel as [|fuel IH]; intros x k Hx Hk.
  - cbn [binary.PutUvarint_loop]. rewrite blen_cons, blen_nil. lia.
  - cbn [binary.PutUvarint_loop].
    destruct (Z.leb_spec 128 x) as [Hge|Hlt].
    + rewrite blen_cons.
      assert (2 <= k).
      { destruct (Z.eq_dec k 1) as [->|]; [|lia]. change (2 ^ (7 * 1)) with 128 in Hx. lia. }
      specialize (IH (Z.shiftr x 7) (k - 1)).
      assert (0 <= Z.shiftr x 7 < 2 ^ (7 * (k - 1))).
      { split; [apply Z.shiftr_nonneg; lia|].
        rewrite Z.shiftr_div_pow2 by lia.
        apply Z.div_lt_upper_bound; [lia|].
        rewrite <- Z.pow_add_r by lia.
        replace (7 + 7 * (k - 1)) with (7 * k) by lia. lia. }
      specialize (IH H0 ltac:(lia)). lia.
    + rewrite blen_cons, blen_nil. lia.
Qed.

(** Zig-zag of a non-negative int64. *)
Lemma PutVarint_nonneg (x : Z) :
  0 <= x < 2 ^ 63 -> binary.PutVarint x = binary.PutUvarint (2 * x).
Proof.
  intros Hx. unfold binary.PutVarint.
  rewrite (proj2 (Z.ltb_ge x 0)) by lia.
  unfold u64 at 2. rewrite Z.mod_small by lia.
  rewrite Z.shiftl_mul_pow2 by lia. change (2 ^ 1) with 2.
  unfold binary.PutUvarint. f_equal. unfold u64.
  rewrite Z.mod_mod by lia. f_equal. lia.
Qed.

Lemma Varint_PutVarint_nonneg (x : Z) (rest : list byte) :
  0 <= x < 2 ^ 63 ->
  binary.Varint (binary.PutVarint x ++ rest) = (x, blen (binary.PutVarint x)).
Proof.
  intros Hx. rewrite PutVarint_nonneg by exact Hx.
  unfold binary.Varint. rewrite Uvarint_PutUvarint by lia.
  rewrite Z.odd_mul. cbn [Z.odd andb].
  rewrite Z.shiftr_div_pow2 by lia. change (2 ^ 1) with 2.
  rewrite Z.mul_comm, Z.div_mul by lia. reflexivity.
Qed.

Lemma PutVarint_len32 (x : Z) :
  0 <= x < 2 ^ 32 -> 1 <= blen (binary.PutVarint x) <= 5.
Proof.
  intros Hx. rewrite PutVarint_nonneg by lia.
  unfold binary.PutUvarint, u64. rewrite Z.mod_small by lia.
  apply PutUvarint_loop_len; [|lia].
  change (2 ^ (7 * 5)) with (2 ^ 35). lia.
Qed.

Lemma lor_shiftl_add (a b n : Z) :
  0 <= n -> 0 <= a < 2 ^ n -> Z.lor a (Z.shiftl b n) = a + b * 2 ^ n.
Proof.
  intros Hn Ha. rewrite <- Z.shiftl_mul_pow2 by lia.
  rewrite <- Z.add_lor_land.
  assert (Hl : Z.land a (Z.shiftl b n) = 0).
  { apply Z.bits_inj'. intros k Hk. rewrite Z.land_spec, Z.bits_0.
    destruct (Z_lt_le_dec k n).
    - rewrite Z.shiftl_spec_low by lia. apply andb_false_r.
    - rewrite (Z_bits_above a n) by lia. reflexivity. }
  rewrite Hl. lia.
Qed.

Lemma Uint32_sum (b0 b1 b2 b3 : byte) (rest : list byte) :
  binary.Uint32 (b0 :: b1 :: b2 :: b3 :: rest)
  = byte_to_Z b0 + byte_to_Z b1 * 2 ^ 8 + byte_to_Z b2 * 2 ^ 16 + byte_to_Z b3 * 2 ^ 24.
Proof.
  cbn [binary.Uint32].
  pose proof (byte_to_Z_range b0). pose proof (byte_to_Z_range b1).
  pose proof (byte_to_Z_range b2). pose proof (byte_to_Z_range b3).
  rewrite (lor_shiftl_add (byte_to_Z b0)) by lia.
  rewrite (lor_shiftl_add (_ + _) _ 16) by lia.
  rewrite (lor_shiftl_add (_ + _) _ 24) by lia.
  reflexivity.
Qed.

Lemma Uint32_range (l : list byte) : 0 <= binary.Uint32 l < 2 ^ 32.
Proof.
  destruct l as [|b0 [|b1 [|b2 [|b3 rest]]]]; try (cbn; lia).
  rewrite Uint32_sum.
  pose proof (byte_to_Z_range b0). pose proof (byte_to_Z_range b1).
  pose proof (byte_to_Z_range b2). pose proof (byte_to_Z_range b3). lia.
Qed.

Lemma Uint32_inj (a b : list byte) :
  length a = 4%nat -> length b = 4%nat -> binary.Uint32 a = binary.Uint32 b -> a = b.
Proof.
  intros Ha Hb.
  destruct a as [|a0 [|a1 [|a2 [|a3 [|]]]]]; try discriminate.
  destruct b as [|b0 [|b1 [|b2 [|b3 [|]]]]]; try discriminate.
  rewrite !Uint32_sum. intros H.
  pose proof (byte_to_Z_range a0). pose proof (byte_to_Z_range a1).
  pose proof (byte_to_Z_range a2). pose proof (byte_to_Z_range a3).
  pose proof (byte_to_Z_range b0). pose proof (byte_to_Z_range b1).
  pose proof (byte_to_Z_range b2). pose proof (byte_to_Z_range b3).
  assert (byte_to_Z a0 = byte_to_Z b0) by lia.
  assert (byte_to_Z a1 = byte_to_Z b1) by lia.
  assert (byte_to_Z a2 = byte_to_Z b2) by lia.
  assert (byte_to_Z a3 = byte_to_Z b3) by lia.
  repeat match goal with H : byte_to_Z _ = byte_to_Z _ |- _ => apply byte_to_Z_inj in H end.
  congruence.
Qed.

Lemma Uint32_PutUint32 (v : Z) (rest : list byte) :
  0 <= v < 2 ^ 32 -> binary.Uint32 (binary.PutUint32 v ++ rest) = v.
Proof.
  intros Hv. unfold binary.PutUint32. cbn [app]. rewrite Uint32_sum.
  rewrite !byte_to_of_Z, !Z.shiftr_div_pow2 by lia.
  change (2 ^ 8) with 256. change (2 ^ 16) with 65536. change (2 ^ 24) with 16777216.
  change (2 ^ 32) with 4294967296 in Hv.
  Z.div_mod_to_equations. lia.
Qed.

(** *** Ranges of the CRC state *)

Lemma shift_round_range (c : Z) :
  0 <= c < 2 ^ 32 -> 0 <= crc32.shift_round c < 2 ^ 32.
Proof.
  intros Hc. unfold crc32.shift_round.
  assert (Hs : 0 <= Z.shiftr c 1 < 2 ^ 32).
  { rewrite Z.shiftr_div_pow2 by lia. change (2 ^ 1) with 2.
    change (2 ^ 32) with 4294967296 in *. Z.div_mod_to_equations. lia. }
  destruct (Z.odd c); [|exact Hs].
  apply Z_lxor_range; [lia|exact Hs|]. unfold crc32.IEEE. lia.
Qed.

Lemma IEEETable_range (i : Z) :
  0 <= i < 2 ^ 32 -> 0 <= crc32.IEEETable i < 2 ^ 32.
Proof.
  intros Hi. unfold crc32.IEEETable. now do 8 apply shift_round_range.
Qed.

Lemma update_byte_range (c : Z) (v : byte) :
  0 <= c < 2 ^ 32 -> 0 <= crc32.update_byte c v < 2 ^ 32.
Proof.
  intros Hc. unfold crc32.update_byte.
  pose proof (byte_to_Z_range v) as Hv.
  pose proof (Z.mod_pos_bound c 256 ltac:(lia)) as Hm.
  assert (Hi : 0 <= Z.lxor (c mod 256) (byte_to_Z v) < 2 ^ 8)
    by (apply Z_lxor_range; change (2 ^ 8) with 256; lia).
  apply Z_lxor_range; [lia| |].
  - apply IEEETable_range. change (2 ^ 8) with 256 in Hi. lia.
  - rewrite Z.shiftr_div_pow2 by lia. change (2 ^ 8) with 256.
    change (2 ^ 32) with 4294967296 in *. Z.div_mod_to_equations. lia.
Qed.

Lemma not32_range (c : Z) : 0 <= c < 2 ^ 32 -> 0 <= crc32.not32 c < 2 ^ 32.
Proof. intros Hc. unfold crc32.not32. apply Z_lxor_range; lia. Qed.

Lemma not32_not32 (c : Z) : crc32.not32 (crc32.not32 c) = c.
Proof. unfold crc32.not32. apply Z_lxor_lxor. Qed.

Lemma fold_update_range (p : list byte) :
  forall c, 0 <= c < 2 ^ 32 -> 0 <= fold_left crc32.update_byte p c < 2 ^ 32.
Proof.
  induction p as [|v p IH]; intros c Hc; cbn [fold_left]; [exact Hc|].
  apply IH, update_byte_range, Hc.
Qed.

Lemma Update_range (c : Z) (p : list byte) :
  0 <= c < 2 ^ 32 -> 0 <= crc32.Update c p < 2 ^ 32.
Proof.
  intros Hc. unfold crc32.Update.
  apply not32_range, fold_update_range, not32_range, Hc.
Qed.

Lemma ChecksumIEEE_range (p : list byte) : 0 <= crc32.ChecksumIEEE p < 2 ^ 32.
Proof. apply Update_range. lia. Qed.

Lemma Update_app (c : Z) (a b : list byte) :
  crc32.Update (crc32.Update c a) b = crc32.Update c (a ++ b).
Proof.
  unfold crc32.Update. rewrite not32_not32, fold_left_app. reflexivity.
Qed.

Lemma getLogRecordCRC_eq (lr : data.LogRecord) (header : list byte) :
  data.getLogRecordCRC lr header
  = crc32.ChecksumIEEE (header ++ data.Key lr ++ data.Value lr).
Proof.
  unfold data.getLogRecordCRC, crc32.ChecksumIEEE.
  now rewrite !Update_app.
Qed.

(** *** A changed byte changes the checksum *)

Lemma table_index_of_top_spec (b : byte) :
  table_index_of_top (Z.shiftr (crc32.IEEETable (byte_to_Z b)) 24) = byte_to_Z b.
Proof. destruct b; vm_compute; reflexivity. Qed.

Lemma IEEETable_top_inj (i j : Z) :
  0 <= i < 256 -> 0 <= j < 256 ->
  Z.shiftr (crc32.IEEETable i) 24 = Z.shiftr (crc32.IEEETable j) 24 -> i = j.
Proof.
  intros Hi Hj H.
  rewrite <- (Z.mod_small i 256), <- (Z.mod_small j 256) in * by lia.
  rewrite <- !byte_to_of_Z in *.
  rewrite <- (table_index_of_top_spec (byte_of_Z i)),
          <- (table_index_of_top_spec (byte_of_Z j)).
  now rewrite H.
Qed.

Lemma shiftr8_top (c : Z) : 0 <= c < 2 ^ 32 -> Z.shiftr (Z.shiftr c 8) 24 = 0.
Proof.
  intros Hc. rewrite Z.shiftr_shiftr by lia. change (8 + 24) with 32.
  rewrite Z.shiftr_div_pow2 by lia. apply Z.div_small. exact Hc.
Qed.

Lemma update_byte_top (c : Z) (v : byte) :
  0 <= c < 2 ^ 32 ->
  Z.shiftr (crc32.update_byte c v) 24
  = Z.shiftr (crc32.IEEETable (Z.lxor (c mod 256) (byte_to_Z v))) 24.
Proof.
  intros Hc. unfold crc32.update_byte.
  now rewrite Z.shiftr_lxor, shiftr8_top, Z.lxor_0_r.
Qed.

Lemma index_range (c : Z) (v : byte) : 0 <= Z.lxor (c mod 256) (byte_to_Z v) < 256.
Proof.
  pose proof (byte_to_Z_range v). pose proof (Z.mod_pos_bound c 256 ltac:(lia)).
  change 256 with (2 ^ 8). apply Z_lxor_range; change (2 ^ 8) with 256; lia.
Qed.

Lemma update_byte_inj_state (c c' : Z) (v : byte) :
  0 <= c < 2 ^ 32 -> 0 <= c' < 2 ^ 32 ->
  crc32.update_byte c v = crc32.update_byte c' v -> c = c'.
Proof.
  intros Hc Hc' H.
  assert (Hidx : Z.lxor (c mod 256) (byte_to_Z v) = Z.lxor (c' mod 256) (byte_to_Z v)).
  { apply IEEETable_top_inj; try apply index_range.
    rewrite <- !update_byte_top by assumption. now rewrite H. }
  unfold crc32.update_byte in H. rewrite Hidx in H.
  rewrite !(Z.lxor_comm (crc32.IEEETable _)) in H.
  apply Z_lxor_cancel_r in H. apply Z_lxor_cancel_r in Hidx.
  rewrite !Z.shiftr_div_pow2 in H by lia. change (2 ^ 8) with 256 in H.
  rewrite (Z.div_mod c 256), (Z.div_mod c' 256) by lia. congruence.
Qed.

Lemma update_byte_inj_byte (c : Z) (v v' : byte) :
  0 <= c < 2 ^ 32 ->
  crc32.update_byte c v = crc32.update_byte c v' -> v = v'.
Proof.
  intros Hc H.
  assert (Hidx : Z.lxor (c mod 256) (byte_to_Z v) = Z.lxor (c mod 256) (byte_to_Z v')).
  { apply IEEETable_top_inj; try apply index_range.
    rewrite <- !update_byte_top by assumption. now rewrite H. }
  rewrite !(Z.lxor_comm (c mod 256)) in Hidx.
  apply Z_lxor_cancel_r in Hidx. now apply byte_to_Z_inj.
Qed.

Lemma fold_update_inj_state (p : list byte) :
  forall c c', 0 <= c < 2 ^ 32 -> 0 <= c' < 2 ^ 32 ->
    fold_left crc32.update_byte p c = fold_left crc32.update_byte p c' -> c = c'.
Proof.
  induction p as [|v p IH]; intros c c' Hc Hc' H; cbn [fold_left] in H; [exact H|].
  apply IH in H; try now apply update_byte_range.
  now apply update_byte_inj_state in H.
Qed.

Lemma not32_inj (a b : Z) : crc32.not32 a = crc32.not32 b -> a = b.
Proof. unfold crc32.not32. apply Z_lxor_cancel_r. Qed.

Lemma ChecksumIEEE_byte_change (a b : list byte) (v v' : byte) :
  v <> v' ->
  crc32.ChecksumIEEE (a ++ v :: b) <> crc32.ChecksumIEEE (a ++ v' :: b).
Proof.
  intros Hne H. apply Hne.
  unfold crc32.ChecksumIEEE, crc32.Update in H. apply not32_inj in H.
  rewrite !fold_left_app in H. cbn [fold_left] in H.
  assert (Hr : 0 <= fold_left crc32.update_byte a (crc32.not32 0) < 2 ^ 32)
    by (apply fold_update_range, not32_range; lia).
  apply fold_update_inj_state in H; try now apply update_byte_range.
  now apply update_byte_inj_byte in H.
Qed.

Lemma Uint32_PutUint32_nil (v : Z) :
  0 <= v < 2 ^ 32 -> binary.Uint32 (binary.PutUint32 v) = v.
Proof. intros Hv. rewrite <- (app_nil_r (binary.PutUint32 v)). now apply Uint32_PutUint32. Qed.

Lemma slice_from_app (a b : list byte) : slice_from (a ++ b) (blen a) = b.
Proof. unfold slice_from, blen. rewrite Nat2Z.id. apply drop_app_length. Qed.

Lemma slice_to_app (a b : list byte) : slice_to (a ++ b) (blen a) = a.
Proof. unfold slice_to, blen. rewrite Nat2Z.id. apply take_app_length. Qed.

Lemma slice_to_all (a : list byte) : slice_to a (blen a) = a.
Proof. unfold slice_to, blen. rewrite Nat2Z.id. apply firstn_all. Qed.

Lemma slice_to_from (a : list byte) (n : Z) : slice_to a n ++ slice_from a n = a.
Proof. apply take_drop. Qed.

Lemma readNBytes_app (pre mid post : list byte) :
  data.readNBytes (pre ++ mid ++ post) (blen mid) (blen pre) = Ok mid.
Proof.
  unfold data.readNBytes.
  rewrite (proj2 (Z.ltb_ge _ _)) by apply blen_nonneg.
  rewrite (proj2 (Z.ltb_ge _ _)) by apply blen_nonneg.
  rewrite (proj2 (Z.ltb_ge (blen (pre ++ mid ++ post)) _))
    by (rewrite !blen_app; pose proof (blen_nonneg post); lia).
  rewrite andb_false_r.
  unfold blen. rewrite !Nat2Z.id, drop_app_length, take_app_length. reflexivity.
Qed.

Lemma readNBytes_short (contents : list byte) (n off : Z) :
  0 <= off -> blen contents < off + n -> 0 < n ->
  data.readNBytes contents n off = Err EOF.
Proof.
  intros Hoff Hlt Hn. unfold data.readNBytes.
  rewrite (proj2 (Z.ltb_ge n 0)) by lia.
  rewrite (proj2 (Z.ltb_ge off 0)) by lia.
  rewrite (proj2 (Z.ltb_lt 0 n)) by lia.
  rewrite (proj2 (Z.ltb_lt _ _)) by lia. reflexivity.
Qed.

Lemma PutVarint_len34 (x : Z) :
  0 <= x < 2 ^ 34 -> 1 <= blen (binary.PutVarint x) <= 5.
Proof.
  intros Hx. rewrite PutVarint_nonneg by lia.
  unfold binary.PutUvarint, u64. rewrite Z.mod_small by lia.
  apply PutUvarint_loop_len; [|lia].
  change (2 ^ (7 * 5)) with (2 ^ 35). lia.
Qed.

Lemma frame_header_len (t : byte) (klen vlen : Z) :
  0 <= klen < 2 ^ 34 -> 0 <= vlen < 2 ^ 34 ->
  3 <= blen (frame_header t klen vlen) <= 11.
Proof.
  intros Hk Hv. unfold frame_header. rewrite blen_cons, blen_app.
  pose proof (PutVarint_len34 klen Hk). pose proof (PutVarint_len34 vlen Hv). lia.
Qed.

Lemma u32_range (z : Z) : 0 <= u32 z < 2 ^ 32.
Proof. unfold u32. apply Z.mod_pos_bound. lia. Qed.

Lemma u32_small (z : Z) : 0 <= z < 2 ^ 32 -> u32 z = z.
Proof. intros H. unfold u32. now apply Z.mod_small. Qed.

Lemma decode_frame_header (crc4 : list byte) (t : byte) (klen vlen : Z) (tail : list byte) :
  length crc4 = 4%nat -> 0 <= klen < 2 ^ 34 -> 0 <= vlen < 2 ^ 34 ->
  data.decodeLogRecordHeader (crc4 ++ frame_header t klen vlen ++ tail)
  = Ok (Some {| data.crc := binary.Uint32 crc4; data.recordType := t;
                data.keySize := u32 klen; data.valueSize := u32 vlen |},
        4 + blen (frame_header t klen vlen)).
Proof.
  intros H4 Hk Hv.
  pose proof (PutVarint_len34 klen Hk) as Hkl. pose proof (PutVarint_len34 vlen Hv) as Hvl.
  destruct crc4 as [|c0 [|c1 [|c2 [|c3 [|]]]]]; try discriminate. clear H4.
  unfold frame_header.
  set (ks := binary.PutVarint klen) in *. set (vs := binary.PutVarint vlen) in *.
  replace ([c0; c1; c2; c3] ++ (t :: ks ++ vs) ++ tail)
    with (c0 :: c1 :: c2 :: c3 :: t :: ks ++ vs ++ tail)
    by (cbn [app]; now rewrite <- app_assoc).
  unfold data.decodeLogRecordHeader.
  rewrite !blen_cons, !blen_app.
  rewrite (proj2 (Z.leb_gt _ _)) by (pose proof (blen_nonneg tail); lia).
  cbn [nth]. unfold slice_from at 1. change (Z.to_nat 5) with 5%nat. cbn [drop].
  unfold slice_to. change (Z.to_nat 4) with 4%nat. cbn [take].
  rewrite drop_0.
  subst ks. rewrite Varint_PutVarint_nonneg by lia.
  set (ks := binary.PutVarint klen) in *.
  assert (Hneg : (5 + blen ks <? 0) = false) by (apply Z.ltb_ge; lia).
  rewrite Hneg. cbn [orb].
  rewrite (proj2 (Z.ltb_ge _ _)) by (pose proof (blen_nonneg tail); lia).
  replace (c0 :: c1 :: c2 :: c3 :: t :: ks ++ vs ++ tail)
    with ((c0 :: c1 :: c2 :: c3 :: t :: ks) ++ vs ++ tail) by reflexivity.
  replace (5 + blen ks) with (blen (c0 :: c1 :: c2 :: c3 :: t :: ks))
    by (rewrite !blen_cons; lia).
  rewrite slice_from_app. subst vs. rewrite Varint_PutVarint_nonneg by lia.
  rewrite !blen_cons. do 2 f_equal. lia.
Qed.

(** Reading at a frame header: the outcome depends only on the stored
    checksum bytes, the type, the two sizes as the 32-bit header fields hold
    them, and the bytes that follow the header. *)
Lemma ReadLogRecord_header (pre crc4 : list byte) (t : byte) (klen vlen : Z) (rest : list byte) :
  length crc4 = 4%nat -> 0 <= klen < 2 ^ 34 -> 0 <= vlen < 2 ^ 34 ->
  data.ReadLogRecord (pre ++ (crc4 ++ frame_header t klen vlen) ++ rest) (blen pre)
  = if (binary.Uint32 crc4 =? 0) && (u32 klen =? 0) && (u32 vlen =? 0) then Err EOF
    else if (0 <? u32 klen + u32 vlen) && (blen rest <? u32 klen + u32 vlen) then Err EOF
    else
      let kvb := slice_to rest (u32 klen + u32 vlen) in
      if crc32.ChecksumIEEE (frame_header t klen vlen ++ kvb) =? binary.Uint32 crc4
      then Ok ({| data.Key := slice_to kvb (u32 klen); data.Value := slice_from kvb (u32 klen);
                  data.Type_ := t |},
               4 + blen (frame_header t klen vlen) + u32 klen + u32 vlen)
      else Err ErrInvalidCRC.
Proof.
  intros H4 Hk Hv.
  pose proof (frame_header_len t klen vlen Hk Hv) as Hhl.
  pose proof (u32_range klen) as Hku. pose proof (u32_range vlen) as Hvu.
  set (hdr := frame_header t klen vlen) in *.
  assert (Hc4 : blen crc4 = 4) by (unfold blen; rewrite H4; reflexivity).
  unfold data.ReadLogRecord.
  set (file := pre ++ (crc4 ++ hdr) ++ rest).
  set (hb := if blen file <? blen pre + data.maxLogRecordHeaderSize
             then blen file - blen pre else data.maxLogRecordHeaderSize).
  assert (Hfile : blen file = blen pre + (4 + blen hdr) + blen rest).
  { subst file. rewrite !blen_app. lia. }
  pose proof (blen_nonneg rest) as Hrest.
  assert (Hhb : 4 + blen hdr <= hb <= 4 + blen hdr + blen rest).
  { subst hb. unfold data.maxLogRecordHeaderSize, binary.MaxVarintLen32.
    destruct (Z.ltb_spec (blen file) (blen pre + (5 * 2 + 5))); lia. }
  set (tail := take (Z.to_nat (hb - (4 + blen hdr))) rest).
  set (rest' := drop (Z.to_nat (hb - (4 + blen hdr))) rest).
  assert (Htr : rest = tail ++ rest') by (symmetry; apply take_drop).
  assert (Htl : blen tail = hb - (4 + blen hdr)).
  { subst tail. unfold blen. rewrite length_take. unfold blen in *. lia. }
  assert (Hsplit : file = pre ++ (crc4 ++ hdr ++ tail) ++ rest').
  { subst file. rewrite <- !app_assoc. do 3 f_equal. exact Htr. }
  assert (Hbuf : data.readNBytes file hb (blen pre) = Ok (crc4 ++ hdr ++ tail)).
  { rewrite Hsplit.
    replace hb with (blen (crc4 ++ hdr ++ tail)) by (rewrite !blen_app; lia).
    apply readNBytes_app. }
  rewrite Hbuf. cbn [mbind result_bind].
  subst hdr. rewrite decode_frame_header by assumption.
  set (hdr := frame_header t klen vlen) in *.
  cbn [mbind result_bind data.crc data.keySize data.valueSize data.recordType].
  destruct ((binary.Uint32 crc4 =? 0) && (u32 klen =? 0) && (u32 vlen =? 0)); [reflexivity|].
  assert (Hcrcbytes : slice_from (slice_to (crc4 ++ hdr ++ tail) (4 + blen hdr)) crc32.Size = hdr).
  { replace (4 + blen hdr) with (blen (crc4 ++ hdr)) by (rewrite blen_app; lia).
    rewrite app_assoc, slice_to_app.
    unfold crc32.Size. rewrite <- Hc4. apply slice_from_app. }
  assert (Hsz : (4 + blen hdr <? crc32.Size) = false)
    by (apply Z.ltb_ge; unfold crc32.Size; lia).
  destruct ((0 <? u32 klen) || (0 <? u32 vlen)) eqn:Hnz.
  - assert (Hpos : (0 <? u32 klen + u32 vlen) = true).
    { apply Z.ltb_lt. apply orb_true_iff in Hnz as [H|H]; apply Z.ltb_lt in H; lia. }
    rewrite Hpos. cbn [andb].
    unfold data.readNBytes.
    rewrite (proj2 (Z.ltb_ge (u32 klen + u32 vlen) 0)) by lia.
    rewrite (proj2 (Z.ltb_ge (blen pre + (4 + blen hdr)) 0)) by (pose proof (blen_nonneg pre); lia).
    rewrite Hpos. cbn [andb].
    replace (blen file <? blen pre + (4 + blen hdr) + (u32 klen + u32 vlen))
      with (blen rest <? u32 klen + u32 vlen).
    2:{ rewrite Hfile. destruct (Z.ltb_spec (blen rest) (u32 klen + u32 vlen));
        symmetry; [apply Z.ltb_lt|apply Z.ltb_ge]; lia. }
    destruct (blen rest <? u32 klen + u32 vlen); [reflexivity|].
    cbn [mbind result_bind]. rewrite Hsz, Hcrcbytes.
    assert (Hdrop : drop (Z.to_nat (blen pre + (4 + blen hdr))) file = rest).
    { subst file. rewrite app_assoc.
      replace (blen pre + (4 + blen hdr)) with (blen (pre ++ crc4 ++ hdr))
        by (rewrite !blen_app; lia).
      apply slice_from_app. }
    rewrite Hdrop. fold (slice_to rest (u32 klen + u32 vlen)).
    rewrite getLogRecordCRC_eq. cbn [data.Key data.Value].
    rewrite slice_to_from. reflexivity.
  - apply orb_false_iff in Hnz as [Hk0 Hv0].
    apply Z.ltb_ge in Hk0, Hv0.
    assert (Ek : u32 klen = 0) by lia. assert (Ev : u32 vlen = 0) by lia.
    rewrite Ek, Ev. cbn [Z.add Z.ltb Z.compare andb].
    cbn [mbind result_bind]. rewrite Hsz, Hcrcbytes.
    rewrite getLogRecordCRC_eq. cbn [data.Key data.Value].
    unfold slice_to, slice_from. cbn [Z.to_nat take drop app]. reflexivity.
Qed.

(** The case of a well-framed record: sizes below 2^32 and the payload in
    place. *)
Lemma ReadLogRecord_frame (pre post crc4 : list byte) (t : byte) (klen vlen : Z) (kv : list byte) :
  length crc4 = 4%nat -> 0 <= klen < 2 ^ 32 -> 0 <= vlen < 2 ^ 32 ->
  blen kv = klen + vlen ->
  data.ReadLogRecord (pre ++ (crc4 ++ frame_header t klen vlen ++ kv) ++ post) (blen pre)
  = if (binary.Uint32 crc4 =? 0) && (klen =? 0) && (vlen =? 0) then Err EOF
    else if crc32.ChecksumIEEE (frame_header t klen vlen ++ kv) =? binary.Uint32 crc4
         then Ok ({| data.Key := slice_to kv klen; data.Value := slice_from kv klen;
                     data.Type_ := t |},
                  4 + blen (frame_header t klen vlen) + klen + vlen)
         else Err ErrInvalidCRC.
Proof.
  intros H4 Hk Hv Hkv.
  replace (pre ++ (crc4 ++ frame_header t klen vlen ++ kv) ++ post)
    with (pre ++ (crc4 ++ frame_header t klen vlen) ++ kv ++ post)
    by (now rewrite <- !app_assoc).
  rewrite ReadLogRecord_header by (assumption || lia).
  rewrite !u32_small by assumption.
  destruct ((binary.Uint32 crc4 =? 0) && (klen =? 0) && (vlen =? 0)); [reflexivity|].
  rewrite (proj2 (Z.ltb_ge (blen (kv ++ post)) _))
    by (rewrite blen_app; pose proof (blen_nonneg post); lia).
  rewrite andb_false_r. cbv zeta.
  rewrite <- Hkv, slice_to_app. reflexivity.
Qed.

Lemma Ok_inj {A : Type} (a b : A) : Ok a = Ok b -> a = b.
Proof. now intros [= ->]. Qed.

Lemma EncodeLogRecord_frame (r : data.LogRecord) :
  blen (data.Key r) < 2 ^ 32 -> blen (data.Value r) < 2 ^ 32 ->
  let hdr := frame_header (data.Type_ r) (blen (data.Key r)) (blen (data.Value r)) in
  let kv := data.Key r ++ data.Value r in
  data.EncodeLogRecord r
  = Ok (binary.PutUint32 (crc32.ChecksumIEEE (hdr ++ kv)) ++ hdr ++ kv,
        4 + blen hdr + blen (data.Key r) + blen (data.Value r)).
Proof.
  intros Hk Hv hdr kv.
  pose proof (blen_nonneg (data.Key r)). pose proof (blen_nonneg (data.Value r)).
  pose proof (PutVarint_len32 (blen (data.Key r)) ltac:(lia)).
  pose proof (PutVarint_len32 (blen (data.Value r)) ltac:(lia)).
  unfold data.EncodeLogRecord.
  rewrite (proj2 (Z.ltb_ge _ _))
    by (unfold data.maxLogRecordHeaderSize, binary.MaxVarintLen32; lia).
  subst hdr kv. unfold frame_header. rewrite blen_cons, blen_app.
  cbn [app]. rewrite <- !app_assoc. do 2 f_equal. lia.
Qed.

Lemma PutUint32_length (v : Z) : length (binary.PutUint32 v) = 4%nat.
Proof. reflexivity. Qed.

Lemma PutVarint_0 : binary.PutVarint 0 = [x00].
Proof. reflexivity. Qed.

Lemma empty_record_crc_nonzero (t : byte) :
  crc32.ChecksumIEEE (frame_header t 0 0) <> 0.
Proof. destruct t; vm_compute; discriminate. Qed.

Lemma ReadLogRecord_Encode (r : data.LogRecord) (enc : list byte) (n : Z) (pre post : list byte) :
  blen (data.Key r) < 2 ^ 32 -> blen (data.Value r) < 2 ^ 32 ->
  data.EncodeLogRecord r = Ok (enc, n) ->
  data.ReadLogRecord (pre ++ enc ++ post) (blen pre) = Ok (r, n).
Proof.
  intros Hk Hv He. rewrite EncodeLogRecord_frame in He by assumption.
  cbv zeta in He. apply Ok_inj, pair_equal_spec in He as [<- <-].
  pose proof (blen_nonneg (data.Key r)). pose proof (blen_nonneg (data.Value r)).
  rewrite ReadLogRecord_frame;
    [|apply PutUint32_length|lia|lia|apply blen_app].
  rewrite Uint32_PutUint32_nil by apply ChecksumIEEE_range.
  rewrite Z.eqb_refl.
  rewrite slice_to_app, slice_from_app.
  destruct ((_ =? 0) && (blen (data.Key r) =? 0) && (blen (data.Value r) =? 0)) eqn:E.
  - apply andb_true_iff in E as [E Ev]. apply andb_true_iff in E as [E Ek].
    apply Z.eqb_eq in E, Ek, Ev.
    destruct r as [k v t]. cbn [data.Key data.Value data.Type_] in *.
    assert (k = []) as -> by (destruct k; [reflexivity|rewrite blen_cons in Ek; pose proof (blen_nonneg k); lia]).
    assert (v = []) as -> by (destruct v; [reflexivity|rewrite blen_cons in Ev; pose proof (blen_nonneg v); lia]).
    cbn [app] in E. rewrite app_nil_r in E. change (blen []) with 0 in E.
    now apply empty_record_crc_nonzero in E.
  - destruct r; reflexivity.
Qed.

Lemma flip_bit_changes_all (b : byte) :
  forallb (fun bit => negb (Byte.eqb (flip_bit b bit) b)) [0; 1; 2; 3; 4; 5; 6; 7] = true.
Proof. destruct b; vm_compute; reflexivity. Qed.

Lemma flip_bit_neq (b : byte) (bit : Z) : 0 <= bit < 8 -> flip_bit b bit <> b.
Proof.
  intros Hb Heq.
  pose proof (flip_bit_changes_all b) as H.
  rewrite forallb_forall in H. specialize (H bit).
  rewrite Heq in H. rewrite (Byte.byte_dec_lb eq_refl) in H.
  assert (Hin : In bit [0; 1; 2; 3; 4; 5; 6; 7]) by (cbn; lia).
  specialize (H Hin). discriminate.
Qed.

Lemma alter_split {A : Type} (f : A -> A) (l : list A) (i : nat) :
  (i < length l)%nat ->
  exists a v b, l = a ++ v :: b /\ length a = i /\ alter f i l = a ++ f v :: b.
Proof.
  intros Hi. destruct (lookup_lt_is_Some_2 l i Hi) as [v Hv].
  exists (take i l), v, (drop (S i) l).
  assert (Hl : length (take i l) = i) by (rewrite length_take; lia).
  split; [symmetry; now apply take_drop_middle|]. split; [exact Hl|].
  rewrite <- (take_drop_middle l i v Hv) at 1.
  replace i with (length (take i l) + 0)%nat at 1 by lia.
  now rewrite alter_app_r.
Qed.

(** The stored checksum of an empty record stays non-zero under any
    single-bit flip, so a damaged checksum is never read as the all-zero
    end-of-file header. *)
Lemma empty_record_flipped_crc_nonzero_all (t : byte) :
  forallb (fun pos =>
    forallb (fun bit =>
      negb (binary.Uint32
              (flip_bit_at (binary.PutUint32 (crc32.ChecksumIEEE (frame_header t 0 0)))
                 pos bit) =? 0))
      [0; 1; 2; 3; 4; 5; 6; 7])
    [0%nat; 1%nat; 2%nat; 3%nat] = true.
Proof. destruct t; vm_compute; reflexivity. Qed.

Lemma empty_record_flipped_crc_nonzero (t : byte) (pos : nat) (bit : Z) :
  (pos < 4)%nat -> 0 <= bit < 8 ->
  binary.Uint32
    (flip_bit_at (binary.PutUint32 (crc32.ChecksumIEEE (frame_header t 0 0))) pos bit) <> 0.
Proof.
  intros Hp Hb Heq.
  pose proof (empty_record_flipped_crc_nonzero_all t) as H.
  rewrite forallb_forall in H. specialize (H pos).
  assert (Hin : In pos [0%nat; 1%nat; 2%nat; 3%nat]) by (cbn; lia).
  specialize (H Hin). rewrite forallb_forall in H. specialize (H bit).
  assert (Hin' : In bit [0; 1; 2; 3; 4; 5; 6; 7]) by (cbn; lia).
  specialize (H Hin'). rewrite Heq in H. discriminate.
Qed.

Lemma blen_nil_inv (l : list byte) : blen l = 0 -> l = [].
Proof. destruct l; [reflexivity|]. rewrite blen_cons. pose proof (blen_nonneg l). lia. Qed.

Lemma flip_bit_at_length (l : list byte) (pos : nat) (bit : Z) :
  length (flip_bit_at l pos bit) = length l.
Proof. apply length_alter. Qed.

(** C5, as amended: for a stored record whose key and value are shorter
    than 2^32 bytes, flipping any single bit of the checksum, of the type
    byte, of the key or of the value (every byte but those of the two size
    varints) makes [ReadLogRecord] at the record's offset return
    [ErrInvalidCRC]. *)
Theorem ReadLogRecord_bit_flip (r : data.LogRecord) (enc : list byte) (n : Z)
    (pre post : list byte) (pos : nat) (bit : Z) :
  blen (data.Key r) < 2 ^ 32 -> blen (data.Value r) < 2 ^ 32 ->
  data.EncodeLogRecord r = Ok (enc, n) ->
  0 <= bit < 8 -> (pos < length enc)%nat ->
  (Z.of_nat pos < 5 \/ n - blen (data.Key r) - blen (data.Value r) <= Z.of_nat pos) ->
  data.ReadLogRecord (pre ++ flip_bit_at enc pos bit ++ post) (blen pre) = Err ErrInvalidCRC.
Proof.
  intros Hk Hv He Hbit Hpos Hwhere.
  rewrite EncodeLogRecord_frame in He by assumption.
  cbv zeta in He. apply Ok_inj, pair_equal_spec in He as [<- <-].
  pose proof (blen_nonneg (data.Key r)) as Hk0. pose proof (blen_nonneg (data.Value r)) as Hv0.
  destruct r as [k v t]. cbn [data.Key data.Value data.Type_] in *.
  set (c := crc32.ChecksumIEEE (frame_header t (blen k) (blen v) ++ k ++ v)) in *.
  assert (Hc : 0 <= c < 2 ^ 32) by apply ChecksumIEEE_range.
  pose proof (frame_header_len t (blen k) (blen v) ltac:(lia) ltac:(lia)) as Hhl.
  assert (Hkv : blen (k ++ v) = blen k + blen v) by apply blen_app.
  unfold flip_bit_at in *.
  destruct (decide (pos < 4)%nat) as [Hlt4|Hge4].
  - (* a checksum byte *)
    rewrite alter_app_l by (rewrite PutUint32_length; lia).
    destruct (alter_split (fun b => flip_bit b bit) (binary.PutUint32 c) pos)
      as (a & x & b & Hsplit & Hla & Halt); [rewrite PutUint32_length; lia|].
    assert (Hne : alter (fun b => flip_bit b bit) pos (binary.PutUint32 c) <> binary.PutUint32 c).
    { rewrite Halt. rewrite Hsplit. intros E. apply app_inv_head in E.
      injection E as E. now apply flip_bit_neq in E. }
    assert (Hu : binary.Uint32 (alter (fun b => flip_bit b bit) pos (binary.PutUint32 c)) <> c).
    { intros E. apply Hne. apply Uint32_inj.
      - now rewrite length_alter.
      - reflexivity.
      - rewrite E. symmetry. now apply Uint32_PutUint32_nil. }
    rewrite ReadLogRecord_frame; [|now rewrite length_alter|lia|lia|exact Hkv].
    destruct ((_ =? 0) && (blen k =? 0) && (blen v =? 0)) eqn:E.
    + apply andb_true_iff in E as [E Ev]. apply andb_true_iff in E as [E Ek].
      apply Z.eqb_eq in E, Ek, Ev.
      apply blen_nil_inv in Ek, Ev. subst k v. exfalso.
      subst c. cbn [app] in E. rewrite app_nil_r in E. change (blen []) with 0 in E.
      revert E. now apply (empty_record_flipped_crc_nonzero t pos bit).
    + match goal with |- context [?x =? ?y] => destruct (Z.eqb_spec x y) as [E'|E'] end;
        [|reflexivity].
      exfalso. apply Hu. now rewrite <- E'.
  - rewrite alter_app_r_alt by (rewrite PutUint32_length; lia).
    rewrite PutUint32_length.
    destruct (decide (pos = 4)%nat) as [->|Hne4].
    + (* the type byte *)
      change (4 - 4)%nat with 0%nat.
      unfold frame_header at 1. cbn [app alter list_alter].
      change (flip_bit t bit :: (binary.PutVarint (blen k) ++ binary.PutVarint (blen v)) ++ k ++ v)
        with (frame_header (flip_bit t bit) (blen k) (blen v) ++ k ++ v).
      rewrite ReadLogRecord_frame; [|apply PutUint32_length|lia|lia|exact Hkv].
      rewrite Uint32_PutUint32_nil by exact Hc.
      destruct ((c =? 0) && (blen k =? 0) && (blen v =? 0)) eqn:E.
      * apply andb_true_iff in E as [E Ev]. apply andb_true_iff in E as [E Ek].
        apply Z.eqb_eq in E, Ek, Ev.
        apply blen_nil_inv in Ek, Ev. subst k v. exfalso.
        subst c. cbn [app] in E. rewrite app_nil_r in E. change (blen []) with 0 in E.
        revert E. apply empty_record_crc_nonzero.
      * match goal with |- context [?x =? ?y] => destruct (Z.eqb_spec x y) as [E'|E'] end;
          [|reflexivity].
        exfalso. subst c. unfold frame_header in E'. cbn [app] in E'.
        revert E'. apply (ChecksumIEEE_byte_change []). now apply flip_bit_neq.
    + (* a key or value byte *)
      assert (Hn : 4 + blen (frame_header t (blen k) (blen v)) <= Z.of_nat pos) by lia.
      assert (Hlen : length (binary.PutUint32 c ++ frame_header t (blen k) (blen v) ++ k ++ v) = (4 + length (frame_header t (blen k) (blen v)) + length (k ++ v))%nat)
        by (rewrite !length_app, PutUint32_length; lia).
      assert (Hn' : (4 + length (frame_header t (blen k) (blen v)) <= pos)%nat) by (revert Hn; unfold blen at 1; lia).
      rewrite alter_app_r_alt by lia.
      destruct (alter_split (fun b => flip_bit b bit) (k ++ v) (pos - 4 - length (frame_header t (blen k) (blen v))))
        as (a & x & b & Hsplit & Hla & Halt); [lia|].
      rewrite Halt.
      assert (Hkv' : blen (a ++ flip_bit x bit :: b) = blen k + blen v).
      { rewrite <- Hkv, Hsplit, !blen_app, !blen_cons. reflexivity. }
      rewrite ReadLogRecord_frame; [|apply PutUint32_length|lia|lia|exact Hkv'].
      rewrite Uint32_PutUint32_nil by exact Hc.
      destruct ((c =? 0) && (blen k =? 0) && (blen v =? 0)) eqn:E.
      * apply andb_true_iff in E as [E Ev]. apply andb_true_iff in E as [E Ek].
        apply Z.eqb_eq in  Ek, Ev. exfalso.
        rewrite Ek, Ev in Hkv'. rewrite blen_app, blen_cons in Hkv'.
        pose proof (blen_nonneg a). pose proof (blen_nonneg b). lia.
      * match goal with |- context [?x =? ?y] => destruct (Z.eqb_spec x y) as [E'|E'] end;
          [|reflexivity].
        exfalso. subst c. rewrite Hsplit in E'. rewrite !app_assoc in E'.
        revert E'. apply ChecksumIEEE_byte_change. now apply flip_bit_neq.
Qed.

Lemma blen_giant_user_key : blen giant_user_key = 2 ^ 32 - 1.
Proof.
  unfold blen, giant_user_key. rewrite length_replicate. apply Z2Nat.id. lia.
Qed.

Lemma blen_giant_key : blen giant_key = 2 ^ 32.
Proof. unfold giant_key. rewrite blen_cons, blen_giant_user_key. lia. Qed.


Lemma giant_key_not_nil : giant_key <> [].
Proof. discriminate. Qed.

Lemma PutVarint_2_32 : binary.PutVarint (2 ^ 32) = [x80; x80; x80; x80; x20].
Proof. vm_compute. reflexivity. Qed.

Lemma EncodeLogRecord_giant_key (v : list byte) (t : byte) :
  blen v < 2 ^ 32 ->
  let r := {| data.Key := giant_key; data.Value := v; data.Type_ := t |} in
  let body := frame_header t (2 ^ 32) (blen v) ++ giant_key ++ v in
  data.EncodeLogRecord r
  = Ok (binary.PutUint32 (crc32.ChecksumIEEE body) ++ body,
        4 + blen (frame_header t (2 ^ 32) (blen v)) + 2 ^ 32 + blen v).
Proof.
  intros Hv r body. pose proof (blen_nonneg v) as Hv0.
  pose proof (PutVarint_len32 (blen v) ltac:(lia)) as Hl.
  unfold data.EncodeLogRecord. subst r. cbn [data.Key data.Value data.Type_].
  rewrite blen_giant_key, PutVarint_2_32.
  change (blen [x80; x80; x80; x80; x20]) with 5.
  rewrite (proj2 (Z.ltb_ge _ _))
    by (unfold data.maxLogRecordHeaderSize, binary.MaxVarintLen32; lia).
  subst body. unfold frame_header. rewrite PutVarint_2_32.
  rewrite blen_cons, blen_app. change (blen [x80; x80; x80; x80; x20]) with 5.
  cbn [app]. do 2 f_equal. lia.
Qed.

Lemma u32_2_32 : u32 (2 ^ 32) = 0.
Proof. reflexivity. Qed.

Lemma ReadLogRecord_giant_key (pre post v : list byte) (t : byte) (enc : list byte) (n : Z)
    (rec : data.LogRecord) (m : Z) :
  blen v < 2 ^ 32 ->
  data.EncodeLogRecord {| data.Key := giant_key; data.Value := v; data.Type_ := t |} = Ok (enc, n) ->
  data.ReadLogRecord (pre ++ enc ++ post) (blen pre) = Ok (rec, m) ->
  data.Key rec = [] /\ data.Value rec = slice_to (giant_key ++ v ++ post) (blen v).
Proof.
  intros Hv He Hr. pose proof (blen_nonneg v) as Hv0.
  rewrite EncodeLogRecord_giant_key in He by assumption.
  cbv zeta in He. apply Ok_inj, pair_equal_spec in He as [<- <-].
  replace (pre ++ (binary.PutUint32 _ ++ frame_header t (2 ^ 32) (blen v) ++ giant_key ++ v) ++ post)
    with (pre ++ (binary.PutUint32 (crc32.ChecksumIEEE (frame_header t (2 ^ 32) (blen v) ++ giant_key ++ v))
                   ++ frame_header t (2 ^ 32) (blen v)) ++ giant_key ++ v ++ post) in Hr
    by (now rewrite <- !app_assoc).
  rewrite ReadLogRecord_header in Hr; [|apply PutUint32_length|lia|lia].
  rewrite u32_2_32, (u32_small (blen v)) in Hr by lia.
  rewrite Z.add_0_l in Hr.
  destruct (_ && _ && _); [discriminate|].
  destruct (_ && _); [discriminate|].
  cbv zeta in Hr.
  destruct (_ =? _); [|discriminate].
  apply Ok_inj, pair_equal_spec in Hr as [<- _]. cbn [data.Key data.Value].
  split.
  - reflexivity.
  - unfold slice_from. cbn [Z.to_nat drop]. reflexivity.
Qed.

Lemma ReadLogRecord_bit_flip_witness :
  let r := {| data.Key := sample.key_a; data.Value := sample.key_b;
              data.Type_ := data.LogRecordNormal |} in
  let enc := [x6a; xb1; xf5; xb0; x00; x02; x02; x61; x62] in
  blen (data.Key r) < 2 ^ 32 /\ blen (data.Value r) < 2 ^ 32
  /\ data.EncodeLogRecord r = Ok (enc, 9)
  /\ 0 <= 0 < 8 /\ (7 < length enc)%nat
  /\ (Z.of_nat 7 < 5 \/ 9 - blen (data.Key r) - blen (data.Value r) <= Z.of_nat 7)
  /\ data.ReadLogRecord ([] ++ flip_bit_at enc 7 0 ++ []) (blen []) = Err ErrInvalidCRC.
Proof.
  intros r enc.
  assert (H1 : blen (data.Key r) < 2 ^ 32) by (vm_compute; reflexivity).
  assert (H2 : blen (data.Value r) < 2 ^ 32) by (vm_compute; reflexivity).
  assert (H3 : data.EncodeLogRecord r = Ok (enc, 9)) by (vm_compute; reflexivity).
  assert (H4 : 0 <= 0 < 8) by lia.
  assert (H5 : (7 < length enc)%nat) by (cbn; lia).
  assert (H6 : Z.of_nat 7 < 5 \/ 9 - blen (data.Key r) - blen (data.Value r) <= Z.of_nat 7)
    by (right; vm_compute; discriminate).
  split; [exact H1|]. split; [exact H2|]. split; [exact H3|]. split; [exact H4|].
  split; [exact H5|]. split; [exact H6|].
  exact (ReadLogRecord_bit_flip r enc 9 [] [] 7 0 H1 H2 H3 H4 H5 H6).
Defined.

(** C5 fails, as stated, on the size field: with one record in the file,
    flipping bit 2 of the key-size byte makes the read run past the end of
    the file and return [io.EOF], not [ErrInvalidCRC]. *)
Lemma ReadLogRecord_size_bit_flip_EOF :
  let r := {| data.Key := sample.key_a; data.Value := sample.key_b;
              data.Type_ := data.LogRecordNormal |} in
  let enc := [x6a; xb1; xf5; xb0; x00; x02; x02; x61; x62] in
  data.EncodeLogRecord r = Ok (enc, 9)
  /\ data.ReadLogRecord (flip_bit_at enc 5 2) 0 = Err EOF.
Proof. vm_compute. split; reflexivity. Qed.

(** C6, as amended: for a record whose key and value are shorter than 2^32
    bytes, [EncodeLogRecord] lays out the little-endian CRC of all the bytes
    that follow (type, varint key size, varint value size, key, value) and
    then those bytes, and [ReadLogRecord] at the offset of that encoding,
    whatever precedes and follows it in the file, returns the record and the
    encoded length. *)
Theorem EncodeLogRecord_round_trip (r : data.LogRecord) (pre post : list byte) :
  blen (data.Key r) < 2 ^ 32 -> blen (data.Value r) < 2 ^ 32 ->
  let body :=
    data.Type_ r :: binary.PutVarint (blen (data.Key r))
      ++ binary.PutVarint (blen (data.Value r)) ++ data.Key r ++ data.Value r in
  let enc := binary.PutUint32 (crc32.ChecksumIEEE body) ++ body in
  data.EncodeLogRecord r = Ok (enc, blen enc)
  /\ data.ReadLogRecord (pre ++ enc ++ post) (blen pre) = Ok (r, blen enc).
Proof.
  intros Hk Hv body enc.
  assert (He : data.EncodeLogRecord r = Ok (enc, blen enc)).
  { rewrite EncodeLogRecord_frame by assumption. cbv zeta.
    subst enc body. unfold frame_header. cbn [app]. rewrite <- !app_assoc.
    do 2 f_equal. rewrite !blen_app, !blen_cons, !blen_app.
    change (blen (binary.PutUint32 _)) with 4. lia. }
  split; [exact He|]. now apply ReadLogRecord_Encode.
Qed.

Lemma EncodeLogRecord_round_trip_witness :
  let r := {| data.Key := bytes_of_string "engine"; data.Value := bytes_of_string "betadb";
              data.Type_ := data.LogRecordNormal |} in
  blen (data.Key r) < 2 ^ 32 /\ blen (data.Value r) < 2 ^ 32
  /\ let body :=
       data.Type_ r :: binary.PutVarint (blen (data.Key r))
         ++ binary.PutVarint (blen (data.Value r)) ++ data.Key r ++ data.Value r in
     let enc := binary.PutUint32 (crc32.ChecksumIEEE body) ++ body in
     data.EncodeLogRecord r = Ok (enc, blen enc)
     /\ data.ReadLogRecord ([x00] ++ enc ++ [x01]) (blen [x00]) = Ok (r, blen enc).
Proof.
  intros r.
  assert (H1 : blen (data.Key r) < 2 ^ 32) by (vm_compute; reflexivity).
  assert (H2 : blen (data.Value r) < 2 ^ 32) by (vm_compute; reflexivity).
  split; [exact H1|]. split; [exact H2|].
  exact (EncodeLogRecord_round_trip r [x00] [x01] H1 H2).
Defined.

(** C6 fails, as stated, for a key of 2^32 bytes: the encoder writes the
    length as a 5-byte varint, the decoder keeps its low 32 bits, and what
    is read back (if anything) has an empty key. *)
Lemma EncodeLogRecord_giant_key_not_read_back :
  let r := {| data.Key := giant_key; data.Value := []; data.Type_ := data.LogRecordNormal |} in
  exists enc n,
    data.EncodeLogRecord r = Ok (enc, n)
    /\ data.ReadLogRecord enc 0 <> Ok (r, n).
Proof.
  intros r.
  assert (Hl : blen [] < 2 ^ 32) by (vm_compute; reflexivity).
  pose proof (EncodeLogRecord_giant_key [] data.LogRecordNormal Hl) as He.
  cbv zeta in He. eexists _, _. split; [exact He|].
  intros HR.
  set (enc := binary.PutUint32 _ ++ _) in *.
  assert (HR' : data.ReadLogRecord ([] ++ enc ++ []) (blen []) = Ok (r, 4 + blen (frame_header data.LogRecordNormal (2 ^ 32) (blen [])) + 2 ^ 32 + blen []))
    by (cbn [app]; rewrite app_nil_r; exact HR).
  destruct (ReadLogRecord_giant_key [] [] [] data.LogRecordNormal enc _ r _ Hl He HR')
    as [Hkey _].
  subst r. cbn [data.Key] in Hkey. discriminate.
Qed.

(** The repository's own vectors ([TestEncodeLogRecord],
    [TestDecodeLogRecordHeader], [TestGetLogRecordCRC]). *)
Example test_vector_normal :
  data.EncodeLogRecord
    {| data.Key := bytes_of_string "engine"; data.Value := bytes_of_string "betadb";
       data.Type_ := data.LogRecordNormal |}
  = Ok ([x4d; x1a; x50; x11; x00; x0c; x0c] ++ bytes_of_string "enginebetadb", 19)
  /\ binary.Uint32 [x4d; x1a; x50; x11] = 290462285
  /\ data.getLogRecordCRC
       {| data.Key := bytes_of_string "engine"; data.Value := bytes_of_string "betadb";
          data.Type_ := data.LogRecordNormal |} [x00; x0c; x0c] = 290462285.
Proof. vm_compute. repeat split; reflexivity. Qed.

Example test_vector_deleted :
  data.decodeLogRecordHeader [xa5; xc1; xab; xa8; x01; x0c; x0c]
  = Ok (Some {| data.crc := 2829828517; data.recordType := data.LogRecordDeleted;
                data.keySize := 6; data.valueSize := 6 |}, 7)
  /\ data.getLogRecordCRC
       {| data.Key := bytes_of_string "engine"; data.Value := bytes_of_string "betadb";
          data.Type_ := data.LogRecordDeleted |} [x01; x0c; x0c] = 2829828517.
Proof. vm_compute. repeat split; reflexivity. Qed.

Ltac db_simpl :=
  cbn [options fileIDs activeFile olderFiles index_ seqNo isMerging seqNoFilesExists
       isInitial bytesWrite reclaimSize dir mergeDir indexUnlinked syncLog
       set_fileIDs set_activeFile set_olderFiles set_index set_seqNo set_isMerging
       set_seqNoFilesExists set_bytesWrite set_reclaimSize set_dir set_mergeDir
       set_indexUnlinked set_syncLog sync_file
       dataFiles hintFile mergeFinishedFile seqNoFile bptreeIndex
       set_dataFiles set_hintFile set_mergeFinishedFile set_seqNoFile set_bptreeIndex
       FileID WriteOffset fst snd] in *.

Lemma file_contents_OpenDataFile (d : Directory) (fid fid' : Z) :
  file_contents (OpenDataFile d fid) fid' = file_contents d fid'.
Proof.
  unfold OpenDataFile. destruct (dataFiles d !! fid) eqn:E; [reflexivity|].
  unfold file_contents. db_simpl.
  destruct (decide (fid = fid')) as [->|Hne].
  - now rewrite lookup_insert_eq, E.
  - now rewrite lookup_insert_ne.
Qed.

Lemma file_contents_write_file_eq (d : Directory) (fid : Z) (b : list byte) :
  file_contents (write_file d fid b) fid = file_contents d fid ++ b.
Proof. unfold write_file, file_contents at 1. db_simpl. now rewrite lookup_insert_eq. Qed.

Lemma file_contents_write_file_ne (d : Directory) (fid fid' : Z) (b : list byte) :
  fid <> fid' -> file_contents (write_file d fid b) fid' = file_contents d fid'.
Proof.
  intros Hne. unfold write_file, file_contents at 1. db_simpl.
  now rewrite lookup_insert_ne.
Qed.

Lemma file_contents_write_file (d : Directory) (fid fid' : Z) (b : list byte) :
  exists extra, file_contents (write_file d fid b) fid' = file_contents d fid' ++ extra.
Proof.
  destruct (decide (fid = fid')) as [->|Hne].
  - exists b. apply file_contents_write_file_eq.
  - exists []. rewrite app_nil_r. now apply file_contents_write_file_ne.
Qed.

(** *** [setActiveDataFile] and rotation *)

Lemma setActiveDataFile_files (db : Database) (fid : Z) :
  file_contents (dir (setActiveDataFile db)) fid = file_contents (dir db) fid.
Proof. unfold setActiveDataFile. db_simpl. apply file_contents_OpenDataFile. Qed.

Lemma rotateActiveFile_files (af : DataFile) (db : Database) (fid : Z) :
  file_contents (dir (rotateActiveFile af db)) fid = file_contents (dir db) fid.
Proof. unfold rotateActiveFile. now rewrite setActiveDataFile_files. Qed.

Lemma rotateActiveFile_resolves (af : DataFile) (db : Database) (fid : Z) :
  activeFile db = Some af -> resolves db fid -> resolves (rotateActiveFile af db) fid.
Proof.
  intros Ha (af' & Haf & Hr). rewrite Ha in Haf. injection Haf as <-.
  unfold resolves, rotateActiveFile, setActiveDataFile. db_simpl.
  eexists. split; [reflexivity|]. right. db_simpl.
  destruct (decide (FileID af = fid)) as [E|Hne].
  - exists af. now rewrite E, lookup_insert_eq.
  - destruct Hr as [E|(df & Hdf & Hid)]; [contradiction|].
    exists df. now rewrite lookup_insert_ne.
Qed.

(** *** [before_write] *)

Ltac case_if :=
  match goal with
  | |- context [if ?c then _ else _] => destruct c eqn:?
  end.

Lemma before_write_fields (size : Z) (db : Database) :
  let db' := before_write size db in
  index_ db' = index_ db /\ seqNo db' = seqNo db /\ options db' = options db
  /\ reclaimSize db' = reclaimSize db /\ mergeDir db' = mergeDir db
  /\ isMerging db' = isMerging db /\ bytesWrite db' = bytesWrite db.
Proof.
  unfold before_write, rotateActiveFile, setActiveDataFile.
  destruct (activeFile db) as [af|] eqn:Ha; db_simpl; try rewrite Ha;
    case_if; db_simpl; repeat split; reflexivity.
Qed.

Lemma before_write_files (size : Z) (db : Database) (fid : Z) :
  file_contents (dir (before_write size db)) fid = file_contents (dir db) fid.
Proof.
  unfold before_write.
  destruct (activeFile db) as [af|] eqn:Ha.
  - rewrite Ha. case_if; [apply rotateActiveFile_files|reflexivity].
  - destruct (activeFile (setActiveDataFile db)) as [af|] eqn:Ha'.
    + case_if.
      * rewrite rotateActiveFile_files. apply setActiveDataFile_files.
      * apply setActiveDataFile_files.
    + apply setActiveDataFile_files.
Qed.

Lemma setActiveDataFile_active (db : Database) :
  exists af, activeFile (setActiveDataFile db) = Some af.
Proof. unfold setActiveDataFile. db_simpl. eauto. Qed.

Lemma before_write_active (size : Z) (db : Database) :
  exists af, activeFile (before_write size db) = Some af.
Proof.
  unfold before_write.
  destruct (activeFile db) as [af|] eqn:Ha.
  - rewrite Ha. case_if; [|eauto].
    unfold rotateActiveFile. apply setActiveDataFile_active.
  - destruct (setActiveDataFile_active db) as [af Haf]. rewrite Haf.
    case_if; [|eauto]. unfold rotateActiveFile. apply setActiveDataFile_active.
Qed.

Lemma before_write_resolves (size : Z) (db : Database) (fid : Z) :
  resolves db fid -> resolves (before_write size db) fid.
Proof.
  intros Hr. pose proof Hr as (af & Ha & _). unfold before_write.
  rewrite Ha. cbn match. rewrite Ha. case_if; [|exact Hr].
  now apply rotateActiveFile_resolves.
Qed.

(** *** [after_write] *)

Lemma after_write_fields (enc : list byte) (size : Z) (af : DataFile) (db : Database) :
  let db' := after_write enc size af db in
  index_ db' = index_ db /\ seqNo db' = seqNo db /\ options db' = options db
  /\ reclaimSize db' = reclaimSize db /\ mergeDir db' = mergeDir db
  /\ isMerging db' = isMerging db /\ olderFiles db' = olderFiles db
  /\ dir db' = write_file (dir db) (FileID af) enc
  /\ activeFile db' = Some {| FileID := FileID af; WriteOffset := WriteOffset af + blen enc |}.
Proof.
  unfold after_write. db_simpl.
  case_if; db_simpl; [case_if; db_simpl|]; repeat split; reflexivity.
Qed.

(** *** [appendLogRecord] *)

Lemma appendLogRecord_eq (r : data.LogRecord) (db : Database) (enc : list byte) (size : Z) :
  data.EncodeLogRecord r = Ok (enc, size) ->
  exists af,
    activeFile (before_write size db) = Some af
    /\ appendLogRecord r db
       = (Ok {| data.Fid := FileID af; data.Offset := WriteOffset af;
                data.Size := u32 size |},
          after_write enc size af (before_write size db)).
Proof.
  intros He. destruct (before_write_active size db) as [af Haf].
  exists af. split; [exact Haf|].
  unfold appendLogRecord. rewrite He.
  unfold before_write in Haf |- *.
  destruct (activeFile db) as [af0|] eqn:Ha.
  - rewrite Ha in Haf |- *. rewrite Haf. reflexivity.
  - destruct (activeFile (setActiveDataFile db)) as [af1|] eqn:Ha1.
    + rewrite Haf. reflexivity.
    + unfold setActiveDataFile in Ha1. db_simpl. discriminate.
Qed.

Lemma appendLogRecord_err (r : data.LogRecord) (db : Database) (e : error) :
  data.EncodeLogRecord r = Err e ->
  appendLogRecord r db
  = (Err e, match activeFile db with None => setActiveDataFile db | Some _ => db end).
Proof. intros He. unfold appendLogRecord. rewrite He. reflexivity. Qed.

(** Whatever it returns, [appendLogRecord] leaves the key directory alone,
    only appends to files, and keeps every open file open. *)
Lemma appendLogRecord_frame (r : data.LogRecord) (db : Database) :
  let db' := (appendLogRecord r db).2 in
  index_ db' = index_ db /\ seqNo db' = seqNo db /\ options db' = options db
  /\ mergeDir db' = mergeDir db
  /\ (forall fid, exists extra,
        file_contents (dir db') fid = file_contents (dir db) fid ++ extra)
  /\ (forall fid, resolves db fid -> resolves db' fid).
Proof.
  destruct (data.EncodeLogRecord r) as [[enc size]|e] eqn:He.
  - destruct (appendLogRecord_eq r db enc size He) as (af & Haf & ->).
    cbn [snd].
    pose proof (after_write_fields enc size af (before_write size db)) as H.
    cbv zeta in H. destruct H as (Hi & Hs & Ho & _ & Hm & _ & Hold & Hdir & Hact).
    pose proof (before_write_fields size db) as H. cbv zeta in H.
    destruct H as (Hi' & Hs' & Ho' & _ & Hm' & _).
    repeat split; try congruence.
    + intros fid. rewrite Hdir.
      destruct (file_contents_write_file (dir (before_write size db)) (FileID af) fid enc)
        as [extra Hx].
      exists extra. now rewrite Hx, before_write_files.
    + intros fid Hr. apply (before_write_resolves size) in Hr.
      destruct Hr as (af' & Haf' & Hr). rewrite Haf in Haf'. injection Haf' as <-.
      eexists. split; [exact Hact|]. db_simpl. now rewrite Hold.
  - rewrite (appendLogRecord_err r db e He). cbn [snd].
    destruct (activeFile db) eqn:Ha.
    + repeat split; try reflexivity.
      * intros fid. exists []. now rewrite app_nil_r.
      * auto.
    + unfold setActiveDataFile at 1 2 3 4. db_simpl. repeat split; try reflexivity.
      * intros fid. exists []. rewrite app_nil_r. apply setActiveDataFile_files.
      * intros fid (af & Haf & _). congruence.
Qed.

Lemma grows_refl (db : Database) : grows db db.
Proof. split; [intros fid; exists []; now rewrite app_nil_r|auto]. Qed.

Lemma grows_trans (a b c : Database) : grows a b -> grows b c -> grows a c.
Proof.
  intros [Hf1 Hr1] [Hf2 Hr2]. split; [|auto].
  intros fid. destruct (Hf1 fid) as [x Hx]. destruct (Hf2 fid) as [y Hy].
  exists (x ++ y). now rewrite Hy, Hx, app_assoc.
Qed.

(** [grows] only looks at the files and at the file table. *)
Lemma grows_same_files (db db' : Database) :
  dir db' = dir db -> activeFile db' = activeFile db -> olderFiles db' = olderFiles db ->
  grows db db'.
Proof.
  intros Hd Ha Ho. split.
  - intros fid. exists []. now rewrite app_nil_r, Hd.
  - intros fid. unfold resolves. now rewrite Ha, Ho.
Qed.

Lemma appendLogRecord_grows (r : data.LogRecord) (db : Database) :
  grows db (appendLogRecord r db).2.
Proof.
  pose proof (appendLogRecord_frame r db) as H. cbv zeta in H.
  destruct H as (_ & _ & _ & _ & Hf & Hr). now split.
Qed.

Lemma appendLogRecord_index (r : data.LogRecord) (db : Database) :
  index_ (appendLogRecord r db).2 = index_ db.
Proof. pose proof (appendLogRecord_frame r db) as H. cbv zeta in H. tauto. Qed.

Lemma stored_at_grows (db db' : Database) (pos : data.LogRecordPos) (r : data.LogRecord) :
  grows db db' -> stored_at db pos r -> stored_at db' pos r.
Proof.
  intros [Hf Hr] [Hres (pre & post & enc & n & He & Hc & Ho)].
  split; [auto|].
  destruct (Hf (data.Fid pos)) as [extra Hx].
  exists pre, (post ++ extra), enc, n. repeat split; try assumption.
  now rewrite Hx, Hc, <- !app_assoc.
Qed.

(** *** [Put] and [Delete] *)

Lemma add_reclaim_fields (oldPos : option data.LogRecordPos) (db : Database) :
  index_ (add_reclaim oldPos db) = index_ db /\ dir (add_reclaim oldPos db) = dir db
  /\ activeFile (add_reclaim oldPos db) = activeFile db
  /\ olderFiles (add_reclaim oldPos db) = olderFiles db.
Proof. destruct oldPos; cbn; auto. Qed.

Lemma bindM_eq {A B : Type} (m : M A) (k : A -> M B) (db : Database) :
  bindM m k db
  = match m db with
    | (Ok a, db') => k a db'
    | (Err e, db') => (Err e, db')
    end.
Proof. reflexivity. Qed.

Lemma put_step_spec (key : list byte) (pos : data.LogRecordPos) (db : Database) :
  exists db1,
    (do oldPos <- index_Put key pos; modify (add_reclaim oldPos)) db = (Ok tt, db1)
    /\ index_ db1 = <[key := pos]> (index_ db) /\ dir db1 = dir db
    /\ activeFile db1 = activeFile db /\ olderFiles db1 = olderFiles db.
Proof.
  unfold bindM, index_Put, index.Put, modify. eexists. split; [reflexivity|].
  destruct (add_reclaim_fields (index_ db !! key)
              (set_index (<[key:=pos]> (index_ db)) db)) as (Hi & Hd & Ha & Ho).
  rewrite Hi, Hd, Ha, Ho. db_simpl. auto.
Qed.

Lemma delete_step_spec (key : list byte) (db : Database) :
  exists db1,
    (do (oldPos, _) <- index_Delete key; modify (add_reclaim oldPos)) db = (Ok tt, db1)
    /\ index_ db1 = delete key (index_ db) /\ dir db1 = dir db
    /\ activeFile db1 = activeFile db /\ olderFiles db1 = olderFiles db.
Proof.
  unfold bindM, index_Delete, index.Delete, modify.
  destruct (index_ db !! key) as [old|] eqn:Hold.
  - eexists. split; [reflexivity|].
    destruct (add_reclaim_fields (Some old)
                (set_index (delete key (index_ db)) db)) as (Hi & Hd & Ha & Ho).
    rewrite Hi, Hd, Ha, Ho. db_simpl. auto.
  - eexists. split; [reflexivity|]. cbn.
    rewrite delete_id by exact Hold. auto.
Qed.

Lemma Put_ok_inv (k v : list byte) (db db1 : Database) :
  betadb.Put k v db = (Ok tt, db1) ->
  k <> [] /\
  exists pos db0,
    appendLogRecord {| data.Key := logRecordKeyWithSeq k nonTransactionSeqNo;
                       data.Value := v; data.Type_ := data.LogRecordNormal |} db
    = (Ok pos, db0)
    /\ index_ db1 = <[k := pos]> (index_ db0)
    /\ dir db1 = dir db0 /\ activeFile db1 = activeFile db0
    /\ olderFiles db1 = olderFiles db0.
Proof.
  unfold betadb.Put. case_bool_decide as Hk; [discriminate|].
  unfold bindM, appendLogRecordWithLock.
  destruct (appendLogRecord _ db) as [[pos|e] db0] eqn:Ha; [|discriminate].
  unfold index_Put, index.Put, modify. cbn [fst snd]. intros H.
  injection H as <-. split; [exact Hk|]. exists pos, db0. split; [reflexivity|].
  destruct (add_reclaim_fields (index_ db0 !! k)
              (set_index (<[k:=pos]> (index_ db0)) db0)) as (Hi & Hd & Haf & Ho).
  rewrite Hi, Hd, Haf, Ho. db_simpl. auto.
Qed.

Lemma Put_frame (key v k : list byte) (db : Database) :
  key <> k ->
  index_ (betadb.Put key v db).2 !! k = index_ db !! k /\ grows db (betadb.Put key v db).2.
Proof.
  intros Hne. unfold betadb.Put. case_bool_decide; [split; [reflexivity|apply grows_refl]|].
  unfold bindM, appendLogRecordWithLock.
  pose proof (appendLogRecord_grows
    {| data.Key := logRecordKeyWithSeq key nonTransactionSeqNo; data.Value := v;
       data.Type_ := data.LogRecordNormal |} db) as Hg.
  pose proof (appendLogRecord_index
    {| data.Key := logRecordKeyWithSeq key nonTransactionSeqNo; data.Value := v;
       data.Type_ := data.LogRecordNormal |} db) as Hi.
  destruct (appendLogRecord _ db) as [[pos|e] db0]; cbn [snd] in *.
  - unfold index_Put, index.Put, modify. cbn [fst snd].
    destruct (add_reclaim_fields (index_ db0 !! key)
                (set_index (<[key:=pos]> (index_ db0)) db0)) as (Hi' & Hd & Haf & Ho).
    split.
    + rewrite Hi'. db_simpl. rewrite lookup_insert_ne by exact Hne. now rewrite Hi.
    + eapply grows_trans; [exact Hg|]. now apply grows_same_files.
  - split; [now rewrite Hi|exact Hg].
Qed.

Lemma Delete_frame (key k : list byte) (db : Database) :
  key <> k ->
  index_ (betadb.Delete key db).2 !! k = index_ db !! k /\ grows db (betadb.Delete key db).2.
Proof.
  intros Hne. unfold betadb.Delete. case_bool_decide; [split; [reflexivity|apply grows_refl]|].
  unfold bindM, gets. unfold index.Get.
  destruct (index_ db !! key) as [p|] eqn:Hp; [|split; [reflexivity|apply grows_refl]].
  unfold appendLogRecordWithLock.
  pose proof (appendLogRecord_grows
    {| data.Key := logRecordKeyWithSeq key nonTransactionSeqNo; data.Value := [];
       data.Type_ := data.LogRecordDeleted |} db) as Hg.
  pose proof (appendLogRecord_index
    {| data.Key := logRecordKeyWithSeq key nonTransactionSeqNo; data.Value := [];
       data.Type_ := data.LogRecordDeleted |} db) as Hi.
  destruct (appendLogRecord _ db) as [[pos|e] db0]; cbn [snd] in *.
  - unfold modify, index_Delete, index.Delete. db_simpl.
    rewrite Hi, Hp. db_simpl. unfold modify.
    destruct (add_reclaim_fields (Some p)
                (set_index (delete key (index_ db))
                   (set_reclaimSize (reclaimSize db0 + data.Size pos) db0)))
      as (Hi' & Hd & Haf & Ho).
    cbn [snd]. split.
    + rewrite Hi'. db_simpl. now rewrite lookup_delete_ne.
    + eapply grows_trans; [exact Hg|]. now apply grows_same_files.
  - split; [now rewrite Hi|exact Hg].
Qed.

(** *** [Commit] *)

Lemma commit_append_frame (seq : Z) (records : list (list byte * data.LogRecord)) :
  forall positions db,
    index_ (commit_append seq records positions db).2 = index_ db
    /\ grows db (commit_append seq records positions db).2.
Proof.
  induction records as [|[k0 record] rest IH]; intros positions db.
  - cbn. split; [reflexivity|apply grows_refl].
  - cbn [commit_append]. unfold bindM.
    set (r := {| data.Key := logRecordKeyWithSeq (data.Key record) seq;
                 data.Value := data.Value record; data.Type_ := data.Type_ record |}).
    pose proof (appendLogRecord_grows r db) as Hg.
    pose proof (appendLogRecord_index r db) as Hi.
    destruct (appendLogRecord r db) as [[pos|e] db0]; cbn [snd] in *.
    + destruct (IH (<[data.Key record := pos]> positions) db0) as [Hi' Hg'].
      split; [congruence|]. eapply grows_trans; eassumption.
    + split; [exact Hi|exact Hg].
Qed.

Lemma commit_update_frame (records : list (list byte * data.LogRecord))
    (positions : gmap (list byte) data.LogRecordPos) (k : list byte) :
  k ∉ (fun kv => data.Key kv.2) <$> records ->
  forall db,
    index_ (commit_update records positions db).2 !! k = index_ db !! k
    /\ grows db (commit_update records positions db).2.
Proof.
  induction records as [|[k0 record] rest IH]; intros Hk db.
  - cbn. split; [reflexivity|apply grows_refl].
  - rewrite fmap_cons in Hk. apply not_elem_of_cons in Hk as [Hne Hk].
    cbn [snd] in Hne. specialize (IH Hk).
    cbn [commit_update]. rewrite bindM_eq.
    assert (Hstep : forall r db1,
      (match positions !! data.Key record with
       | None => fail Panic
       | Some pos =>
           if bool_decide (data.Type_ record = data.LogRecordNormal) then
             do oldPos <- index_Put (data.Key record) pos; modify (add_reclaim oldPos)
           else if bool_decide (data.Type_ record = data.LogRecordDeleted) then
             do (oldPos, _) <- index_Delete (data.Key record); modify (add_reclaim oldPos)
           else ret tt
       end) db = (r, db1) ->
      index_ db1 !! k = index_ db !! k /\ grows db db1).
    { intros r db1. destruct (positions !! data.Key record) as [pos|].
      - case_bool_decide.
        + destruct (put_step_spec (data.Key record) pos db)
            as (db2 & -> & Hi & Hd & Ha & Ho).
          intros [= _ <-]. split; [|now apply grows_same_files].
          rewrite Hi. now rewrite lookup_insert_ne.
        + case_bool_decide.
          * destruct (delete_step_spec (data.Key record) db)
              as (db2 & -> & Hi & Hd & Ha & Ho).
            intros [= _ <-]. split; [|now apply grows_same_files].
            rewrite Hi. now rewrite lookup_delete_ne.
          * intros [= _ <-]. split; [reflexivity|apply grows_refl].
      - intros [= _ <-]. split; [reflexivity|apply grows_refl]. }
    destruct (_ db) as [[u|e] db1] eqn:E.
    + destruct (Hstep _ _ eq_refl) as [Hi Hg]. destruct (IH db1) as [Hi' Hg'].
      split; [congruence|]. eapply grows_trans; eassumption.
    + destruct (Hstep _ _ eq_refl) as [Hi Hg]. cbn [snd]. split; assumption.
Qed.

(** The sync that [Commit] asks for on [SyncWrites] changes no file and no
    table. *)
Lemma commit_sync_same (b : bool) (db : Database) :
  let db' := match b, activeFile db with
             | true, Some af => sync_file af db
             | _, _ => db
             end in
  index_ db' = index_ db /\ dir db' = dir db /\ activeFile db' = activeFile db
  /\ olderFiles db' = olderFiles db.
Proof.
  destruct b; [|repeat split; reflexivity].
  destruct (activeFile db) as [af|] eqn:Ha; cbn; rewrite ?Ha; repeat split; reflexivity.
Qed.

Lemma Commit_frame (wb : WriteBatch) (k : list byte) (db : Database) :
  ~ touches k (OpCommit wb) ->
  index_ (Commit wb db).2 !! k = index_ db !! k /\ grows db (Commit wb db).2.
Proof.
  intros Hk. cbn [touches] in Hk. unfold Commit.
  case_bool_decide; [split; [reflexivity|apply grows_refl]|].
  case_if; [split; [reflexivity|apply grows_refl]|].
  set (seq := u64 (seqNo db + 1)).
  set (db0 := set_seqNo seq db).
  assert (Hg0 : grows db db0) by now apply grows_same_files.
  assert (Hi0 : index_ db0 = index_ db) by reflexivity.
  unfold bindM.
  destruct (commit_append_frame seq (pendingWrites wb) ∅ db0) as [Hi1 Hg1].
  destruct (commit_append seq (pendingWrites wb) ∅ db0) as [[positions|e] db1];
    cbn [snd] in *.
  - set (fin := {| data.Key := logRecordKeyWithSeq txnFinKey seq; data.Value := [];
                   data.Type_ := data.LogRecordTxnFinished |}).
    pose proof (appendLogRecord_grows fin db1) as Hg2.
    pose proof (appendLogRecord_index fin db1) as Hi2.
    destruct (appendLogRecord fin db1) as [[pos|e] db2]; cbn [snd] in *.
    + unfold modify. cbv beta iota.
      destruct (commit_sync_same (wb_SyncWrites (wb_options wb)) db2)
        as (His & Hds & Has & Hos).
      match goal with |- context [commit_update _ _ ?d] => set (db2s := d) in * end.
      assert (Hgs : grows db2 db2s) by now apply grows_same_files.
      destruct (commit_update_frame (pendingWrites wb) positions k Hk db2s) as [Hi3 Hg3].
      destruct (commit_update (pendingWrites wb) positions db2s) as [[u|e] db3];
        cbn [snd] in *.
      * split; [congruence|].
        exact (grows_trans _ _ _ Hg0 (grows_trans _ _ _ Hg1 (grows_trans _ _ _ Hg2
                 (grows_trans _ _ _ Hgs Hg3)))).
      * split; [congruence|].
        exact (grows_trans _ _ _ Hg0 (grows_trans _ _ _ Hg1 (grows_trans _ _ _ Hg2
                 (grows_trans _ _ _ Hgs Hg3)))).
    + split; [congruence|].
      exact (grows_trans _ _ _ Hg0 (grows_trans _ _ _ Hg1 Hg2)).
  - split; [congruence|]. exact (grows_trans _ _ _ Hg0 Hg1).
Qed.

(** *** [Merge] *)

Lemma rotateActiveFile_grows (af : DataFile) (db : Database) :
  activeFile db = Some af -> grows db (rotateActiveFile af db).
Proof.
  intros Ha. split.
  - intros fid. exists []. rewrite app_nil_r. apply rotateActiveFile_files.
  - intros fid. now apply rotateActiveFile_resolves.
Qed.

(** [Merge] either leaves the engine as it is or rotates the active file and
    writes the merge directory. *)
Lemma Merge_state (env : MergeEnv) (db : Database) :
  (Merge env db).2 = db
  \/ exists af md, activeFile db = Some af
       /\ (Merge env db).2 = set_mergeDir md (rotateActiveFile af db).
Proof.
  unfold Merge. destruct (activeFile db) as [af|] eqn:Ha; [|now left].
  repeat (case_if; [now left|]).
  destruct (activeFile (rotateActiveFile af db)) as [na|] eqn:Hna.
  - destruct (Open _ _ _) as [mdb|e].
    + destruct (merge_files _ _ _) as [[u|e] ms].
      * destruct (data.EncodeLogRecord _) as [[enc n]|e]; right; eauto.
      * right; eauto.
    + right; eauto.
  - unfold rotateActiveFile, setActiveDataFile in Hna. db_simpl. discriminate.
Qed.

Lemma Merge_frame (env : MergeEnv) (db : Database) :
  index_ (Merge env db).2 = index_ db /\ grows db (Merge env db).2.
Proof.
  destruct (Merge_state env db) as [->|(af & md & Ha & ->)].
  - split; [reflexivity|apply grows_refl].
  - split; [reflexivity|].
    apply (grows_trans _ (rotateActiveFile af db)); [now apply rotateActiveFile_grows|].
    apply grows_same_files; reflexivity.
Qed.

(** *** Operations that do not write [k] *)

Lemma exec_frame (k : list byte) (o : op) (db : Database) :
  ~ touches k o ->
  index_ (exec o db) !! k = index_ db !! k /\ grows db (exec o db).
Proof.
  destruct o as [key v|key|wb|env]; cbn [touches exec]; intros Hk.
  - now apply Put_frame.
  - now apply Delete_frame.
  - now apply Commit_frame.
  - destruct (Merge_frame env db) as [-> Hg]. now split.
Qed.

Lemma exec_all_frame (k : list byte) (os : list op) :
  Forall (fun o => ~ touches k o) os ->
  forall db, index_ (exec_all os db) !! k = index_ db !! k /\ grows db (exec_all os db).
Proof.
  induction 1 as [|o os Ho Hos IH]; intros db.
  - cbn. split; [reflexivity|apply grows_refl].
  - cbn [exec_all fold_left]. fold (exec_all os (exec o db)).
    destruct (exec_frame k o db Ho) as [Hi Hg]. destruct (IH (exec o db)) as [Hi' Hg'].
    split; [congruence|]. eapply grows_trans; eassumption.
Qed.

Lemma u32_succ (x : Z) : 0 <= x -> x + 1 < 2 ^ 32 -> u32 (x + 1) = x + 1.
Proof. intros. apply u32_small. lia. Qed.

Lemma setActiveDataFile_active_eq (db : Database) :
  activeFile (setActiveDataFile db)
  = Some {| FileID := match activeFile db with
                      | Some af => u32 (FileID af + 1)
                      | None => 0
                      end;
            WriteOffset := 0 |}.
Proof. reflexivity. Qed.

Lemma rotateActiveFile_active (af : DataFile) (db : Database) :
  activeFile db = Some af ->
  activeFile (rotateActiveFile af db)
  = Some {| FileID := u32 (FileID af + 1); WriteOffset := 0 |}.
Proof.
  intros Ha. unfold rotateActiveFile. rewrite setActiveDataFile_active_eq.
  db_simpl. now rewrite Ha.
Qed.

Lemma rotateActiveFile_older (af : DataFile) (db : Database) :
  olderFiles (rotateActiveFile af db) = <[FileID af := af]> (olderFiles db).
Proof. reflexivity. Qed.

(** Just before the bytes are written the cursor of the active file is the
    length of the file. *)
Lemma before_write_cursor (size : Z) (db : Database) :
  cursor_ok db -> no_wrap db ->
  exists af, activeFile (before_write size db) = Some af
    /\ WriteOffset af = blen (file_contents (dir (before_write size db)) (FileID af)).
Proof.
  intros Hc Hw. unfold cursor_ok in Hc. unfold before_write.
  destruct (activeFile db) as [af|] eqn:Ha.
  - destruct Hc as (Hoff & Hid & Habove). rewrite Ha. case_if.
    + rewrite (rotateActiveFile_active af db Ha).
      eexists. split; [reflexivity|]. db_simpl.
      rewrite rotateActiveFile_files.
      rewrite u32_succ by (auto using Hw). rewrite Habove by lia. reflexivity.
    + exists af. split; [exact Ha|exact Hoff].
  - assert (Ha0 : activeFile (setActiveDataFile db) = Some {| FileID := 0; WriteOffset := 0 |})
      by (rewrite setActiveDataFile_active_eq; now rewrite Ha).
    rewrite Ha0. case_if.
    + rewrite (rotateActiveFile_active _ _ Ha0).
      eexists. split; [reflexivity|]. db_simpl.
      rewrite rotateActiveFile_files, setActiveDataFile_files.
      rewrite Hc. reflexivity.
    + eexists. split; [exact Ha0|]. db_simpl.
      rewrite setActiveDataFile_files, Hc. reflexivity.
Qed.

(** A record appended with a sound cursor is stored at the position that
    [appendLogRecord] returns. *)
Lemma appendLogRecord_stored (r : data.LogRecord) (db db0 : Database) (pos : data.LogRecordPos) :
  cursor_ok db -> no_wrap db ->
  appendLogRecord r db = (Ok pos, db0) -> stored_at db0 pos r.
Proof.
  intros Hc Hw Happ.
  destruct (data.EncodeLogRecord r) as [[enc size]|e] eqn:He.
  2:{ rewrite (appendLogRecord_err r db e He) in Happ. discriminate. }
  destruct (appendLogRecord_eq r db enc size He) as (af & Haf & Heq).
  rewrite Heq in Happ. injection Happ as <- <-.
  destruct (before_write_cursor size db Hc Hw) as (af' & Haf' & Hoff).
  rewrite Haf in Haf'. injection Haf' as <-.
  pose proof (after_write_fields enc size af (before_write size db)) as H.
  cbv zeta in H. destruct H as (_ & _ & _ & _ & _ & _ & Hold & Hdir & Hact).
  split.
  - eexists. split; [exact Hact|]. left. reflexivity.
  - exists (file_contents (dir (before_write size db)) (FileID af)), [], enc, size.
    cbn [data.Fid data.Offset]. repeat split; [exact He| |exact Hoff].
    now rewrite Hdir, file_contents_write_file_eq, app_nil_r.
Qed.

Lemma Put_stored (k v : list byte) (db db1 : Database) :
  cursor_ok db -> no_wrap db ->
  betadb.Put k v db = (Ok tt, db1) ->
  exists pos,
    index_ db1 !! k = Some pos
    /\ stored_at db1 pos
         {| data.Key := logRecordKeyWithSeq k nonTransactionSeqNo; data.Value := v;
            data.Type_ := data.LogRecordNormal |}.
Proof.
  intros Hc Hw HP.
  destruct (Put_ok_inv k v db db1 HP) as (Hk & pos & db0 & Happ & Hi & Hd & Ha & Ho).
  exists pos. split; [rewrite Hi; apply lookup_insert_eq|].
  apply (stored_at_grows db0); [now apply grows_same_files|].
  now apply (appendLogRecord_stored _ db).
Qed.

(** Reading a stored record through [getValueByPosition]. *)
Lemma getValueByPosition_stored (db : Database) (pos : data.LogRecordPos) (r : data.LogRecord) :
  blen (data.Key r) < 2 ^ 32 -> blen (data.Value r) < 2 ^ 32 ->
  stored_at db pos r ->
  getValueByPosition db pos
  = if bool_decide (data.Type_ r = data.LogRecordDeleted) then Err ErrKeyNotFound
    else Ok (data.Value r).
Proof.
  intros Hk Hv [(af & Ha & Hr) (pre & post & enc & n & He & Hc & Ho)].
  unfold getValueByPosition. rewrite Ha.
  assert (Hfile : forall df,
    (if FileID af =? data.Fid pos then Some af else olderFiles db !! data.Fid pos) = Some df ->
    FileID df = data.Fid pos).
  { intros df. destruct (Z.eqb_spec (FileID af) (data.Fid pos)) as [E|Hne].
    - now intros [= <-].
    - destruct Hr as [E|(df' & Hdf & Hid)]; [contradiction|].
      rewrite Hdf. now intros [= <-]. }
  destruct (if FileID af =? data.Fid pos then Some af else olderFiles db !! data.Fid pos)
    as [df|] eqn:Hdf.
  - rewrite (Hfile df eq_refl), Hc, Ho.
    rewrite (ReadLogRecord_Encode r enc n pre post Hk Hv He).
    reflexivity.
  - exfalso. destruct (Z.eqb_spec (FileID af) (data.Fid pos)) as [E|Hne]; [discriminate|].
    destruct Hr as [E|(df' & Hdf' & Hid)]; [contradiction|congruence].
Qed.

Lemma logRecordKeyWithSeq_0 (k : list byte) :
  logRecordKeyWithSeq k nonTransactionSeqNo = x00 :: k.
Proof. reflexivity. Qed.

Lemma checkOptions_sample (it : IndexerType) (size : Z) :
  0 < size -> checkOptions (sample.options_of it size) = Ok tt.
Proof.
  intros Hs. unfold checkOptions.
  cbn [sample.options_of DirectoryPath DataFileSize DataFileMergeRatio_valid negb].
  case_bool_decide as H; [discriminate H|].
  now rewrite (proj2 (Z.leb_gt size 0)) by lia.
Qed.

Lemma Open_empty (it : IndexerType) (size : Z) :
  it <> BPlusTree -> 0 < size ->
  Open (sample.options_of it size) None None = Ok (sample.empty_db (sample.options_of it size)).
Proof.
  intros Hit Hs. unfold Open. rewrite checkOptions_sample by exact Hs.
  cbn [mbind result_bind]. change (IndexType (sample.options_of it size)) with it.
  rewrite bool_decide_false by exact Hit.
  rewrite bool_decide_true by exact Hit.
  reflexivity.
Qed.

Lemma cursor_ok_empty_db (o : Options) : cursor_ok (sample.empty_db o).
Proof. intros fid. unfold file_contents. cbn. now rewrite lookup_empty. Qed.


Lemma Get_stored (db : Database) (k v : list byte) (pos : data.LogRecordPos) :
  k <> [] -> blen k + 1 < 2 ^ 32 -> blen v < 2 ^ 32 ->
  index_ db !! k = Some pos ->
  stored_at db pos
    {| data.Key := logRecordKeyWithSeq k nonTransactionSeqNo; data.Value := v;
       data.Type_ := data.LogRecordNormal |} ->
  Get db k = Ok v.
Proof.
  intros Hk Hkl Hvl Hi Hs. unfold Get. rewrite bool_decide_false by exact Hk.
  unfold index.Get. rewrite Hi.
  rewrite (getValueByPosition_stored db pos
             {| data.Key := logRecordKeyWithSeq k nonTransactionSeqNo; data.Value := v;
                data.Type_ := data.LogRecordNormal |}); [| | |exact Hs].
  - cbn [data.Type_ data.Value]. now rewrite bool_decide_false by discriminate.
  - cbn [data.Key]. rewrite logRecordKeyWithSeq_0, blen_cons. lia.
  - exact Hvl.
Qed.



(** *** A key too long for the header's size field *)





(** *** The empty batch *)

(** C10: committing a batch without staged writes returns nil and gives
    back the batch and the engine as they were: the sequence number, the
    files, the key directory and the reclaim counter are those of before. *)
Theorem Commit_empty_batch (wb : WriteBatch) (db : Database) :
  pendingWrites wb = [] ->
  Commit wb db = (Ok tt, wb, db)
  /\ seqNo (Commit wb db).2 = seqNo db
  /\ dir (Commit wb db).2 = dir db
  /\ activeFile (Commit wb db).2 = activeFile db
  /\ index_ (Commit wb db).2 = index_ db
  /\ reclaimSize (Commit wb db).2 = reclaimSize db.
Proof.
  intros Hp.
  assert (H : Commit wb db = (Ok tt, wb, db)).
  { unfold Commit. now rewrite bool_decide_true by exact Hp. }
  rewrite H. repeat split.
Qed.

Lemma Commit_empty_batch_witness :
  let db := sample.empty_db (sample.options_of BTree 64) in
  let wb := {| wb_options := {| MaxBatchNum := 10; wb_SyncWrites := true |};
               pendingWrites := [] |} in
  NewWriteBatch db {| MaxBatchNum := 10; wb_SyncWrites := true |} = Ok wb
  /\ pendingWrites wb = []
  /\ Commit wb db = (Ok tt, wb, db).
Proof.
  intros db wb.
  split; [reflexivity|]. split; [reflexivity|].
  exact (proj1 (Commit_empty_batch wb db eq_refl)).
Defined.

(** A batch in which a key was staged and then deleted while the key
    directory does not hold it is empty again. *)
Lemma wb_Put_Delete_empty (db : Database) (o : WriteBatchOptions) (k v : list byte) (wb1 wb2 : WriteBatch) :
  index_ db !! k = None ->
  wb_Put {| wb_options := o; pendingWrites := [] |} k v = Ok wb1 ->
  wb_Delete wb1 db k = Ok wb2 ->
  pendingWrites wb2 = [].
Proof.
  intros Hi. unfold wb_Put, wb_Delete, index.Get.
  case_bool_decide as Hk; [discriminate|]. intros [= <-].
  rewrite Hi. intros [= <-]. cbn [pendingWrites pending_set pending_delete].
  cbn. rewrite decide_False; [reflexivity|]. intros H. now apply H.
Qed.

(** *** Rotation of the active file *)

Lemma older_below_active_after_write (enc : list byte) (size : Z) (af : DataFile) (db : Database) :
  activeFile db = Some af -> older_below_active db ->
  older_below_active (after_write enc size af db).
Proof.
  intros Ha Ho. unfold older_below_active in *. rewrite Ha in Ho.
  destruct (after_write_fields enc size af db) as (_ & _ & _ & _ & _ & _ & Hold & _ & Hact).
  rewrite Hact, Hold. exact Ho.
Qed.

Lemma older_below_active_rotate (af : DataFile) (db : Database) :
  activeFile db = Some af -> 0 <= FileID af -> FileID af + 1 < 2 ^ 32 ->
  older_below_active db -> older_below_active (rotateActiveFile af db).
Proof.
  intros Ha H0 Hw Ho. unfold older_below_active in *. rewrite Ha in Ho.
  rewrite (rotateActiveFile_active af db Ha), rotateActiveFile_older.
  cbn [FileID]. rewrite u32_succ by assumption.
  intros fid df Hl. destruct (decide (FileID af = fid)) as [<-|Hne].
  - lia.
  - rewrite lookup_insert_ne in Hl by exact Hne. specialize (Ho _ _ Hl). lia.
Qed.

Lemma rotateActiveFile_syncLog (af : DataFile) (db : Database) :
  syncLog (rotateActiveFile af db)
  = (FileID af, blen (file_contents (dir db) (FileID af))) :: syncLog db.
Proof. reflexivity. Qed.

Lemma after_write_syncLog (enc : list byte) (size : Z) (af : DataFile) (db : Database) :
  exists later, syncLog (after_write enc size af db) = later ++ syncLog db.
Proof.
  unfold after_write. db_simpl. case_if; [|now exists []].
  db_simpl. case_if; db_simpl; eexists [_]; reflexivity.
Qed.

(** C7, as amended: on an append with an active file whose id is below
    2^32 - 1, when the write offset plus the encoded size exceeds the
    configured data file size the active file is synced at its full length
    and stored in the table of old files under its id, a new active file
    with the next id is opened, and the record goes to offset 0 of that
    file; otherwise the tables stay and the record goes to the active file.
    Either way the active file's id stays above the id of every old
    file. *)
Theorem appendLogRecord_rotation (r : data.LogRecord) (db : Database) (af : DataFile)
    (enc : list byte) (size : Z) :
  activeFile db = Some af ->
  data.EncodeLogRecord r = Ok (enc, size) ->
  0 <= FileID af -> FileID af + 1 < 2 ^ 32 ->
  older_below_active db ->
  let res := appendLogRecord r db in
  (if DataFileSize (options db) <? WriteOffset af + size
   then res.1 = Ok {| data.Fid := FileID af + 1; data.Offset := 0; data.Size := u32 size |}
        /\ olderFiles res.2 = <[FileID af := af]> (olderFiles db)
        /\ activeFile res.2 = Some {| FileID := FileID af + 1; WriteOffset := blen enc |}
        /\ file_contents (dir res.2) (FileID af) = file_contents (dir db) (FileID af)
        /\ (exists later,
              syncLog res.2
              = later ++ (FileID af, blen (file_contents (dir db) (FileID af)))
                           :: syncLog db)
   else res.1 = Ok {| data.Fid := FileID af; data.Offset := WriteOffset af;
                      data.Size := u32 size |}
        /\ olderFiles res.2 = olderFiles db
        /\ activeFile res.2
           = Some {| FileID := FileID af; WriteOffset := WriteOffset af + blen enc |})
  /\ older_below_active res.2.
Proof.
  intros Ha He H0 Hw Ho res.
  destruct (appendLogRecord_eq r db enc size He) as (af' & Haf' & Heq).
  subst res. rewrite Heq. cbn [fst snd].
  unfold before_write in *. rewrite Ha in *. cbn match in *. rewrite Ha in *.
  destruct (after_write_fields enc size af'
              (if DataFileSize (options db) <? WriteOffset af + size
               then rotateActiveFile af db else db))
    as (_ & _ & _ & _ & _ & _ & Hold & Hdir & Hact).
  destruct (DataFileSize (options db) <? WriteOffset af + size) eqn:Hfull.
  - rewrite (rotateActiveFile_active af db Ha) in Haf'. injection Haf' as <-.
    cbn [FileID WriteOffset] in *. rewrite u32_succ in * by assumption.
    split; [repeat split|].
    + rewrite Hold. apply rotateActiveFile_older.
    + rewrite Hact. f_equal.
    + rewrite Hdir, file_contents_write_file_ne by lia. apply rotateActiveFile_files.
    + destruct (after_write_syncLog enc size
                  {| FileID := FileID af + 1; WriteOffset := 0 |} (rotateActiveFile af db))
        as [later Hl].
      exists later. now rewrite Hl, rotateActiveFile_syncLog.
    + apply older_below_active_after_write.
      * rewrite (rotateActiveFile_active af db Ha). now rewrite u32_succ by assumption.
      * now apply older_below_active_rotate.
  - rewrite Ha in Haf'. injection Haf' as <-.
    split; [repeat split; assumption|].
    now apply older_below_active_after_write.
Qed.

Lemma appendLogRecord_rotation_witness :
  let db := (betadb.Put sample.key_a sample.val_1
               (sample.empty_db (sample.options_of BTree 15))).2 in
  let af := {| FileID := 0; WriteOffset := 10 |} in
  let r := {| data.Key := logRecordKeyWithSeq sample.key_b nonTransactionSeqNo;
              data.Value := sample.val_2; data.Type_ := data.LogRecordNormal |} in
  let enc := [x4d; x97; x57; x71; x00; x04; x02; x00; x62; x32] in
  activeFile db = Some af
  /\ data.EncodeLogRecord r = Ok (enc, 10)
  /\ 0 <= FileID af /\ FileID af + 1 < 2 ^ 32
  /\ older_below_active db
  /\ (let res := appendLogRecord r db in
      (if DataFileSize (options db) <? WriteOffset af + 10
       then res.1 = Ok {| data.Fid := FileID af + 1; data.Offset := 0; data.Size := u32 10 |}
            /\ olderFiles res.2 = <[FileID af := af]> (olderFiles db)
            /\ activeFile res.2 = Some {| FileID := FileID af + 1; WriteOffset := blen enc |}
            /\ file_contents (dir res.2) (FileID af) = file_contents (dir db) (FileID af)
            /\ (exists later,
                  syncLog res.2
                  = later ++ (FileID af, blen (file_contents (dir db) (FileID af)))
                               :: syncLog db)
       else res.1 = Ok {| data.Fid := FileID af; data.Offset := WriteOffset af;
                          data.Size := u32 10 |}
            /\ olderFiles res.2 = olderFiles db
            /\ activeFile res.2
               = Some {| FileID := FileID af; WriteOffset := WriteOffset af + blen enc |})
      /\ older_below_active res.2).
Proof.
  intros db af r enc.
  assert (Ha : activeFile db = Some af) by (vm_compute; reflexivity).
  assert (He : data.EncodeLogRecord r = Ok (enc, 10)) by (vm_compute; reflexivity).
  assert (H0 : 0 <= FileID af) by (cbn; lia).
  assert (Hw : FileID af + 1 < 2 ^ 32) by (cbn; lia).
  assert (Ho : older_below_active db).
  { unfold older_below_active. rewrite Ha. intros fid df Hl.
    assert (Hold : olderFiles db = ∅) by (vm_compute; reflexivity).
    rewrite Hold, lookup_empty in Hl. discriminate. }
  split; [exact Ha|]. split; [exact He|]. split; [exact H0|]. split; [exact Hw|].
  split; [exact Ho|].
  exact (appendLogRecord_rotation r db af enc 10 Ha He H0 Hw Ho).
Defined.

(** C7 fails, as stated, at the last file id: opened on a directory whose
    data file is [4294967295.data], the engine rotates on the first write
    to a new active file of id 0, below the id of the old file. *)
Lemma rotation_wraps_file_id :
  let o := sample.options_of BTree 1 in
  let d := set_dataFiles {[ 4294967295 := [] ]} emptyDirectory in
  exists db db',
    Open o (Some d) None = Ok db
    /\ activeFile db = Some {| FileID := 4294967295; WriteOffset := 0 |}
    /\ olderFiles db = ∅
    /\ betadb.Put sample.key_a sample.val_1 db = (Ok tt, db')
    /\ activeFile db' = Some {| FileID := 0; WriteOffset := 10 |}
    /\ olderFiles db' !! 4294967295 = Some {| FileID := 4294967295; WriteOffset := 0 |}
    /\ ~ older_below_active db'.
Proof.
  intros o d.
  destruct (Open o (Some d) None) as [db|e] eqn:HO; [|vm_compute in HO; discriminate].
  destruct (betadb.Put sample.key_a sample.val_1 db) as [r db'] eqn:HP.
  exists db, db'.
  assert (Ha : activeFile db = Some {| FileID := 4294967295; WriteOffset := 0 |}).
  { apply (f_equal (fun r => match r with Ok x => activeFile x | Err _ => None end)) in HO.
    rewrite <- HO. vm_compute. reflexivity. }
  assert (Hold : olderFiles db = ∅).
  { apply (f_equal (fun r => match r with Ok x => olderFiles x | Err _ => ∅ end)) in HO.
    rewrite <- HO. vm_compute. reflexivity. }
  assert (Hr : r = Ok tt).
  { apply (f_equal fst) in HP. cbn [fst] in HP. rewrite <- HP.
    apply (f_equal (fun r => match r with
                             | Ok x => (betadb.Put sample.key_a sample.val_1 x).1
                             | Err e => Err e end)) in HO.
    rewrite <- HO. vm_compute. reflexivity. }
  assert (Ha' : activeFile db' = Some {| FileID := 0; WriteOffset := 10 |}).
  { apply (f_equal snd) in HP. cbn [snd] in HP. rewrite <- HP.
    apply (f_equal (fun r => match r with
                             | Ok x => activeFile (betadb.Put sample.key_a sample.val_1 x).2
                             | Err e => None end)) in HO.
    rewrite <- HO. vm_compute. reflexivity. }
  assert (Hold' : olderFiles db' !! 4294967295
                  = Some {| FileID := 4294967295; WriteOffset := 0 |}).
  { apply (f_equal snd) in HP. cbn [snd] in HP. rewrite <- HP.
    apply (f_equal (fun r => match r with
                             | Ok x => olderFiles (betadb.Put sample.key_a sample.val_1 x).2
                                         !! 4294967295
                             | Err e => None end)) in HO.
    rewrite <- HO. vm_compute. reflexivity. }
  subst r. repeat (split; [first [reflexivity | assumption]|]).
  unfold older_below_active. rewrite Ha'. intros H.
  specialize (H _ _ Hold'). cbn in H. lia.
Qed.

(** *** Merge leaves what a reader sees alone *)

(** The file that [getValueByPosition] picks for a file id that names an
    open file has that id. *)
Lemma resolves_select (db : Database) (fid : Z) :
  resolves db fid ->
  exists af df,
    activeFile db = Some af
    /\ (if FileID af =? fid then Some af else olderFiles db !! fid) = Some df
    /\ FileID df = fid.
Proof.
  intros (af & Ha & Hr). exists af.
  destruct (Z.eqb_spec (FileID af) fid) as [E|Hne].
  - exists af. auto.
  - destruct Hr as [E|(df & Hl & Hid)]; [contradiction|]. exists df. auto.
Qed.

Lemma getValueByPosition_same_files (db db' : Database) (pos : data.LogRecordPos) :
  resolves db (data.Fid pos) -> resolves db' (data.Fid pos) ->
  file_contents (dir db') (data.Fid pos) = file_contents (dir db) (data.Fid pos) ->
  getValueByPosition db' pos = getValueByPosition db pos.
Proof.
  intros Hr Hr' Hf.
  destruct (resolves_select db _ Hr) as (af & df & Ha & Hs & Hid).
  destruct (resolves_select db' _ Hr') as (af' & df' & Ha' & Hs' & Hid').
  unfold getValueByPosition. rewrite Ha, Ha', Hs, Hs', Hid, Hid', Hf. reflexivity.
Qed.

Lemma Merge_files (env : MergeEnv) (db : Database) (fid : Z) :
  file_contents (dir (Merge env db).2) fid = file_contents (dir db) fid.
Proof.
  destruct (Merge_state env db) as [->|(af & md & Ha & ->)]; [reflexivity|].
  change (dir (set_mergeDir md (rotateActiveFile af db))) with (dir (rotateActiveFile af db)).
  apply rotateActiveFile_files.
Qed.

Lemma Merge_reads (env : MergeEnv) (db : Database) :
  index_resolves db ->
  index_ (Merge env db).2 = index_ db
  /\ index_resolves (Merge env db).2
  /\ (forall k, Get (Merge env db).2 k = Get db k)
  /\ ListKeys (Merge env db).2 = ListKeys db.
Proof.
  intros Hi. destruct (Merge_frame env db) as [Hidx [_ Hres]].
  assert (Hi' : index_resolves (Merge env db).2).
  { intros k pos Hl. rewrite Hidx in Hl. apply Hres. now apply (Hi k). }
  split; [exact Hidx|]. split; [exact Hi'|]. split.
  - intros k. unfold Get. case_bool_decide; [reflexivity|].
    rewrite Hidx. unfold index.Get.
    destruct (index_ db !! k) as [pos|] eqn:Hl; [|reflexivity].
    apply getValueByPosition_same_files.
    + now apply (Hi k).
    + apply Hres. now apply (Hi k).
    + apply Merge_files.
  - unfold ListKeys. now rewrite Hidx.
Qed.

Lemma Merges_read (envs : list MergeEnv) :
  forall db, index_resolves db ->
    index_resolves (exec_all (OpMerge <$> envs) db)
    /\ (forall k, Get (exec_all (OpMerge <$> envs) db) k = Get db k)
    /\ ListKeys (exec_all (OpMerge <$> envs) db) = ListKeys db.
Proof.
  induction envs as [|env envs IH]; intros db Hi.
  - cbn. auto.
  - cbn [fmap list_fmap exec_all fold_left exec].
    fold (exec_all (OpMerge <$> envs) (Merge env db).2).
    destruct (Merge_reads env db Hi) as (_ & Hi1 & Hg1 & Hk1).
    destruct (IH _ Hi1) as (Hi2 & Hg2 & Hk2).
    split; [exact Hi2|]. split.
    + intros k. now rewrite Hg2.
    + now rewrite Hk2.
Qed.

(** C8: in an engine whose key directory names open files only, a merge
    after a merge changes neither the value that [Get] returns for any key
    nor the list of keys, and after any number of merges both are what they
    were before the first. *)
Theorem Merge_idempotent (db : Database) :
  index_resolves db ->
  (forall env1 env2 k,
      Get (Merge env2 (Merge env1 db).2).2 k = Get (Merge env1 db).2 k)
  /\ (forall env1 env2,
      ListKeys (Merge env2 (Merge env1 db).2).2 = ListKeys (Merge env1 db).2)
  /\ (forall envs k, Get (exec_all (OpMerge <$> envs) db) k = Get db k)
  /\ (forall envs, ListKeys (exec_all (OpMerge <$> envs) db) = ListKeys db).
Proof.
  intros Hi. repeat split.
  - intros env1 env2 k.
    destruct (Merge_reads env1 db Hi) as (_ & Hi1 & _).
    now destruct (Merge_reads env2 _ Hi1) as (_ & _ & Hg & _).
  - intros env1 env2.
    destruct (Merge_reads env1 db Hi) as (_ & Hi1 & _).
    now destruct (Merge_reads env2 _ Hi1) as (_ & _ & _ & Hk).
  - intros envs k. now destruct (Merges_read envs db Hi) as (_ & Hg & _).
  - intros envs. now destruct (Merges_read envs db Hi) as (_ & _ & Hk).
Qed.

Lemma Merge_idempotent_witness :
  let db :=
    exec_all [OpPut sample.key_a sample.val_1; OpPut sample.key_b sample.val_2;
              OpDelete sample.key_a]
      (sample.empty_db (sample.options_of BTree 64)) in
  index_resolves db
  /\ (forall env1 env2 k,
        Get (Merge env2 (Merge env1 db).2).2 k = Get (Merge env1 db).2 k)
  /\ (forall env1 env2,
        ListKeys (Merge env2 (Merge env1 db).2).2 = ListKeys (Merge env1 db).2)
  /\ (forall envs k, Get (exec_all (OpMerge <$> envs) db) k = Get db k)
  /\ (forall envs, ListKeys (exec_all (OpMerge <$> envs) db) = ListKeys db).
Proof.
  intros db.
  assert (Hi : index_resolves db).
  { assert (Hidx : index_ db
                   = {[ sample.key_b := {| data.Fid := 0; data.Offset := 10; data.Size := 10 |} ]})
      by (vm_compute; reflexivity).
    intros k pos Hl. rewrite Hidx in Hl.
    apply lookup_singleton_Some in Hl as [_ <-].
    exists {| FileID := 0; WriteOffset := 29 |}. split; [vm_compute; reflexivity|].
    left. reflexivity. }
  split; [exact Hi|]. exact (Merge_idempotent db Hi).
Defined.

(** *** Close and open again, with a merge in between *)

(** With the in-memory index the scenario of the next lemma recovers what
    was there: the value of the key, and the keys. *)
Lemma reopen_after_merge_BTree :
  (db0 ← Open (sample.options_of BTree 64) None None;
   db ← run [OpPut sample.key_a sample.val_1; OpPut sample.key_b sample.val_2;
             OpDelete sample.key_a; OpMerge sample.env] db0;
   db' ← sample.reopen db;
   Ok (Get db sample.key_b, ListKeys db, Get db' sample.key_b, ListKeys db'))
  = Ok (Ok sample.val_2, [sample.key_b], Ok sample.val_2, [sample.key_b]).
Proof. vm_compute. reflexivity. Qed.

(** C2 fails with the persistent index: after two writes, a delete and a
    merge, the key that [Get] finds before the engine is closed reads as
    [io.EOF] once the engine is opened again. The index kept the position
    of before the merge, and the file of that id now is the merged one. *)
Lemma reopen_after_merge_BPlusTree :
  (db0 ← Open (sample.options_of BPlusTree 64) None None;
   db ← run [OpPut sample.key_a sample.val_1; OpPut sample.key_b sample.val_2;
             OpDelete sample.key_a; OpMerge sample.env] db0;
   db' ← sample.reopen db;
   Ok (Get db sample.key_b, ListKeys db, Get db' sample.key_b, ListKeys db'))
  = Ok (Ok sample.val_2, [sample.key_b], Err EOF, [sample.key_b]).
Proof. vm_compute. reflexivity. Qed.

(** Without the merge the persistent index recovers the key. *)
Lemma reopen_BPlusTree :
  (db0 ← Open (sample.options_of BPlusTree 64) None None;
   db ← run [OpPut sample.key_a sample.val_1; OpPut sample.key_b sample.val_2;
             OpDelete sample.key_a] db0;
   db' ← sample.reopen db;
   Ok (Get db sample.key_b, ListKeys db, Get db' sample.key_b, ListKeys db'))
  = Ok (Ok sample.val_2, [sample.key_b], Ok sample.val_2, [sample.key_b]).
Proof. vm_compute. reflexivity. Qed.

(** Opened a second time after the merge the key is gone: the index file
    of the merge directory, which holds no key, took the place of the
    engine's. *)
Lemma reopen_twice_after_merge_BPlusTree :
  (db0 ← Open (sample.options_of BPlusTree 64) None None;
   db ← run [OpPut sample.key_a sample.val_1; OpPut sample.key_b sample.val_2;
             OpDelete sample.key_a; OpMerge sample.env] db0;
   db' ← sample.reopen db;
   db'' ← sample.reopen db';
   Ok (Get db'' sample.key_b, ListKeys db''))
  = Ok (Err ErrKeyNotFound, []).
Proof. vm_compute. reflexivity. Qed.

(** C4 fails in the same state: the entry of the key directory for the key
    names offset 10 of file 0, and no record reads back from there. *)
Lemma index_entry_dangles_after_merge_BPlusTree :
  exists db',
    (db0 ← Open (sample.options_of BPlusTree 64) None None;
     db ← run [OpPut sample.key_a sample.val_1; OpPut sample.key_b sample.val_2;
               OpDelete sample.key_a; OpMerge sample.env] db0;
     sample.reopen db) = Ok db'
    /\ index_ db' !! sample.key_b
       = Some {| data.Fid := 0; data.Offset := 10; data.Size := 10 |}
    /\ file_contents (dir db') 0
       = [x4d; x97; x57; x71; x00; x04; x02; x00; x62; x32]
    /\ ~ index_refers_to_live_records db'.
Proof.
  match goal with |- exists db', ?r = Ok db' /\ _ => destruct r as [db'|e] eqn:HR end.
  2:{ vm_compute in HR. discriminate. }
  exists db'. split; [reflexivity|].
  assert (Hi : index_ db' !! sample.key_b
               = Some {| data.Fid := 0; data.Offset := 10; data.Size := 10 |}).
  { apply (f_equal (fun r => match r with
                             | Ok x => index_ x !! sample.key_b
                             | Err _ => None end)) in HR.
    rewrite <- HR. vm_compute. reflexivity. }
  assert (Hf : file_contents (dir db') 0
               = [x4d; x97; x57; x71; x00; x04; x02; x00; x62; x32]).
  { apply (f_equal (fun r => match r with
                             | Ok x => file_contents (dir x) 0
                             | Err _ => [] end)) in HR.
    rewrite <- HR. vm_compute. reflexivity. }
  assert (Hg : getValueByPosition db' {| data.Fid := 0; data.Offset := 10; data.Size := 10 |}
               = Err EOF).
  { apply (f_equal (fun r => match r with
                             | Ok x => getValueByPosition x
                                         {| data.Fid := 0; data.Offset := 10; data.Size := 10 |}
                             | Err e => Err e end)) in HR.
    rewrite <- HR. vm_compute. reflexivity. }
  split; [exact Hi|]. split; [exact Hf|].
  intros H. destruct (H _ _ Hi) as [v Hv]. rewrite Hg in Hv. discriminate.
Qed.

(** With the in-memory index the same run leaves the entry on the record
    of the merged file. *)
Lemma index_entry_live_after_merge_BTree :
  exists db',
    (db0 ← Open (sample.options_of BTree 64) None None;
     db ← run [OpPut sample.key_a sample.val_1; OpPut sample.key_b sample.val_2;
               OpDelete sample.key_a; OpMerge sample.env] db0;
     sample.reopen db) = Ok db'
    /\ index_ db' = {[ sample.key_b := {| data.Fid := 0; data.Offset := 0; data.Size := 10 |} ]}
    /\ index_refers_to_live_records db'.
Proof.
  match goal with |- exists db', ?r = Ok db' /\ _ => destruct r as [db'|e] eqn:HR end.
  2:{ vm_compute in HR. discriminate. }
  exists db'. split; [reflexivity|].
  assert (Hi : index_ db'
               = {[ sample.key_b := {| data.Fid := 0; data.Offset := 0; data.Size := 10 |} ]}).
  { apply (f_equal (fun r => match r with Ok x => index_ x | Err _ => ∅ end)) in HR.
    rewrite <- HR. vm_compute. reflexivity. }
  assert (Hg : getValueByPosition db' {| data.Fid := 0; data.Offset := 0; data.Size := 10 |}
               = Ok sample.val_2).
  { apply (f_equal (fun r => match r with
                             | Ok x => getValueByPosition x
                                         {| data.Fid := 0; data.Offset := 0; data.Size := 10 |}
                             | Err e => Err e end)) in HR.
    rewrite <- HR. vm_compute. reflexivity. }
  split; [exact Hi|].
  intros k pos Hl. rewrite Hi in Hl. apply lookup_singleton_Some in Hl as [_ <-]. eauto.
Qed.

(** *** The order of keys *)

Lemma Compare_refl (a : list byte) : index.Compare a a = Eq.
Proof. induction a as [|x a IH]; cbn; [reflexivity|]. now rewrite Z.compare_refl. Qed.

Lemma Compare_Eq (a b : list byte) : index.Compare a b = Eq <-> a = b.
Proof.
  split; [|intros ->; apply Compare_refl].
  revert b. induction a as [|x a IH]; intros [|y b]; cbn; try discriminate; [reflexivity|].
  destruct (byte_to_Z x ?= byte_to_Z y) eqn:E; try discriminate.
  apply Z.compare_eq, byte_to_Z_inj in E. intros H. f_equal; [exact E|now apply IH].
Qed.

Lemma Compare_antisym (a b : list byte) :
  index.Compare b a = CompOpp (index.Compare a b).
Proof.
  revert b. induction a as [|x a IH]; intros [|y b]; cbn; try reflexivity.
  rewrite (Z.compare_antisym (byte_to_Z x) (byte_to_Z y)).
  destruct (byte_to_Z x ?= byte_to_Z y); cbn; [apply IH|reflexivity|reflexivity].
Qed.

Lemma Compare_Lt_trans (a b c : list byte) :
  index.Compare a b = Lt -> index.Compare b c = Lt -> index.Compare a c = Lt.
Proof.
  revert b c. induction a as [|x a IH]; intros [|y b] [|z c]; cbn; try discriminate;
    try reflexivity.
  destruct (Z.compare_spec (byte_to_Z x) (byte_to_Z y)) as [E1|L1|G1]; try discriminate;
    destruct (Z.compare_spec (byte_to_Z y) (byte_to_Z z)) as [E2|L2|G2]; try discriminate;
    intros H1 H2.
  - rewrite E1, E2, Z.compare_refl. now apply (IH b).
  - rewrite E1. now apply Z.compare_lt_iff in L2 as ->.
  - rewrite <- E2. now apply Z.compare_lt_iff in L1 as ->.
  - assert (L : byte_to_Z x < byte_to_Z z) by lia. now apply Z.compare_lt_iff in L as ->.
Qed.

Lemma Compare_Gt_Lt (a b : list byte) : index.Compare a b = Gt <-> index.Compare b a = Lt.
Proof. rewrite (Compare_antisym a b). destruct (index.Compare a b); cbn; split; congruence. Qed.

Lemma item_le_spec (i rhs : index.Item) :
  index.item_le i rhs <-> index.Compare (index.key i) (index.key rhs) <> Gt.
Proof.
  unfold index.item_le, index.Less. rewrite Compare_Gt_Lt.
  destruct (index.Compare (index.key rhs) (index.key i)); split; congruence.
Qed.

#[local] Instance item_le_total : Total index.item_le.
Proof.
  intros i j. rewrite !item_le_spec, (Compare_antisym (index.key i) (index.key j)).
  destruct (index.Compare (index.key i) (index.key j)); cbn; [left|left|right]; congruence.
Qed.

#[local] Instance item_le_trans : Transitive index.item_le.
Proof.
  intros i j k. rewrite !item_le_spec. intros H1 H2 H3.
  apply Compare_Gt_Lt in H3.
  destruct (index.Compare (index.key i) (index.key j)) eqn:E1; [| |contradiction].
  - apply Compare_Eq in E1. rewrite E1 in H3. apply Compare_Gt_Lt in H3. contradiction.
  - pose proof (Compare_Lt_trans _ _ _ H3 E1) as H. apply Compare_Gt_Lt in H. contradiction.
Qed.

(** *** The snapshot of the index *)

Lemma Ascend_keys (idx : index.Indexer) :
  index.key <$> index.Ascend idx ≡ₚ (map_to_list idx).*1.
Proof.
  unfold index.Ascend. rewrite merge_sort_Permutation, <- list_fmap_compose.
  reflexivity.
Qed.

Lemma Ascend_elem (idx : index.Indexer) (k : list byte) :
  k ∈ index.key <$> index.Ascend idx <-> exists pos, idx !! k = Some pos.
Proof.
  rewrite Ascend_keys, list_elem_of_fmap. split.
  - intros ([k' p] & -> & Hin). apply elem_of_map_to_list in Hin. eauto.
  - intros [p Hp]. exists (k, p). split; [reflexivity|]. now apply elem_of_map_to_list.
Qed.

Lemma Ascend_NoDup (idx : index.Indexer) : NoDup (index.key <$> index.Ascend idx).
Proof. rewrite Ascend_keys. apply NoDup_fst_map_to_list. Qed.

Lemma sorted_keys_strict (l : list index.Item) :
  StronglySorted index.item_le l -> NoDup (index.key <$> l) ->
  StronglySorted (fun a b => index.Compare a b = Lt) (index.key <$> l).
Proof.
  induction 1 as [|x l Hs IH Hall]; intros Hnd; cbn; [constructor|].
  apply NoDup_cons in Hnd as [Hx Hnd]. constructor; [now apply IH|].
  apply Forall_fmap, Forall_forall. intros y Hy. cbn.
  rewrite Forall_forall in Hall. specialize (Hall y Hy). apply item_le_spec in Hall.
  destruct (index.Compare (index.key x) (index.key y)) eqn:E; [|reflexivity|contradiction].
  apply Compare_Eq in E. exfalso. apply Hx. rewrite E.
  apply list_elem_of_fmap. eauto.
Qed.

Lemma Ascend_sorted (idx : index.Indexer) :
  StronglySorted (fun a b => index.Compare a b = Lt) (index.key <$> index.Ascend idx).
Proof.
  apply sorted_keys_strict; [|apply Ascend_NoDup].
  unfold index.Ascend. apply StronglySorted_merge_sort; apply _.
Qed.

Lemma StronglySorted_snoc {A : Type} (R : relation A) (l : list A) (x : A) :
  StronglySorted R l -> Forall (fun y => R y x) l -> StronglySorted R (l ++ [x]).
Proof.
  induction 1 as [|y l Hs IH Hall]; intros Hf; cbn.
  - repeat constructor.
  - apply Forall_cons in Hf as [Hy Hf]. constructor; [now apply IH|].
    apply Forall_app. split; [exact Hall|]. now constructor.
Qed.

Lemma StronglySorted_reverse_flip {A : Type} (R : relation A) (l : list A) :
  StronglySorted R l -> StronglySorted (flip R) (reverse l).
Proof.
  induction 1 as [|x l Hs IH Hall]; [constructor|].
  rewrite reverse_cons. apply StronglySorted_snoc; [exact IH|].
  apply Forall_reverse. exact Hall.
Qed.

Lemma StronglySorted_filter_keep {A : Type} (R : relation A) (P : A -> Prop)
    `{forall x, Decision (P x)} (l : list A) :
  StronglySorted R l -> StronglySorted R (filter P l).
Proof.
  induction 1 as [|x l Hs IH Hall]; [constructor|].
  rewrite filter_cons. destruct (decide (P x)); [|exact IH].
  constructor; [exact IH|]. rewrite Forall_forall in *.
  intros y Hy. apply list_elem_of_filter in Hy as [_ Hy]. now apply Hall.
Qed.

Lemma StronglySorted_weaken {A : Type} (R R' : relation A) (l : list A) :
  (forall x y, R x y -> R' x y) -> StronglySorted R l -> StronglySorted R' l.
Proof.
  intros HR. induction 1 as [|x l Hs IH Hall]; constructor; [exact IH|].
  eapply Forall_impl; [exact Hall|]. intros y. apply HR.
Qed.

Lemma snapshot_keys (idx : index.Indexer) (reverse : bool) :
  let ks := index.key <$> index.values (index.Iterator idx reverse) in
  (forall k, k ∈ ks <-> exists pos, idx !! k = Some pos)
  /\ StronglySorted (fun a b => index.Compare a b = if reverse then Gt else Lt) ks
  /\ NoDup ks.
Proof.
  cbn. destruct reverse; cbn [index.values index.Iterator].
  - unfold index.Descend. rewrite fmap_reverse. repeat split.
    + now rewrite elem_of_reverse, Ascend_elem.
    + now rewrite elem_of_reverse, Ascend_elem.
    + eapply StronglySorted_weaken; [|apply StronglySorted_reverse_flip, Ascend_sorted].
      intros a b Hab. now apply Compare_Gt_Lt.
    + rewrite reverse_Permutation. apply Ascend_NoDup.
  - repeat split; try now rewrite Ascend_elem.
    + apply Ascend_sorted.
    + apply Ascend_NoDup.
Qed.

(** *** The engine iterator *)

Lemma has_prefix_spec (p k : list byte) :
  has_prefix p k = true <-> exists rest, k = p ++ rest.
Proof.
  unfold has_prefix, slice_to, blen. rewrite Nat2Z.id, andb_true_iff, bool_decide_eq_true.
  rewrite Compare_Eq. split.
  - intros [_ Hp]. exists (drop (length p) k). rewrite Hp at 1. now rewrite take_drop.
  - intros [rest ->]. split.
    + apply Z.leb_le. rewrite length_app. lia.
    + now rewrite take_app_length.
Qed.

Section iteration.
Variables (opts : IteratorOptions) (vs : list index.Item) (r : bool).

Abbreviation p := (Prefix opts).
Abbreviation P := (fun k : list byte => blen p = 0 \/ has_prefix p k = true).
Abbreviation at_ i :=
  {| index.currentIndex := i; index.reverse_ := r; index.values := vs |}.

Lemma skip_loop_spec (fuel : nat) :
  blen p <> 0 ->
  forall i : nat, (length vs - i <= fuel)%nat ->
  exists j : nat,
    skip_loop fuel p (at_ i) = at_ j
    /\ filter P (index.key <$> drop j vs) = filter P (index.key <$> drop i vs)
    /\ (length vs - j <= length vs - i)%nat
    /\ forall item, vs !! j = Some item -> has_prefix p (index.key item) = true.
Proof.
  intros Hp. induction fuel as [|fuel IH]; intros i Hi.
  - exists i. cbn. repeat split; [lia|].
    intros item Hl. apply lookup_lt_Some in Hl. lia.
  - cbn [skip_loop index.values index.currentIndex].
    destruct (vs !! i) as [item|] eqn:Hl.
    + destruct (has_prefix p (index.key item)) eqn:Hh.
      * exists i. repeat split; [lia|]. intros item' Hl'. congruence.
      * destruct (IH (S i)) as (j & Hs & Hf & Hlen & Hj).
        { apply lookup_lt_Some in Hl. lia. }
        exists j. split; [exact Hs|]. split; [|split; [lia|exact Hj]].
        rewrite Hf, (drop_S _ _ _ Hl), fmap_cons, filter_cons_False; [reflexivity|].
        intros [H0|H1]; [contradiction|congruence].
    + exists i. repeat split; [lia|]. intros item Hl'. congruence.
Qed.

Lemma iterate_loop_spec (fuel : nat) :
  forall i : nat, (length vs - i < fuel)%nat ->
    (forall item, vs !! i = Some item -> P (index.key item)) ->
    iterate_loop fuel {| indexIter := at_ i; it_options := opts |}
    = filter P (index.key <$> drop i vs).
Proof.
  induction fuel as [|fuel IH]; intros i Hi Hready; [lia|].
  cbn [iterate_loop]. unfold it_Valid, index.Valid, it_Key, index.Key.
  cbn [indexIter index.values index.currentIndex].
  case_bool_decide as Hv.
  - destruct (lookup_lt_is_Some_2 vs i Hv) as [item Hl]. rewrite Hl.
    rewrite (drop_S _ _ _ Hl), fmap_cons, filter_cons_True by now apply Hready.
    f_equal. unfold it_Next, skipToNext. cbn [indexIter it_options index.Next
      index.values index.currentIndex index.reverse_].
    destruct (Z.eqb_spec (blen p) 0) as [H0|H0].
    + change (index.Next (at_ i)) with (at_ (S i)).
  apply IH; [lia|]. intros item' _. now left.
    + change (index.Next (at_ i)) with (at_ (S i)).
  destruct (skip_loop_spec (length vs) H0 (S i)) as (j & -> & Hf & Hlen & Hj); [lia|].
      rewrite <- Hf. apply IH; [lia|]. intros item' Hl'. right. now apply Hj.
  - rewrite drop_ge by lia. reflexivity.
Qed.

Lemma iterate_spec :
  iterate {| indexIter := at_ 0%nat; it_options := opts |}
  = filter P (index.key <$> vs).
Proof.
  unfold iterate, it_Rewind, skipToNext. cbn [indexIter it_options].
  change (index.Rewind (at_ 0%nat)) with (at_ 0%nat). cbn [index.values].
  destruct (Z.eqb_spec (blen p) 0) as [H0|H0].
  - cbn [indexIter index.values].
    apply (iterate_loop_spec (S (length vs)) 0%nat); [lia|].
    intros item _. now left.
  - destruct (skip_loop_spec (length vs) H0 0) as (j & -> & Hf & Hlen & Hj); [lia|].
    cbn [indexIter index.values].
    rewrite (iterate_loop_spec (S (length vs)) j); [exact Hf|lia|].
    intros item Hl. right. now apply Hj.
Qed.

End iteration.

(** C9: the keys that an iterator yields when it is rewound and advanced
    until it is no longer valid are exactly the keys of the key directory
    that start with the prefix of its options (every key when the prefix is
    empty), each once, in ascending byte order, or in descending order when
    [Reverse] is set. *)
Theorem iterate_complete (db : Database) (opts : IteratorOptions) :
  let keys := iterate (NewIterator db opts) in
  (forall k, k ∈ keys
     <-> (exists pos, index_ db !! k = Some pos) /\ exists rest, k = Prefix opts ++ rest)
  /\ StronglySorted
       (fun a b => index.Compare a b = if Reverse opts then Gt else Lt) keys
  /\ NoDup keys.
Proof.
  intros keys. subst keys. unfold NewIterator.
  change (index.Iterator (index_ db) (Reverse opts))
    with {| index.currentIndex := 0; index.reverse_ := Reverse opts;
            index.values := index.values (index.Iterator (index_ db) (Reverse opts)) |}.
  rewrite iterate_spec.
  destruct (snapshot_keys (index_ db) (Reverse opts)) as (Hel & Hs & Hnd).
  split; [|split].
  - intros k. rewrite list_elem_of_filter, Hel. split.
    + intros [[H0|Hp] Hk]; (split; [exact Hk|]).
      * exists k. destruct (Prefix opts); [reflexivity|]. rewrite blen_cons in H0.
        pose proof (blen_nonneg l). lia.
      * now apply has_prefix_spec.
    + intros [Hk Hp]. split; [|exact Hk]. right. now apply has_prefix_spec.
  - now apply StronglySorted_filter_keep.
  - now apply NoDup_filter.
Qed.

(** The iterator on three keys, with a prefix and in both directions. *)
Example iterate_sample :
  let db :=
    set_index
      (list_to_map
         [(bytes_of_string "ab", {| data.Fid := 0; data.Offset := 0; data.Size := 1 |});
          (bytes_of_string "b", {| data.Fid := 0; data.Offset := 1; data.Size := 1 |});
          (bytes_of_string "aa", {| data.Fid := 0; data.Offset := 2; data.Size := 1 |})])
      (sample.empty_db (sample.options_of BTree 64)) in
  iterate (NewIterator db {| Prefix := bytes_of_string "a"; Reverse := false |})
  = [bytes_of_string "aa"; bytes_of_string "ab"]
  /\ iterate (NewIterator db {| Prefix := bytes_of_string "a"; Reverse := true |})
     = [bytes_of_string "ab"; bytes_of_string "aa"]
  /\ iterate (NewIterator db {| Prefix := []; Reverse := true |})
     = [bytes_of_string "b"; bytes_of_string "ab"; bytes_of_string "aa"].
Proof. vm_compute. repeat split; reflexivity. Qed.

(** *** Replay, record by record *)

Lemma replay_record_entry (fileID offset : Z) (r : data.LogRecord) (size : Z)
    (st : ReplayState) (db : Database) (e : Entry) :
  entry_of fileID offset r size = Ok e ->
  exists st',
    replay_record fileID offset r size st db
    = (Ok st', (replay_entry (transactionRecords st, db) e).2)
    /\ transactionRecords st' = (replay_entry (transactionRecords st, db) e).1.
Proof.
  unfold entry_of, replay_record, replay_entry.
  destruct (parseLogRecordKey (data.Key r)) as [[realKey seqNo]|err]; [|discriminate].
  cbn [mbind result_bind]. intros [= <-].
  unfold entryType, apply_entry, entryKey, entryPos.
  cbn [entrySeqNo entryRecord data.Record_ data.Pos data.Key data.Type_ fst snd].
  destruct (seqNo =? nonTransactionSeqNo); [eexists; split; reflexivity|].
  case_bool_decide; eexists; split; reflexivity.
Qed.

Lemma replay_record_no_entry (fileID offset : Z) (r : data.LogRecord) (size : Z)
    (st : ReplayState) (db : Database) (err : error) :
  entry_of fileID offset r size = Err err ->
  replay_record fileID offset r size st db = (Err err, db).
Proof.
  unfold entry_of, replay_record.
  destruct (parseLogRecordKey (data.Key r)) as [[realKey seqNo]|err']; [discriminate|].
  now intros [= ->].
Qed.

Lemma replay_file_entries (fileID : Z) (contents : list byte) (fuel : nat) :
  forall offset st db offset' st' db',
    replay_file fuel fileID contents offset st db = (Ok (offset', st'), db') ->
    (transactionRecords st', db')
    = fold_left replay_entry (scan_file fuel fileID contents offset)
        (transactionRecords st, db).
Proof.
  induction fuel as [|fuel IH]; intros offset st db offset' st' db'; [discriminate|].
  cbn [replay_file scan_file].
  destruct (data.ReadLogRecord contents offset) as [[r size]|err].
  - destruct (entry_of fileID offset r size) as [e|err] eqn:He.
    + destruct (replay_record_entry _ _ _ _ st db e He) as (st1 & -> & Hst1).
      intros H. apply IH in H. rewrite H, Hst1. cbn [fold_left].
      now destruct (replay_entry (transactionRecords st, db) e).
    + rewrite (replay_record_no_entry _ _ _ _ st db err He). discriminate.
  - destruct err; try discriminate. now intros [= _ <- <-].
Qed.

(** Replay touches the key directory and the reclaim counter only. *)
Lemma updateIndex_frame (k : list byte) (t : data.LogRecordType) (pos : data.LogRecordPos)
    (db : Database) :
  activeFile (updateIndex k t pos db) = activeFile db
  /\ olderFiles (updateIndex k t pos db) = olderFiles db
  /\ dir (updateIndex k t pos db) = dir db.
Proof.
  unfold updateIndex, index.Delete, index.Put, add_reclaim.
  case_bool_decide; destruct (index_ db !! k); repeat split.
Qed.

Lemma flush_transaction_frame (records : list data.TransactionRecord) :
  forall db,
    activeFile (flush_transaction records db) = activeFile db
    /\ olderFiles (flush_transaction records db) = olderFiles db
    /\ dir (flush_transaction records db) = dir db.
Proof.
  unfold flush_transaction.
  induction records as [|r records IH]; intros db; [repeat split|].
  cbn [fold_left]. destruct (IH (updateIndex (data.Key (data.Record_ r))
                                   (data.Type_ (data.Record_ r)) (data.Pos r) db))
    as (-> & -> & ->).
  apply updateIndex_frame.
Qed.

Lemma replay_entry_frame (s : gmap Z (list data.TransactionRecord) * Database) (e : Entry) :
  activeFile (replay_entry s e).2 = activeFile s.2
  /\ olderFiles (replay_entry s e).2 = olderFiles s.2
  /\ dir (replay_entry s e).2 = dir s.2.
Proof.
  unfold replay_entry. destruct (entrySeqNo e =? nonTransactionSeqNo).
  - apply updateIndex_frame.
  - case_bool_decide; [apply flush_transaction_frame|repeat split].
Qed.

Lemma replay_entries_frame (log : list Entry) :
  forall s,
    activeFile (fold_left replay_entry log s).2 = activeFile s.2
    /\ olderFiles (fold_left replay_entry log s).2 = olderFiles s.2
    /\ dir (fold_left replay_entry log s).2 = dir s.2.
Proof.
  induction log as [|e log IH]; intros s; [repeat split|].
  cbn [fold_left]. destruct (IH (replay_entry s e)) as (-> & -> & ->).
  apply replay_entry_frame.
Qed.

Lemma scan_files_ext (db db' : Database) (ids : list Z) (hasMerge : bool) (nonMergeFileID : Z) :
  activeFile db' = activeFile db -> olderFiles db' = olderFiles db -> dir db' = dir db ->
  scan_files db' ids hasMerge nonMergeFileID = scan_files db ids hasMerge nonMergeFileID.
Proof.
  intros Ha Ho Hd. induction ids as [|fid rest IH]; [reflexivity|].
  cbn [scan_files]. now rewrite Ha, Ho, Hd, IH.
Qed.

Lemma set_activeFile_same (db : Database) : set_activeFile (activeFile db) db = db.
Proof. now destruct db. Qed.

Lemma replay_files_entries (hasMerge : bool) (nonMergeFileID : Z) (ids : list Z) :
  forall st db st' db',
    replay_files ids hasMerge nonMergeFileID st db = (Ok st', db') ->
    exists a,
      transactionRecords st'
      = (fold_left replay_entry (scan_files db ids hasMerge nonMergeFileID)
           (transactionRecords st, db)).1
      /\ db'
         = set_activeFile a
             (fold_left replay_entry (scan_files db ids hasMerge nonMergeFileID)
                (transactionRecords st, db)).2
      /\ FileID <$> a = FileID <$> activeFile db.
Proof.
  induction ids as [|fid rest IH]; intros st db st' db'.
  - intros [= <- <-]. exists (activeFile db). cbn. now rewrite set_activeFile_same.
  - cbn [replay_files scan_files].
    destruct (hasMerge && (u32 fid <? nonMergeFileID)); [apply IH|].
    destruct (activeFile db) as [af|] eqn:Ha; [|discriminate].
    destruct (if u32 fid =? FileID af then Some af else olderFiles db !! u32 fid)
      as [df|]; [|discriminate].
    destruct (replay_file _ (u32 fid) _ 0 st db) as [[[offset st1]|err] db1] eqn:Hf;
      [|discriminate].
    apply replay_file_entries in Hf. rewrite fold_left_app, <- Hf.
    destruct (replay_entries_frame
                (scan_file (S (length (file_contents (dir db) (FileID df)))) (u32 fid)
                   (file_contents (dir db) (FileID df)) 0) (transactionRecords st, db))
      as (Ha1 & Ho1 & Hd1).
    rewrite <- Hf in Ha1, Ho1, Hd1. cbn [snd] in Ha1, Ho1, Hd1.
    destruct rest as [|fid' rest'].
    + rewrite Ha1, Ha. intros [= <- <-]. cbn [scan_files fold_left fst snd].
      eexists. split; [reflexivity|]. split; reflexivity.
    + intros H. apply IH in H as (a & H1 & H2 & H3). exists a.
      rewrite (scan_files_ext db db1) in H1, H2 by assumption.
      rewrite Ha1, Ha in H3. now split.
Qed.

(** *** Which records replay applies *)

Lemma has_terminator_cons (seq : Z) (e0 : Entry) (log : list Entry) :
  has_terminator seq (e0 :: log)
  <-> (entrySeqNo e0 = seq /\ entryType e0 = data.LogRecordTxnFinished)
      \/ has_terminator seq log.
Proof.
  unfold has_terminator. split.
  - intros (t & Hin & Hs & Ht). apply elem_of_cons in Hin as [->|Hin]; [now left|].
    right. eauto.
  - intros [[Hs Ht]|(t & Hin & Hs & Ht)].
    + exists e0. split; [left|]; auto.
    + exists t. split; [now right|]. auto.
Qed.

Lemma has_terminator_nil (seq : Z) : ~ has_terminator seq [].
Proof. intros (t & Hin & _). now apply elem_of_nil in Hin. Qed.

Lemma committed_nil (e : Entry) : ~ committed [] e.
Proof. intros (before & after & H & _). now destruct before. Qed.

Lemma committed_cons (e0 : Entry) (log : list Entry) (e : Entry) :
  committed (e0 :: log) e
  <-> (e = e0
       /\ (entrySeqNo e0 = nonTransactionSeqNo
           \/ (entryType e0 <> data.LogRecordTxnFinished
               /\ has_terminator (entrySeqNo e0) log)))
      \/ committed log e.
Proof.
  unfold committed. split.
  - intros (before & after & Hl & H). destruct before as [|x before].
    + injection Hl as <- <-. now left.
    + injection Hl as <- ->. right. eauto.
  - intros [[-> H]|(before & after & -> & H)].
    + exists [], log. now split.
    + exists (e0 :: before), after. now split.
Qed.

Lemma has_terminator_after (seq : Z) (before after : list Entry) (e : Entry) :
  has_terminator seq after -> has_terminator seq (before ++ e :: after).
Proof.
  intros (t & Hin & H). exists t. split; [|exact H].
  apply elem_of_app. right. now right.
Qed.

Lemma flush_as_entries (seq : Z) (records : list data.TransactionRecord) :
  forall db,
    flush_transaction records db = fold_left apply_entry (mkEntry seq <$> records) db.
Proof.
  unfold flush_transaction.
  induction records as [|r records IH]; intros db; [reflexivity|].
  cbn [fold_left fmap list_fmap]. apply IH.
Qed.

Lemma elem_of_entries (seq : Z) (records : list data.TransactionRecord) (e : Entry) :
  e ∈ mkEntry seq <$> records <-> entrySeqNo e = seq /\ entryRecord e ∈ records.
Proof.
  rewrite list_elem_of_fmap. split.
  - intros (r & -> & Hr). now split.
  - intros [<- Hr]. exists (entryRecord e). split; [now destruct e|exact Hr].
Qed.

Lemma buffered_delete (txns : gmap Z (list data.TransactionRecord)) (seq : Z) (e : Entry) :
  buffered (delete seq txns) e <-> buffered txns e /\ entrySeqNo e <> seq.
Proof.
  unfold buffered. destruct (decide (entrySeqNo e = seq)) as [->|Hne].
  - rewrite lookup_delete_eq. cbn. rewrite elem_of_nil. tauto.
  - rewrite lookup_delete_ne by congruence. tauto.
Qed.

Lemma buffered_insert (txns : gmap Z (list data.TransactionRecord)) (e0 e : Entry) :
  entrySeqNo e0 <> nonTransactionSeqNo ->
  buffered
    (<[entrySeqNo e0 := default [] (txns !! entrySeqNo e0) ++ [entryRecord e0]]> txns) e
  <-> buffered txns e \/ e = e0.
Proof.
  intros H0. unfold buffered. destruct (decide (entrySeqNo e = entrySeqNo e0)) as [E|Hne].
  - rewrite E, lookup_insert_eq. cbn [from_option id]. rewrite elem_of_app, list_elem_of_singleton.
    split.
    + intros [_ [H|H]]; [left; now split|right]. destruct e, e0. cbn in *. congruence.
    + intros [[_ H]| ->]; (split; [exact H0|]); [now left|now right].
  - rewrite lookup_insert_ne by congruence. split.
    + intros H. now left.
    + intros [H| ->]; [exact H|contradiction].
Qed.

(** What the replay of a log applies to the engine, from any buffer of
    open transactions: the records the buffer holds whose terminator the
    log brings, and the committed records of the log. *)
Lemma replay_entries_applied (log : list Entry) :
  forall txns db,
    exists applied,
      (fold_left replay_entry log (txns, db)).2 = fold_left apply_entry applied db
      /\ forall e, e ∈ applied
           <-> (buffered txns e /\ has_terminator (entrySeqNo e) log) \/ committed log e.
Proof.
  induction log as [|e0 log IH]; intros txns db.
  - exists []. split; [reflexivity|]. intros e. rewrite elem_of_nil.
    pose proof (has_terminator_nil (entrySeqNo e)). pose proof (committed_nil e). tauto.
  - cbn [fold_left]. unfold replay_entry at 2. cbn [fst snd].
    destruct (Z.eqb_spec (entrySeqNo e0) nonTransactionSeqNo) as [E0|N0].
    + destruct (IH txns (apply_entry db e0)) as (applied & Hfold & Hin).
      exists (e0 :: applied). split; [exact Hfold|].
      intros e. rewrite elem_of_cons, Hin, has_terminator_cons, committed_cons.
      unfold buffered. split.
      * intros [->|[[[Hb1 Hb2] Ht]|Hc]]; [right; left; auto| |tauto]. left. tauto.
      * intros [[[Hb1 Hb2] [[Hs _]|Ht]]|[[-> _]|Hc]]; [congruence| | |]; tauto.
    + case_bool_decide as Hfin.
      * destruct (IH (delete (entrySeqNo e0) txns)
                    (flush_transaction (default [] (txns !! entrySeqNo e0)) db))
          as (applied & Hfold & Hin).
        exists ((mkEntry (entrySeqNo e0) <$> default [] (txns !! entrySeqNo e0)) ++ applied).
        split; [now rewrite fold_left_app, <- flush_as_entries|].
        intros e. rewrite elem_of_app, Hin, elem_of_entries, buffered_delete,
          has_terminator_cons, committed_cons.
        unfold buffered. split.
        -- intros [[Hs Hr]|[[[[Hb1 Hb2] Hne] Ht]|Hc]]; [|tauto|tauto].
           left. rewrite Hs. split; [split; [exact N0|exact Hr]|left; auto].
        -- intros [[[Hb1 Hb2] [[Hs _]|Ht]]|[[-> [E|[Hn _]]]|Hc]];
             [|destruct (decide (entrySeqNo e = entrySeqNo e0))| | |]; try tauto.
           ++ left. split; [congruence|]. now rewrite <- Hs in Hb2.
           ++ left. split; [assumption|]. congruence.
      * destruct (IH (<[entrySeqNo e0 := default [] (txns !! entrySeqNo e0)
                                          ++ [entryRecord e0]]> txns) db)
          as (applied & Hfold & Hin).
        exists applied. split; [exact Hfold|].
        intros e. rewrite Hin, (buffered_insert txns e0 e N0), has_terminator_cons,
          committed_cons. split.
        -- intros [[[Hb| ->] Ht]|Hc]; [tauto| |tauto]. right. left. auto.
        -- intros [[Hb [[_ Hf]|Ht]]|[[-> [E|[_ Ht]]]|Hc]]; try tauto; try contradiction.
Qed.

Lemma set_fields_same (db : Database) :
  db = set_seqNo (seqNo db) (set_activeFile (activeFile db) db).
Proof. now destruct db. Qed.

(** The engine after [loadIndexFromDataFiles]: the committed records of
    the log applied to the engine of before, with the write cursor of the
    active file and the sequence number set. *)
Lemma loadIndexFromDataFiles_applied (db db' : Database) :
  loadIndexFromDataFiles db = (Ok tt, db') ->
  exists applied a seq,
    db' = set_seqNo seq (set_activeFile a (fold_left apply_entry applied db))
    /\ FileID <$> a = FileID <$> activeFile db
    /\ (forall e, e ∈ applied <-> committed (log_of db) e).
Proof.
  unfold loadIndexFromDataFiles, log_of. intros H.
  destruct (fileIDs db) as [|fid ids] eqn:Hids.
  - injection H as <-. exists [], (activeFile db), (seqNo db).
    split; [apply set_fields_same|]. split; [reflexivity|].
    intros e. split; [intros He; now apply elem_of_nil in He|].
    intros Hc. now apply committed_nil in Hc.
  - assert (Hrun : forall hasMerge nonMergeFileID,
      match replay_files (fid :: ids) hasMerge nonMergeFileID
              {| transactionRecords := ∅; currentSeqNo := nonTransactionSeqNo |} db with
      | (Err e, db0) => (Err e, db0)
      | (Ok st, db0) => (Ok tt, set_seqNo (currentSeqNo st) db0)
      end = (Ok tt, db') ->
      exists applied a seq,
        db' = set_seqNo seq (set_activeFile a (fold_left apply_entry applied db))
        /\ FileID <$> a = FileID <$> activeFile db
        /\ (forall e, e ∈ applied
              <-> committed (scan_files db (fid :: ids) hasMerge nonMergeFileID) e)).
    { intros hasMerge nonMergeFileID Hr.
      destruct (replay_files (fid :: ids) hasMerge nonMergeFileID _ db)
        as [[st|err] db0] eqn:Hf; [|discriminate].
      injection Hr as <-.
      apply replay_files_entries in Hf as (a & _ & -> & Ha).
      destruct (replay_entries_applied
                  (scan_files db (fid :: ids) hasMerge nonMergeFileID) ∅ db)
        as (applied & Hfold & Hin).
      cbn [transactionRecords]. rewrite Hfold.
      exists applied, a, (currentSeqNo st). split; [reflexivity|]. split; [exact Ha|].
      intros e. rewrite Hin. unfold buffered. rewrite lookup_empty. cbn.
      rewrite elem_of_nil. tauto. }
    destruct (mergeFinishedFile (dir db)).
    + destruct (getNonMergeFileID (dir db)) as [nonMergeFileID|err];
        [|discriminate]. cbn [mbind result_bind] in H. now apply Hrun.
    + now apply Hrun.
Qed.




(** The same two records in the order in which [Commit] writes them are
    applied. *)
Lemma record_before_terminator_applied :
  let t := {| data.Key := logRecordKeyWithSeq txnFinKey 1; data.Value := [];
              data.Type_ := data.LogRecordTxnFinished |} in
  let r := {| data.Key := logRecordKeyWithSeq sample.key_a 1; data.Value := sample.val_1;
              data.Type_ := data.LogRecordNormal |} in
  let d := sample.directory_of (sample.bytes_of r ++ sample.bytes_of t) in
  (db ← Open (sample.options_of BTree 64) (Some d) None;
   Ok (Get db sample.key_a, ListKeys db, seqNo db))
  = Ok (Ok sample.val_1, [sample.key_a], 1).
Proof. vm_compute. reflexivity. Qed.

(** A batch whose terminator was never written: its records stay in the
    file and no key of them shows after [Open]; the next batch gets the
    sequence number after theirs. *)
Lemma batch_without_terminator_discarded :
  let r1 := {| data.Key := logRecordKeyWithSeq sample.key_a 1; data.Value := sample.val_1;
               data.Type_ := data.LogRecordNormal |} in
  let r2 := {| data.Key := logRecordKeyWithSeq sample.key_b 1; data.Value := sample.val_2;
               data.Type_ := data.LogRecordNormal |} in
  let d := sample.directory_of (sample.bytes_of r1 ++ sample.bytes_of r2) in
  (db ← Open (sample.options_of BTree 64) (Some d) None;
   Ok (Get db sample.key_a, Get db sample.key_b, ListKeys db, seqNo db,
       length (log_of db)))
  = Ok (Err ErrKeyNotFound, Err ErrKeyNotFound, [], 1, 2%nat).
Proof. vm_compute. reflexivity. Qed.

(** In a log in which no record of a sequence number follows a terminator
    of that number, as [Commit] writes it, a batch record is followed by a
    terminator of its number as soon as the log holds one. *)
Lemma terminator_exists_iff_follows (log before after : list Entry) (e : Entry) :
  (forall l1 t l2, log = l1 ++ t :: l2 ->
     entryType t = data.LogRecordTxnFinished ->
     forall e', e' ∈ l2 -> entrySeqNo e' <> entrySeqNo t) ->
  log = before ++ e :: after ->
  entryType e <> data.LogRecordTxnFinished ->
  has_terminator (entrySeqNo e) after <-> has_terminator (entrySeqNo e) log.
Proof.
  intros Hwf Hl Ht. split.
  - intros H. rewrite Hl. now apply has_terminator_after.
  - intros (t & Hin & Hs & Hfin). rewrite Hl in Hin.
    apply elem_of_app in Hin as [Hin|Hin].
    + apply list_elem_of_split in Hin as (l1 & l2 & ->).
      exfalso. apply (Hwf l1 t (l2 ++ e :: after)) with (e' := e);
        [|exact Hfin| |symmetry; exact Hs].
      * rewrite Hl, <- app_assoc. reflexivity.
      * apply elem_of_app. right. now left.
    + apply elem_of_cons in Hin as [->|Hin]; [contradiction|].
      exists t. auto.
Qed.

(** *** Every entry of the key directory names an open file *)

Lemma appendLogRecord_pos_resolves (r : data.LogRecord) (db db' : Database)
    (pos : data.LogRecordPos) :
  appendLogRecord r db = (Ok pos, db') -> resolves db' (data.Fid pos).
Proof.
  destruct (data.EncodeLogRecord r) as [[enc size]|e] eqn:He.
  - destruct (appendLogRecord_eq r db enc size He) as (af & Haf & ->).
    intros [= <- <-]. cbn [data.Fid].
    destruct (after_write_fields enc size af (before_write size db))
      as (_ & _ & _ & _ & _ & _ & _ & _ & Hact).
    eexists. split; [exact Hact|]. now left.
  - rewrite (appendLogRecord_err r db e He). discriminate.
Qed.

Lemma resolves_same_files (db db' : Database) (fid : Z) :
  activeFile db' = activeFile db -> olderFiles db' = olderFiles db ->
  resolves db fid -> resolves db' fid.
Proof. unfold resolves. now intros -> ->. Qed.

Lemma index_resolves_grows (db db' : Database) :
  index_ db' = index_ db -> grows db db' -> index_resolves db -> index_resolves db'.
Proof.
  intros Hi [_ Hr] H k pos Hl. rewrite Hi in Hl. apply Hr. now apply (H k).
Qed.

Lemma Put_index_resolves (k v : list byte) (db : Database) :
  index_resolves db -> index_resolves (betadb.Put k v db).2.
Proof.
  intros H. unfold betadb.Put. case_bool_decide; [exact H|].
  unfold appendLogRecordWithLock. rewrite bindM_eq.
  set (r := {| data.Key := logRecordKeyWithSeq k nonTransactionSeqNo; data.Value := v;
               data.Type_ := data.LogRecordNormal |}).
  pose proof (appendLogRecord_grows r db) as Hg.
  pose proof (appendLogRecord_index r db) as Hi.
  destruct (appendLogRecord r db) as [[pos|e] db0] eqn:Ha; cbn [snd] in *.
  - destruct (put_step_spec k pos db0) as (db1 & -> & Hi1 & _ & Ha1 & Ho1). cbn [snd].
    intros k' p Hl. rewrite Hi1 in Hl. apply (resolves_same_files db0); [assumption..|].
    destruct (decide (k = k')) as [<-|Hne].
    + rewrite lookup_insert_eq in Hl. injection Hl as <-.
      now apply (appendLogRecord_pos_resolves r db).
    + rewrite lookup_insert_ne in Hl by exact Hne.
      now apply (index_resolves_grows db db0 Hi Hg H k').
  - now apply (index_resolves_grows db db0).
Qed.

Lemma Delete_index_resolves (k : list byte) (db : Database) :
  index_resolves db -> index_resolves (betadb.Delete k db).2.
Proof.
  intros H. unfold betadb.Delete. case_bool_decide; [exact H|].
  unfold bindM, gets, index.Get.
  destruct (index_ db !! k) as [old|] eqn:Hold; [|exact H].
  unfold appendLogRecordWithLock.
  set (r := {| data.Key := logRecordKeyWithSeq k nonTransactionSeqNo; data.Value := [];
               data.Type_ := data.LogRecordDeleted |}).
  pose proof (appendLogRecord_grows r db) as Hg.
  pose proof (appendLogRecord_index r db) as Hi.
  destruct (appendLogRecord r db) as [[pos|e] db0]; cbn [snd] in *.
  - unfold modify, index_Delete, index.Delete. db_simpl. rewrite Hi, Hold. db_simpl.
    unfold modify. cbn [snd].
    destruct (add_reclaim_fields (Some old)
                (set_index (delete k (index_ db))
                   (set_reclaimSize (reclaimSize db0 + data.Size pos) db0)))
      as (Hi' & _ & Ha' & Ho').
    intros k' p Hl. rewrite Hi' in Hl. db_simpl.
    apply (resolves_same_files db0); [assumption..|].
    cbn [index_ set_index] in Hl. apply lookup_delete_Some in Hl as [_ Hl].
    destruct Hg as [_ Hr]. apply Hr. now apply (H k').
  - now apply (index_resolves_grows db db0).
Qed.

Lemma commit_append_positions (seq : Z) (records : list (list byte * data.LogRecord)) :
  forall positions db positions' db',
    (forall k p, positions !! k = Some p -> resolves db (data.Fid p)) ->
    commit_append seq records positions db = (Ok positions', db') ->
    (forall k p, positions' !! k = Some p -> resolves db' (data.Fid p))
    /\ (forall k, is_Some (positions !! k) -> is_Some (positions' !! k))
    /\ (forall kv, kv ∈ records -> is_Some (positions' !! data.Key kv.2)).
Proof.
  induction records as [|[k0 record] rest IH]; intros positions db positions' db' Hp.
  - intros [= <- <-]. split; [exact Hp|]. split; [auto|].
    intros kv Hin. now apply elem_of_nil in Hin.
  - cbn [commit_append]. rewrite bindM_eq.
    set (r := {| data.Key := logRecordKeyWithSeq (data.Key record) seq;
                 data.Value := data.Value record; data.Type_ := data.Type_ record |}).
    pose proof (appendLogRecord_grows r db) as [_ Hr].
    destruct (appendLogRecord r db) as [[pos|e] db0] eqn:Ha; [|discriminate].
    cbn [snd] in Hr. intros H.
    apply IH in H as (H1 & H2 & H3).
    + split; [exact H1|]. split.
      * intros k Hk. apply H2. destruct (decide (data.Key record = k)) as [E|Hne].
        -- rewrite E, lookup_insert_eq. eauto.
        -- now rewrite lookup_insert_ne.
      * intros kv Hin. apply elem_of_cons in Hin as [->|Hin]; [|now apply H3].
        apply H2. cbn [snd]. rewrite lookup_insert_eq. eauto.
    + intros k p Hl. destruct (decide (data.Key record = k)) as [E|Hne].
      * rewrite E, lookup_insert_eq in Hl. injection Hl as <-.
        now apply (appendLogRecord_pos_resolves r db).
      * rewrite lookup_insert_ne in Hl by exact Hne. apply Hr. now apply (Hp k).
Qed.

Lemma commit_update_index_resolves (records : list (list byte * data.LogRecord))
    (positions : gmap (list byte) data.LogRecordPos) :
  forall db,
    (forall k p, positions !! k = Some p -> resolves db (data.Fid p)) ->
    index_resolves db ->
    index_resolves (commit_update records positions db).2.
Proof.
  induction records as [|[k0 record] rest IH]; intros db Hp H; [exact H|].
  cbn [commit_update]. rewrite bindM_eq.
  assert (Hstep : forall r db1,
    (match positions !! data.Key record with
     | None => fail Panic
     | Some pos =>
         if bool_decide (data.Type_ record = data.LogRecordNormal) then
           do oldPos <- index_Put (data.Key record) pos; modify (add_reclaim oldPos)
         else if bool_decide (data.Type_ record = data.LogRecordDeleted) then
           do (oldPos, _) <- index_Delete (data.Key record); modify (add_reclaim oldPos)
         else ret tt
     end) db = (r, db1) ->
    index_resolves db1
    /\ (forall k p, positions !! k = Some p -> resolves db1 (data.Fid p))).
  { intros r db1. destruct (positions !! data.Key record) as [pos|] eqn:Hpos.
    - case_bool_decide.
      + destruct (put_step_spec (data.Key record) pos db)
          as (db2 & -> & Hi & _ & Ha & Ho).
        intros [= _ <-]. split.
        * intros k p Hl. rewrite Hi in Hl.
          apply (resolves_same_files db); [assumption..|].
          destruct (decide (data.Key record = k)) as [<-|Hne].
          -- rewrite lookup_insert_eq in Hl. injection Hl as <-. now apply (Hp _ _ Hpos).
          -- rewrite lookup_insert_ne in Hl by exact Hne. now apply (H k).
        * intros k p Hl. apply (resolves_same_files db); [assumption..|]. now apply (Hp k).
      + case_bool_decide.
        * destruct (delete_step_spec (data.Key record) db)
            as (db2 & -> & Hi & _ & Ha & Ho).
          intros [= _ <-]. split.
          -- intros k p Hl. rewrite Hi in Hl. apply lookup_delete_Some in Hl as [_ Hl].
             apply (resolves_same_files db); [assumption..|]. now apply (H k).
          -- intros k p Hl. apply (resolves_same_files db); [assumption..|].
             now apply (Hp k).
        * intros [= _ <-]. now split.
    - intros [= _ <-]. now split. }
  destruct (_ db) as [[u|e] db1] eqn:E.
  - destruct (Hstep _ _ eq_refl) as [H1 Hp1]. now apply IH.
  - now destruct (Hstep _ _ eq_refl) as [H1 _].
Qed.

(** After the first loop of [Commit] every pending record has a position,
    so the second loop finds one for each. *)
Lemma commit_update_ok (records : list (list byte * data.LogRecord))
    (positions : gmap (list byte) data.LogRecordPos) :
  (forall kv, kv ∈ records -> is_Some (positions !! data.Key kv.2)) ->
  forall db, (commit_update records positions db).1 = Ok tt.
Proof.
  induction records as [|[k0 record] rest IH]; intros Hp db; [reflexivity|].
  cbn [commit_update]. rewrite bindM_eq.
  destruct (Hp (k0, record)) as [pos Hpos]; [left|]. cbn [snd] in Hpos. rewrite Hpos.
  assert (Hrest : forall kv, kv ∈ rest -> is_Some (positions !! data.Key kv.2))
    by (intros kv Hin; apply Hp; now right).
  case_bool_decide.
  - destruct (put_step_spec (data.Key record) pos db) as (db2 & -> & _). now apply IH.
  - case_bool_decide.
    + destruct (delete_step_spec (data.Key record) db) as (db2 & -> & _). now apply IH.
    + now apply IH.
Qed.

Lemma Commit_index_resolves (wb : WriteBatch) (db : Database) :
  index_resolves db -> index_resolves (Commit wb db).2.
Proof.
  intros Hres. unfold Commit.
  case_bool_decide; [exact Hres|]. case_if; [exact Hres|].
  set (seq := u64 (seqNo db + 1)).
  set (db0 := set_seqNo seq db).
  assert (Hres0 : index_resolves db0) by exact Hres.
  unfold bindM.
  destruct (commit_append_frame seq (pendingWrites wb) ∅ db0) as [Hi1 Hg1].
  destruct (commit_append seq (pendingWrites wb) ∅ db0) as [[positions|e] db1] eqn:Hca;
    cbn [snd] in *.
  2:{ now apply (index_resolves_grows db0 db1). }
  apply commit_append_positions in Hca as (Hp & _ & _).
  2:{ intros k p Hl. now rewrite lookup_empty in Hl. }
  set (fin := {| data.Key := logRecordKeyWithSeq txnFinKey seq; data.Value := [];
                 data.Type_ := data.LogRecordTxnFinished |}).
  pose proof (appendLogRecord_grows fin db1) as Hg2.
  pose proof (appendLogRecord_index fin db1) as Hi2.
  assert (Hres1 : index_resolves db1) by now apply (index_resolves_grows db0 db1).
  destruct (appendLogRecord fin db1) as [[pos|e] db2]; cbn [snd] in *.
  2:{ now apply (index_resolves_grows db1 db2). }
  assert (Hres2 : index_resolves db2) by now apply (index_resolves_grows db1 db2).
  unfold modify. cbv beta iota.
  destruct (commit_sync_same (wb_SyncWrites (wb_options wb)) db2) as (His & Hds & Has & Hos).
  match goal with |- context [commit_update _ _ ?d] => set (db2s := d) in * end.
  assert (Hgs : grows db2 db2s) by now apply grows_same_files.
  assert (Hres2s : index_resolves db2s) by now apply (index_resolves_grows db2 db2s).
  pose proof (commit_update_index_resolves (pendingWrites wb) positions db2s) as Hres3.
  destruct (commit_update (pendingWrites wb) positions db2s) as [[u|e] db3];
    cbn [snd] in *; apply Hres3; try assumption;
    intros k p Hl; destruct Hg2 as [_ Hr]; destruct Hgs as [_ Hrs];
    apply Hrs, Hr; now apply (Hp k).
Qed.

Lemma exec_index_resolves (o : op) (db : Database) :
  index_resolves db -> index_resolves (exec o db).
Proof.
  destruct o as [k v|k|wb|env]; cbn [exec]; intros H.
  - now apply Put_index_resolves.
  - now apply Delete_index_resolves.
  - now apply Commit_index_resolves.
  - now destruct (Merge_reads env db H) as (_ & H' & _).
Qed.

(** Whatever is done to an engine opened on a fresh directory, the entries
    of its key directory name open files. *)
Lemma exec_all_index_resolves (os : list op) :
  forall db, index_resolves db -> index_resolves (exec_all os db).
Proof.
  induction os as [|o os IH]; intros db H; [exact H|].
  cbn [exec_all fold_left]. apply IH. now apply exec_index_resolves.
Qed.

Lemma empty_db_index_resolves (o : Options) : index_resolves (sample.empty_db o).
Proof. intros k pos Hl. cbn in Hl. now rewrite lookup_empty in Hl. Qed.

(** Merges after any run on a fresh directory change neither a value nor
    the list of keys. *)
Lemma Merge_invariant_from_fresh (o : Options) (os : list op) (envs : list MergeEnv) :
  let db := exec_all os (sample.empty_db o) in
  (forall k, Get (exec_all (OpMerge <$> envs) db) k = Get db k)
  /\ ListKeys (exec_all (OpMerge <$> envs) db) = ListKeys db.
Proof.
  intros db.
  assert (H : index_resolves db)
    by apply exec_all_index_resolves, empty_db_index_resolves.
  now destruct (Merges_read envs db H) as (_ & Hg & Hk).
Qed.

(** *** Engines that stay sound *)

Lemma sound_empty_db (o : Options) : sound 0 (sample.empty_db o).
Proof.
  split; [apply cursor_ok_empty_db|]. split; [reflexivity|]. intros af. discriminate.
Qed.

Lemma sound_no_wrap (n : Z) (db : Database) : sound n db -> n + 1 < 2 ^ 32 -> no_wrap db.
Proof. intros (_ & _ & Hle) Hn af Ha. specialize (Hle af Ha). lia. Qed.

Lemma sound_mono (n m : Z) (db : Database) : n <= m -> sound n db -> sound m db.
Proof.
  intros Hnm (Hc & Ho & Hle). split; [exact Hc|]. split; [exact Ho|].
  intros af Ha. specialize (Hle af Ha). lia.
Qed.

Lemma sound_same_files (n : Z) (db db' : Database) :
  dir db' = dir db -> activeFile db' = activeFile db -> olderFiles db' = olderFiles db ->
  sound n db -> sound n db'.
Proof.
  unfold sound, cursor_ok, older_below_active, active_id_le.
  now intros -> -> ->.
Qed.

Lemma sound_setActiveDataFile (n : Z) (db : Database) :
  0 <= n -> activeFile db = None -> sound n db -> sound n (setActiveDataFile db).
Proof.
  intros Hn Ha (Hc & Ho & _). unfold sound, cursor_ok, older_below_active, active_id_le in *.
  rewrite Ha in Hc, Ho. rewrite setActiveDataFile_active_eq, Ha. cbn [FileID WriteOffset].
  split; [|split].
  - split; [now rewrite setActiveDataFile_files, Hc|]. split; [lia|].
    intros fid _. now rewrite setActiveDataFile_files.
  - intros fid df Hl. change (olderFiles (setActiveDataFile db)) with (olderFiles db) in Hl.
    rewrite Ho, lookup_empty in Hl. discriminate.
  - intros af [= <-]. exact Hn.
Qed.

Lemma sound_rotateActiveFile (n : Z) (af : DataFile) (db : Database) :
  activeFile db = Some af -> n + 1 < 2 ^ 32 ->
  sound n db -> sound (n + 1) (rotateActiveFile af db).
Proof.
  intros Ha Hn (Hc & Ho & Hle).
  pose proof (Hle af Ha) as Hid.
  unfold cursor_ok in Hc. rewrite Ha in Hc. destruct Hc as (Hoff & H0 & Habove).
  split; [|split].
  - unfold cursor_ok. rewrite (rotateActiveFile_active af db Ha). cbn [FileID WriteOffset].
    rewrite u32_succ by lia. split; [|split; [lia|]].
    + rewrite rotateActiveFile_files, Habove by lia. reflexivity.
    + intros fid Hfid. rewrite rotateActiveFile_files. apply Habove. lia.
  - apply older_below_active_rotate; [exact Ha|exact H0|lia|exact Ho].
  - intros af'. rewrite (rotateActiveFile_active af db Ha). intros [= <-].
    cbn [FileID]. rewrite u32_succ by lia. lia.
Qed.

Lemma sound_before_write (n size : Z) (db : Database) :
  0 <= n -> n + 1 < 2 ^ 32 -> sound n db -> sound (n + 1) (before_write size db).
Proof.
  intros H0 Hn Hs. unfold before_write.
  destruct (activeFile db) as [af|] eqn:Ha.
  - rewrite Ha. case_if.
    + now apply sound_rotateActiveFile.
    + apply (sound_mono n); [lia|exact Hs].
  - pose proof (sound_setActiveDataFile n db H0 Ha Hs) as Hs'.
    assert (Ha0 : activeFile (setActiveDataFile db) = Some {| FileID := 0; WriteOffset := 0 |})
      by (rewrite setActiveDataFile_active_eq; now rewrite Ha).
    rewrite Ha0. case_if.
    + apply (sound_mono 1); [lia|].
      apply (sound_rotateActiveFile 0); [exact Ha0|lia|].
      destruct Hs' as (Hc & Ho & _). split; [exact Hc|]. split; [exact Ho|].
      intros af. rewrite Ha0. intros [= <-]. cbn. lia.
    + apply (sound_mono n); [lia|exact Hs'].
Qed.

Lemma sound_after_write (n : Z) (enc : list byte) (size : Z) (af : DataFile) (db : Database) :
  activeFile db = Some af -> sound n db -> sound n (after_write enc size af db).
Proof.
  intros Ha (Hc & Ho & Hle).
  destruct (after_write_fields enc size af db) as (_ & _ & _ & _ & _ & _ & Hold & Hdir & Hact).
  unfold cursor_ok in Hc. rewrite Ha in Hc. destruct Hc as (Hoff & H0 & Habove).
  split; [|split].
  - unfold cursor_ok. rewrite Hact, Hdir. cbn [FileID WriteOffset]. split; [|split].
    + rewrite file_contents_write_file_eq, blen_app. lia.
    + exact H0.
    + intros fid Hfid. rewrite file_contents_write_file_ne by lia. now apply Habove.
  - now apply older_below_active_after_write.
  - intros af'. rewrite Hact. intros [= <-]. cbn [FileID]. now apply Hle.
Qed.

Lemma sound_appendLogRecord (n : Z) (r : data.LogRecord) (db : Database) :
  0 <= n -> n + 1 < 2 ^ 32 -> sound n db -> sound (n + 1) (appendLogRecord r db).2.
Proof.
  intros H0 Hn Hs.
  destruct (data.EncodeLogRecord r) as [[enc size]|e] eqn:He.
  - destruct (appendLogRecord_eq r db enc size He) as (af & Haf & ->). cbn [snd].
    apply sound_after_write; [exact Haf|]. now apply sound_before_write.
  - rewrite (appendLogRecord_err r db e He). cbn [snd].
    apply (sound_mono n); [lia|].
    destruct (activeFile db) eqn:Ha; [exact Hs|]. now apply sound_setActiveDataFile.
Qed.

Lemma sound_Put (n : Z) (k v : list byte) (db : Database) :
  0 <= n -> n + 1 < 2 ^ 32 -> sound n db -> sound (n + 1) (betadb.Put k v db).2.
Proof.
  intros H0 Hn Hs. unfold betadb.Put.
  case_bool_decide; [apply (sound_mono n); [lia|exact Hs]|].
  unfold appendLogRecordWithLock. rewrite bindM_eq.
  pose proof (sound_appendLogRecord n
    {| data.Key := logRecordKeyWithSeq k nonTransactionSeqNo; data.Value := v;
       data.Type_ := data.LogRecordNormal |} db H0 Hn Hs) as Hs0.
  destruct (appendLogRecord _ db) as [[pos|e] db0]; cbn [snd] in *; [|exact Hs0].
  destruct (put_step_spec k pos db0) as (db1 & -> & _ & Hd & Ha & Ho). cbn [snd].
  now apply (sound_same_files _ db0).
Qed.

Lemma sound_Delete (n : Z) (k : list byte) (db : Database) :
  0 <= n -> n + 1 < 2 ^ 32 -> sound n db -> sound (n + 1) (betadb.Delete k db).2.
Proof.
  intros H0 Hn Hs. unfold betadb.Delete.
  case_bool_decide; [apply (sound_mono n); [lia|exact Hs]|].
  unfold bindM, gets, index.Get.
  destruct (index_ db !! k) as [old|] eqn:Hold; [|apply (sound_mono n); [lia|exact Hs]].
  unfold appendLogRecordWithLock.
  pose proof (sound_appendLogRecord n
    {| data.Key := logRecordKeyWithSeq k nonTransactionSeqNo; data.Value := [];
       data.Type_ := data.LogRecordDeleted |} db H0 Hn Hs) as Hs0.
  pose proof (appendLogRecord_index
    {| data.Key := logRecordKeyWithSeq k nonTransactionSeqNo; data.Value := [];
       data.Type_ := data.LogRecordDeleted |} db) as Hi.
  destruct (appendLogRecord _ db) as [[pos|e] db0]; cbn [snd] in *; [|exact Hs0].
  unfold modify, index_Delete, index.Delete. db_simpl. rewrite Hi, Hold. db_simpl.
  unfold modify. cbn [snd].
  destruct (add_reclaim_fields (Some old)
              (set_index (delete k (index_ db))
                 (set_reclaimSize (reclaimSize db0 + data.Size pos) db0)))
    as (_ & Hd & Ha & Ho).
  now apply (sound_same_files _ db0).
Qed.

Lemma sound_commit_append (seq : Z) (records : list (list byte * data.LogRecord)) :
  forall n positions db,
    0 <= n -> n + Z.of_nat (length records) < 2 ^ 32 -> sound n db ->
    sound (n + Z.of_nat (length records)) (commit_append seq records positions db).2.
Proof.
  induction records as [|[k0 record] rest IH]; intros n positions db H0 Hn Hs.
  - cbn. now rewrite Z.add_0_r.
  - cbn [commit_append]. rewrite bindM_eq. cbn [length] in *.
    pose proof (sound_appendLogRecord n
      {| data.Key := logRecordKeyWithSeq (data.Key record) seq;
         data.Value := data.Value record; data.Type_ := data.Type_ record |} db H0
      ltac:(lia) Hs) as Hs0.
    destruct (appendLogRecord _ db) as [[pos|e] db0]; cbn [snd] in *.
    + replace (n + Z.of_nat (S (length rest))) with (n + 1 + Z.of_nat (length rest)) by lia.
      apply IH; [lia|lia|exact Hs0].
    + apply (sound_mono (n + 1)); [lia|exact Hs0].
Qed.

Lemma commit_update_files (records : list (list byte * data.LogRecord))
    (positions : gmap (list byte) data.LogRecordPos) :
  forall db,
    dir (commit_update records positions db).2 = dir db
    /\ activeFile (commit_update records positions db).2 = activeFile db
    /\ olderFiles (commit_update records positions db).2 = olderFiles db.
Proof.
  induction records as [|[k0 record] rest IH]; intros db; [repeat split|].
  cbn [commit_update]. rewrite bindM_eq.
  destruct (positions !! data.Key record) as [pos|]; [|repeat split].
  case_bool_decide.
  - destruct (put_step_spec (data.Key record) pos db) as (db2 & -> & _ & Hd & Ha & Ho).
    destruct (IH db2) as (-> & -> & ->). auto.
  - case_bool_decide.
    + destruct (delete_step_spec (data.Key record) db) as (db2 & -> & _ & Hd & Ha & Ho).
      destruct (IH db2) as (-> & -> & ->). auto.
    + apply IH.
Qed.

Lemma sound_Commit (n : Z) (wb : WriteBatch) (db : Database) :
  0 <= n -> n + appends (OpCommit wb) < 2 ^ 32 -> sound n db ->
  sound (n + appends (OpCommit wb)) (Commit wb db).2.
Proof.
  cbn [appends]. intros H0 Hn Hs.
  assert (Hmono : sound (n + (Z.of_nat (length (pendingWrites wb)) + 1)) db)
    by (apply (sound_mono n); [lia|exact Hs]).
  unfold Commit. case_bool_decide; [exact Hmono|]. case_if; [exact Hmono|].
  set (seq := u64 (seqNo db + 1)).
  assert (Hs0 : sound n (set_seqNo seq db)) by now apply (sound_same_files n db).
  unfold bindM.
  pose proof (sound_commit_append seq (pendingWrites wb) n ∅ (set_seqNo seq db) H0
                ltac:(lia) Hs0) as Hs1.
  destruct (commit_append seq (pendingWrites wb) ∅ (set_seqNo seq db))
    as [[positions|e] db1]; cbn [snd] in *.
  2:{ apply (sound_mono (n + Z.of_nat (length (pendingWrites wb)))); [lia|exact Hs1]. }
  pose proof (sound_appendLogRecord (n + Z.of_nat (length (pendingWrites wb)))
    {| data.Key := logRecordKeyWithSeq txnFinKey seq; data.Value := [];
       data.Type_ := data.LogRecordTxnFinished |} db1 ltac:(lia) ltac:(lia) Hs1) as Hs2.
  rewrite <- Z.add_assoc in Hs2.
  destruct (appendLogRecord _ db1) as [[pos|e] db2]; cbn [snd] in *; [|exact Hs2].
  unfold modify. cbv beta iota.
  destruct (commit_sync_same (wb_SyncWrites (wb_options wb)) db2) as (His & Hds & Has & Hos).
  match goal with |- context [commit_update _ _ ?d] => set (db2s := d) in * end.
  assert (Hs2s : sound (n + (Z.of_nat (length (pendingWrites wb)) + 1)) db2s)
    by now apply (sound_same_files _ db2).
  destruct (commit_update_files (pendingWrites wb) positions db2s) as (Hd & Ha & Ho).
  destruct (commit_update (pendingWrites wb) positions db2s) as [[u|e] db3];
    cbn [snd] in *; now apply (sound_same_files _ db2s).
Qed.

Lemma sound_Merge (n : Z) (env : MergeEnv) (db : Database) :
  0 <= n -> n + 1 < 2 ^ 32 -> sound n db -> sound (n + 1) (Merge env db).2.
Proof.
  intros H0 Hn Hs. destruct (Merge_state env db) as [->|(af & md & Ha & ->)].
  - apply (sound_mono n); [lia|exact Hs].
  - apply (sound_same_files _ (rotateActiveFile af db)); try reflexivity.
    now apply sound_rotateActiveFile.
Qed.

Lemma appends_pos (o : op) : 0 < appends o.
Proof. destruct o; cbn; lia. Qed.

Lemma total_appends_nonneg (os : list op) : 0 <= total_appends os.
Proof.
  induction os as [|o os IH]; [cbn; lia|].
  change (total_appends (o :: os)) with (appends o + total_appends os).
  pose proof (appends_pos o). lia.
Qed.

Lemma sound_exec (n : Z) (o : op) (db : Database) :
  0 <= n -> n + appends o < 2 ^ 32 -> sound n db -> sound (n + appends o) (exec o db).
Proof.
  destruct o as [k v|k|wb|env]; cbn [exec]; intros H0 Hn Hs.
  - now apply sound_Put.
  - now apply sound_Delete.
  - now apply sound_Commit.
  - now apply sound_Merge.
Qed.

(** An engine stays sound as long as fewer than 2^32 records were appended
    and files opened. *)
Lemma sound_exec_all (os : list op) :
  forall n db,
    0 <= n -> n + total_appends os < 2 ^ 32 -> sound n db ->
    sound (n + total_appends os) (exec_all os db).
Proof.
  induction os as [|o os IH]; intros n db H0 Hn Hs.
  - cbn. now rewrite Z.add_0_r.
  - change (total_appends (o :: os)) with (appends o + total_appends os) in *.
    change (exec_all (o :: os) db) with (exec_all os (exec o db)).
    pose proof (appends_pos o). pose proof (total_appends_nonneg os).
    rewrite Z.add_assoc. apply IH; [lia|lia|]. apply sound_exec; [lia|lia|exact Hs].
Qed.

(** Round trip on any engine that a run on a fresh directory has built. *)
Lemma Put_then_Get_from_fresh (o : Options) (os0 os : list op) (k v : list byte)
    (db1 : Database) :
  total_appends os0 + 1 < 2 ^ 32 ->
  blen k + 1 < 2 ^ 32 -> blen v < 2 ^ 32 ->
  betadb.Put k v (exec_all os0 (sample.empty_db o)) = (Ok tt, db1) ->
  Forall (fun o => ~ touches k o) os ->
  Get (exec_all os db1) k = Ok v.
Proof.
  intros Hn Hkl Hvl HP Hos.
  pose proof (total_appends_nonneg os0) as Hnn.
  pose proof (sound_exec_all os0 0 (sample.empty_db o) ltac:(lia) ltac:(lia)
                (sound_empty_db o)) as Hs.
  cbn [Z.add] in Hs.
  pose proof (sound_no_wrap _ _ Hs Hn) as Hw. destruct Hs as (Hc & _ & _).
  destruct (Put_stored k v _ db1 Hc Hw HP) as (pos & Hi & Hst).
  destruct (Put_ok_inv k v _ db1 HP) as [Hk _].
  destruct (exec_all_frame k os Hos db1) as [Hi' Hg].
  apply (Get_stored _ k v pos Hk Hkl Hvl).
  - now rewrite Hi'.
  - now apply (stored_at_grows db1).
Qed.

(** The active file of such an engine has the largest id. *)
Lemma older_below_active_from_fresh (o : Options) (os : list op) :
  total_appends os < 2 ^ 32 ->
  older_below_active (exec_all os (sample.empty_db o)).
Proof.
  intros Hn. pose proof (total_appends_nonneg os) as Hnn.
  now destruct (sound_exec_all os 0 (sample.empty_db o) ltac:(lia) ltac:(lia)
                  (sound_empty_db o)) as (_ & Ho & _).
Qed.

(** *** Entries of the key directory and stored records *)

Lemma index_stored_live (db : Database) :
  index_stored db -> index_refers_to_live_records db.
Proof.
  intros H k pos Hl. destruct (H k pos Hl) as (r & Hs & Hk & Hv & Ht).
  exists (data.Value r). rewrite (getValueByPosition_stored db pos r Hk Hv Hs).
  now rewrite bool_decide_false by exact Ht.
Qed.

Lemma index_stored_grows (db db' : Database) :
  index_ db' = index_ db -> grows db db' -> index_stored db -> index_stored db'.
Proof.
  intros Hi Hg H k pos Hl. rewrite Hi in Hl.
  destruct (H k pos Hl) as (r & Hs & Hrest). exists r.
  split; [now apply (stored_at_grows db)|exact Hrest].
Qed.

Lemma stored_at_same_files (db db' : Database) (pos : data.LogRecordPos) (r : data.LogRecord) :
  dir db' = dir db -> activeFile db' = activeFile db -> olderFiles db' = olderFiles db ->
  stored_at db pos r -> stored_at db' pos r.
Proof. intros Hd Ha Ho. apply stored_at_grows. now apply grows_same_files. Qed.

(** [Put] keeps the entries on stored records. *)
Lemma Put_index_stored (k v : list byte) (db : Database) :
  cursor_ok db -> no_wrap db ->
  blen k + 1 < 2 ^ 32 -> blen v < 2 ^ 32 ->
  index_stored db -> index_stored (betadb.Put k v db).2.
Proof.
  intros Hc Hw Hkl Hvl H. unfold betadb.Put. case_bool_decide; [exact H|].
  unfold appendLogRecordWithLock. rewrite bindM_eq.
  set (r := {| data.Key := logRecordKeyWithSeq k nonTransactionSeqNo; data.Value := v;
               data.Type_ := data.LogRecordNormal |}).
  pose proof (appendLogRecord_grows r db) as Hg.
  pose proof (appendLogRecord_index r db) as Hi.
  destruct (appendLogRecord r db) as [[pos|e] db0] eqn:Ha; cbn [snd] in *.
  - destruct (put_step_spec k pos db0) as (db1 & -> & Hi1 & Hd1 & Ha1 & Ho1). cbn [snd].
    intros k' p Hl. rewrite Hi1 in Hl.
    destruct (decide (k = k')) as [<-|Hne].
    + rewrite lookup_insert_eq in Hl. injection Hl as <-. exists r.
      split; [apply (stored_at_same_files db0); try assumption;
              now apply (appendLogRecord_stored r db)|].
      subst r. cbn [data.Key data.Value data.Type_].
      rewrite logRecordKeyWithSeq_0, blen_cons. repeat split; [lia|exact Hvl|discriminate].
    + rewrite lookup_insert_ne in Hl by exact Hne.
      destruct (index_stored_grows db db0 Hi Hg H k' p Hl) as (r' & Hs & Hrest).
      exists r'. split; [now apply (stored_at_same_files db0)|exact Hrest].
  - now apply (index_stored_grows db db0).
Qed.

(** [Delete] keeps the entries on stored records. *)
Lemma Delete_index_stored (k : list byte) (db : Database) :
  index_stored db -> index_stored (betadb.Delete k db).2.
Proof.
  intros H. unfold betadb.Delete. case_bool_decide; [exact H|].
  unfold bindM, gets, index.Get.
  destruct (index_ db !! k) as [old|] eqn:Hold; [|exact H].
  unfold appendLogRecordWithLock.
  set (r := {| data.Key := logRecordKeyWithSeq k nonTransactionSeqNo; data.Value := [];
               data.Type_ := data.LogRecordDeleted |}).
  pose proof (appendLogRecord_grows r db) as Hg.
  pose proof (appendLogRecord_index r db) as Hi.
  destruct (appendLogRecord r db) as [[pos|e] db0]; cbn [snd] in *.
  - unfold modify, index_Delete, index.Delete. db_simpl. rewrite Hi, Hold. db_simpl.
    unfold modify. cbn [snd].
    destruct (add_reclaim_fields (Some old)
                (set_index (delete k (index_ db))
                   (set_reclaimSize (reclaimSize db0 + data.Size pos) db0)))
      as (Hi' & Hd' & Ha' & Ho').
    intros k' p Hl. rewrite Hi' in Hl. cbn [index_ set_index] in Hl.
    apply lookup_delete_Some in Hl as [_ Hl].
    destruct (H k' p Hl) as (r' & Hs & Hrest). exists r'.
    split; [|exact Hrest].
    apply (stored_at_same_files db0); [assumption..|]. now apply (stored_at_grows db).
  - now apply (index_stored_grows db db0).
Qed.

Lemma PutUvarint_len (x : Z) : 1 <= blen (binary.PutUvarint x) <= 10.
Proof.
  unfold binary.PutUvarint. apply PutUvarint_loop_len; [|lia].
  unfold u64. pose proof (Z.mod_pos_bound x (2 ^ 64) ltac:(lia)) as H.
  change (2 ^ (7 * 10)) with (2 ^ 70). split; [lia|].
  assert (2 ^ 64 < 2 ^ 70) by (apply Z.pow_lt_mono_r; lia). lia.
Qed.

Lemma commit_append_stored (seq : Z) (records : list (list byte * data.LogRecord)) :
  forall n positions db positions' db',
    0 <= n -> n + Z.of_nat (length records) < 2 ^ 32 -> sound n db ->
    NoDup ((fun kv => data.Key kv.2) <$> records) ->
    commit_append seq records positions db = (Ok positions', db') ->
    (forall k, k ∉ (fun kv => data.Key kv.2) <$> records -> positions' !! k = positions !! k)
    /\ (forall kv, kv ∈ records ->
          exists pos,
            positions' !! data.Key kv.2 = Some pos
            /\ stored_at db' pos
                 {| data.Key := logRecordKeyWithSeq (data.Key kv.2) seq;
                    data.Value := data.Value kv.2; data.Type_ := data.Type_ kv.2 |}).
Proof.
  induction records as [|[k0 record] rest IH];
    intros n positions db positions' db' H0 Hn Hs Hnd.
  - intros [= <- <-]. split; [reflexivity|]. intros kv Hin. now apply elem_of_nil in Hin.
  - rewrite fmap_cons in Hnd. apply NoDup_cons in Hnd as [Hfresh Hnd]. cbn [snd] in Hfresh.
    cbn [commit_append length] in *. rewrite bindM_eq.
    set (r := {| data.Key := logRecordKeyWithSeq (data.Key record) seq;
                 data.Value := data.Value record; data.Type_ := data.Type_ record |}).
    pose proof (sound_appendLogRecord n r db H0 ltac:(lia) Hs) as Hs0.
    destruct (appendLogRecord r db) as [[pos|e] db0] eqn:Ha; [|discriminate].
    cbn [snd] in Hs0. intros Hca.
    assert (Hst : stored_at db0 pos r).
    { apply (appendLogRecord_stored r db); [now destruct Hs| |exact Ha].
      apply (sound_no_wrap n); [exact Hs|lia]. }
    destruct (commit_append_frame seq rest (<[data.Key record := pos]> positions) db0)
      as [_ Hg]. rewrite Hca in Hg. cbn [snd] in Hg.
    apply (IH (n + 1)) in Hca as [Hun Hall]; [|lia|lia|exact Hs0|exact Hnd].
    split.
    + intros k Hk. rewrite fmap_cons in Hk. apply not_elem_of_cons in Hk as [Hne Hk].
      cbn [snd] in Hne. rewrite (Hun k Hk). now apply lookup_insert_ne.
    + intros kv Hin. apply elem_of_cons in Hin as [->|Hin]; [|now apply Hall].
      cbn [snd]. exists pos. split.
      * rewrite (Hun _ Hfresh). apply lookup_insert_eq.
      * now apply (stored_at_grows db0).
Qed.

Lemma commit_update_index_stored (seq : Z) (records : list (list byte * data.LogRecord))
    (positions : gmap (list byte) data.LogRecordPos) :
  forall db,
    (forall kv, kv ∈ records ->
       blen (data.Key kv.2) + 10 < 2 ^ 32 /\ blen (data.Value kv.2) < 2 ^ 32
       /\ exists pos,
            positions !! data.Key kv.2 = Some pos
            /\ stored_at db pos
                 {| data.Key := logRecordKeyWithSeq (data.Key kv.2) seq;
                    data.Value := data.Value kv.2; data.Type_ := data.Type_ kv.2 |}) ->
    index_stored db ->
    index_stored (commit_update records positions db).2.
Proof.
  induction records as [|[k0 record] rest IH]; intros db Hrec H; [exact H|].
  cbn [commit_update]. rewrite bindM_eq.
  destruct (Hrec (k0, record)) as (Hkl & Hvl & pos & Hpos & Hst); [left|].
  cbn [snd] in *. rewrite Hpos.
  assert (Hnext : forall db1,
    dir db1 = dir db -> activeFile db1 = activeFile db -> olderFiles db1 = olderFiles db ->
    index_stored db1 -> index_stored (commit_update rest positions db1).2).
  { intros db1 Hd Ha Ho H1. apply IH; [|exact H1].
    intros kv Hin. destruct (Hrec kv) as (Hk' & Hv' & pos' & Hpos' & Hst'); [now right|].
    split; [exact Hk'|]. split; [exact Hv'|]. exists pos'. split; [exact Hpos'|].
    now apply (stored_at_same_files db). }
  case_bool_decide as Hnormal.
  - destruct (put_step_spec (data.Key record) pos db) as (db2 & -> & Hi & Hd & Ha & Ho).
    apply Hnext; try assumption.
    intros k p Hl. rewrite Hi in Hl.
    destruct (decide (data.Key record = k)) as [E|Hne].
    + rewrite E, lookup_insert_eq in Hl. injection Hl as <-.
      eexists. split; [apply (stored_at_same_files db); eassumption|].
      cbn [data.Key data.Value data.Type_]. unfold logRecordKeyWithSeq.
      rewrite blen_app. pose proof (PutUvarint_len seq).
      repeat split; [lia|exact Hvl|]. rewrite Hnormal. discriminate.
    + rewrite lookup_insert_ne in Hl by exact Hne.
      destruct (H k p Hl) as (r' & Hs' & Hrest). exists r'.
      split; [now apply (stored_at_same_files db)|exact Hrest].
  - case_bool_decide.
    + destruct (delete_step_spec (data.Key record) db) as (db2 & -> & Hi & Hd & Ha & Ho).
      apply Hnext; try assumption.
      intros k p Hl. rewrite Hi in Hl. apply lookup_delete_Some in Hl as [_ Hl].
      destruct (H k p Hl) as (r' & Hs' & Hrest). exists r'.
      split; [now apply (stored_at_same_files db)|exact Hrest].
    + cbn. now apply Hnext.
Qed.

(** [Commit] keeps the entries on stored records: a batch of at most one
    record per key, as the pending map holds them. *)
Lemma Commit_index_stored (n : Z) (wb : WriteBatch) (db : Database) :
  0 <= n -> n + appends (OpCommit wb) < 2 ^ 32 -> sound n db ->
  NoDup ((fun kv => data.Key kv.2) <$> pendingWrites wb) ->
  (forall kv, kv ∈ pendingWrites wb ->
     blen (data.Key kv.2) + 10 < 2 ^ 32 /\ blen (data.Value kv.2) < 2 ^ 32) ->
  index_stored db -> index_stored (Commit wb db).2.
Proof.
  cbn [appends]. intros H0 Hn Hs Hnd Hb H. unfold Commit.
  case_bool_decide; [exact H|]. case_if; [exact H|].
  set (seq := u64 (seqNo db + 1)).
  set (db0 := set_seqNo seq db).
  assert (Hs0 : sound n db0) by now apply (sound_same_files n db).
  assert (Hst0 : index_stored db0).
  { apply (index_stored_grows db); [reflexivity|now apply grows_same_files|exact H]. }
  unfold bindM.
  destruct (commit_append_frame seq (pendingWrites wb) ∅ db0) as [Hi1 Hg1].
  destruct (commit_append seq (pendingWrites wb) ∅ db0) as [[positions|e] db1] eqn:Hca;
    cbn [snd] in *.
  2:{ now apply (index_stored_grows db0 db1). }
  apply (commit_append_stored seq _ n) in Hca as [_ Hall]; [|lia|lia|exact Hs0|exact Hnd].
  set (fin := {| data.Key := logRecordKeyWithSeq txnFinKey seq; data.Value := [];
                 data.Type_ := data.LogRecordTxnFinished |}).
  pose proof (appendLogRecord_grows fin db1) as Hg2.
  pose proof (appendLogRecord_index fin db1) as Hi2.
  assert (Hst1 : index_stored db1) by now apply (index_stored_grows db0 db1).
  destruct (appendLogRecord fin db1) as [[pos|e] db2]; cbn [snd] in *.
  2:{ now apply (index_stored_grows db1 db2). }
  assert (Hst2 : index_stored db2) by now apply (index_stored_grows db1 db2).
  unfold modify. cbv beta iota.
  destruct (commit_sync_same (wb_SyncWrites (wb_options wb)) db2) as (His & Hds & Has & Hos).
  match goal with |- context [commit_update _ _ ?d] => set (db2s := d) in * end.
  assert (Hgs : grows db2 db2s) by now apply grows_same_files.
  assert (Hst2s : index_stored db2s) by now apply (index_stored_grows db2 db2s).
  pose proof (commit_update_index_stored seq (pendingWrites wb) positions db2s) as Hup.
  assert (Hrec : forall kv, kv ∈ pendingWrites wb ->
    blen (data.Key kv.2) + 10 < 2 ^ 32 /\ blen (data.Value kv.2) < 2 ^ 32
    /\ exists pos,
         positions !! data.Key kv.2 = Some pos
         /\ stored_at db2s pos
              {| data.Key := logRecordKeyWithSeq (data.Key kv.2) seq;
                 data.Value := data.Value kv.2; data.Type_ := data.Type_ kv.2 |}).
  { intros kv Hin. destruct (Hb kv Hin) as [Hk Hv]. split; [exact Hk|]. split; [exact Hv|].
    destruct (Hall kv Hin) as (p & Hp & Hst). exists p. split; [exact Hp|].
    apply (stored_at_grows db2); [exact Hgs|]. now apply (stored_at_grows db1). }
  specialize (Hup Hrec Hst2s).
  now destruct (commit_update (pendingWrites wb) positions db2s) as [[u|e] db3].
Qed.

(** *** Replay keeps the entries of the key directory on live records *)

Lemma getValueByPosition_frame (db db' : Database) (pos : data.LogRecordPos) :
  FileID <$> activeFile db' = FileID <$> activeFile db ->
  olderFiles db' = olderFiles db -> dir db' = dir db ->
  getValueByPosition db' pos = getValueByPosition db pos.
Proof.
  intros Ha Ho Hd. unfold getValueByPosition. rewrite Ho, Hd.
  destruct (activeFile db) as [af|], (activeFile db') as [af'|]; try discriminate;
    [|reflexivity].
  injection Ha as Ha. rewrite Ha.
  destruct (FileID af =? data.Fid pos); [|reflexivity]. now rewrite Ha.
Qed.

Lemma scan_file_reads (fileID : Z) (contents : list byte) (fuel : nat) :
  forall offset e,
    e ∈ scan_file fuel fileID contents offset ->
    data.Fid (entryPos e) = fileID
    /\ exists r size,
         data.ReadLogRecord contents (data.Offset (entryPos e)) = Ok (r, size)
         /\ data.Type_ r = entryType e.
Proof.
  induction fuel as [|fuel IH]; intros offset e; cbn [scan_file].
  - intros H. now apply elem_of_nil in H.
  - destruct (data.ReadLogRecord contents offset) as [[r size]|err] eqn:HR.
    2:{ intros H. now apply elem_of_nil in H. }
    unfold entry_of.
    destruct (parseLogRecordKey (data.Key r)) as [[realKey seqNo]|err].
    2:{ intros H. now apply elem_of_nil in H. }
    cbn [mbind result_bind]. intros H. apply elem_of_cons in H as [->|H]; [|now apply IH in H].
    unfold entryPos, entryType. cbn. split; [reflexivity|]. eauto.
Qed.

Lemma scan_files_readable (db : Database) (hasMerge : bool) (nonMergeFileID : Z)
    (ids : list Z) (e : Entry) :
  e ∈ scan_files db ids hasMerge nonMergeFileID -> readable db e.
Proof.
  induction ids as [|fid rest IH]; cbn [scan_files].
  - intros H. now apply elem_of_nil in H.
  - destruct (hasMerge && (u32 fid <? nonMergeFileID)); [exact IH|].
    destruct (activeFile db) as [af|] eqn:Ha; [|intros H; now apply elem_of_nil in H].
    destruct (if u32 fid =? FileID af then Some af else olderFiles db !! u32 fid)
      as [df|] eqn:Hdf; [|intros H; now apply elem_of_nil in H].
    intros H. apply elem_of_app in H as [H|H]; [|now apply IH].
    apply scan_file_reads in H as (Hfid & r & size & HR & Ht).
    destruct (decide (entryType e = data.LogRecordDeleted)) as [Hdel|Hlive]; [now left|].
    right. exists (data.Value r). unfold getValueByPosition.
    rewrite Ha, Hfid, (Z.eqb_sym (FileID af)), Hdf, HR. cbn [mbind result_bind].
    rewrite bool_decide_false by congruence. reflexivity.
Qed.

Lemma updateIndex_live (db : Database) (e : Entry) :
  readable db e -> index_refers_to_live_records db ->
  index_refers_to_live_records (apply_entry db e)
  /\ forall pos, getValueByPosition (apply_entry db e) pos = getValueByPosition db pos.
Proof.
  intros Hr H. unfold apply_entry.
  destruct (updateIndex_frame (entryKey e) (entryType e) (entryPos e) db) as (Ha & Ho & Hd).
  assert (Hget : forall pos,
    getValueByPosition (updateIndex (entryKey e) (entryType e) (entryPos e) db) pos
    = getValueByPosition db pos).
  { intros pos. apply getValueByPosition_frame; [now rewrite Ha|exact Ho|exact Hd]. }
  split; [|exact Hget].
  intros k pos Hl. rewrite Hget. revert Hl.
  unfold updateIndex, index.Delete, index.Put, add_reclaim.
  case_bool_decide as Hdel.
  - destruct (index_ db !! entryKey e) eqn:Hold; cbn.
    + intros Hl. apply lookup_delete_Some in Hl as [_ Hl]. now apply (H k).
    + intros Hl. now apply (H k).
  - assert (Hins : <[entryKey e := entryPos e]> (index_ db) !! k = Some pos ->
                   exists v, getValueByPosition db pos = Ok v).
    { intros Hl. destruct (decide (entryKey e = k)) as [E|Hne].
      - rewrite E, lookup_insert_eq in Hl. injection Hl as <-.
        destruct Hr as [Hr|Hr]; [contradiction|exact Hr].
      - rewrite lookup_insert_ne in Hl by exact Hne. now apply (H k). }
    destruct (index_ db !! entryKey e); cbn; exact Hins.
Qed.

Lemma apply_entries_live (applied : list Entry) :
  forall db,
    (forall e, e ∈ applied -> readable db e) ->
    index_refers_to_live_records db ->
    index_refers_to_live_records (fold_left apply_entry applied db)
    /\ forall pos,
         getValueByPosition (fold_left apply_entry applied db) pos
         = getValueByPosition db pos.
Proof.
  induction applied as [|e applied IH]; intros db Hall H; [now split|].
  cbn [fold_left].
  destruct (updateIndex_live db e) as [H1 Hget]; [apply Hall; now left|exact H|].
  destruct (IH (apply_entry db e)) as [H2 Hget2]; [|exact H1|].
  - intros e' Hin. destruct (Hall e') as [Hd|[v Hv]]; [now right|now left|].
    right. exists v. now rewrite Hget.
  - split; [exact H2|]. intros pos. now rewrite Hget2.
Qed.

(** Recovery replay keeps every entry of the key directory on a record
    that reads back and is not a tombstone. *)
Lemma loadIndexFromDataFiles_live (db db' : Database) :
  loadIndexFromDataFiles db = (Ok tt, db') ->
  index_refers_to_live_records db -> index_refers_to_live_records db'.
Proof.
  intros H Hlive.
  apply loadIndexFromDataFiles_applied in H as (applied & a & seq & -> & Ha & Hin).
  destruct (apply_entries_live applied db) as [H1 Hget]; [|exact Hlive|].
  - intros e He. apply Hin in He as (before & after & Hl & _).
    assert (Hmem : e ∈ log_of db) by (rewrite Hl; apply elem_of_app; right; now left).
    revert Hmem. unfold log_of. destruct (fileIDs db); [intros Hm; now apply elem_of_nil in Hm|].
    destruct (mergeFinishedFile (dir db)).
    + destruct (getNonMergeFileID (dir db)); [apply scan_files_readable|].
      intros Hm. now apply elem_of_nil in Hm.
    + apply scan_files_readable.
  - assert (Hframe : forall d, activeFile (fold_left apply_entry applied d) = activeFile d).
    { clear. induction applied as [|e applied IH]; intros d; [reflexivity|].
      cbn [fold_left]. rewrite IH. apply updateIndex_frame. }
    intros k pos Hl. cbn [index_ set_seqNo set_activeFile] in Hl.
    destruct (H1 k pos Hl) as [v Hv]. exists v. rewrite <- Hv.
    apply getValueByPosition_frame; cbn [activeFile olderFiles dir set_seqNo set_activeFile];
      [now rewrite Ha, Hframe|reflexivity|reflexivity].
Qed.

(** Opened with an in-memory index on the data files of a directory, the
    engine has a key directory whose entries all refer to live records. *)
Lemma Open_live (o : Options) (d : Directory) (db : Database) :
  IndexType o <> BPlusTree -> hintFile d = None ->
  Open o (Some d) None = Ok db -> index_refers_to_live_records db.
Proof.
  intros Hit Hhint. unfold Open.
  destruct (checkOptions o); [|discriminate]. cbn [mbind result_bind default from_option id].
  rewrite bool_decide_false by exact Hit. rewrite bool_decide_true by exact Hit.
  unfold loadMergeFiles. cbn [mergeDir].
  set (db0 := loadDataFiles _).
  assert (Hidx : index_ db0 = ∅).
  { subst db0. unfold loadDataFiles. cbn [dir dataFiles].
    destruct (last _); reflexivity. }
  assert (Hh : hintFile (dir db0) = None).
  { subst db0. unfold loadDataFiles. cbn [dir dataFiles].
    destruct (last _); exact Hhint. }
  unfold loadIndexFromHintFile. rewrite Hh.
  destruct (loadIndexFromDataFiles db0) as [[[]|e] db1] eqn:HL; [|discriminate].
  intros [= <-]. apply (loadIndexFromDataFiles_live db0 db1 HL).
  intros k pos Hl. rewrite Hidx, lookup_empty in Hl. discriminate.
Qed.

(** An entry that reads back names an open file, when the table of old
    files keeps every handle under its own id. *)
Lemma live_resolves (db : Database) :
  (forall fid df, olderFiles db !! fid = Some df -> FileID df = fid) ->
  index_refers_to_live_records db -> index_resolves db.
Proof.
  intros Hold H k pos Hl. destruct (H k pos Hl) as [v Hv].
  unfold getValueByPosition in Hv.
  destruct (activeFile db) as [af|] eqn:Ha; [|discriminate].
  exists af. split; [exact Ha|].
  destruct (Z.eqb_spec (FileID af) (data.Fid pos)) as [E|Hne]; [now left|].
  destruct (olderFiles db !! data.Fid pos) as [df|] eqn:Hdf; [|discriminate].
  right. exists df. split; [reflexivity|]. now apply Hold.
Qed.

Lemma loadDataFiles_olderFiles (db : Database) (fid : Z) (df : DataFile) :
  olderFiles db = ∅ ->
  olderFiles (loadDataFiles db) !! fid = Some df -> FileID df = fid.
Proof.
  intros Hempty. unfold loadDataFiles.
  destruct (last _); cbn [olderFiles set_fileIDs set_activeFile set_olderFiles].
  - rewrite Hempty, (right_id_L ∅ (∪)). intros Hl.
    apply elem_of_list_to_map_2, list_elem_of_fmap in Hl as (f & Heq & _).
    now injection Heq as -> ->.
  - rewrite Hempty, lookup_empty. discriminate.
Qed.

(** Opened with an in-memory index on the data files of a directory, the
    engine has a key directory whose entries name open files. *)
Lemma Open_index_resolves (o : Options) (d : Directory) (db : Database) :
  IndexType o <> BPlusTree -> hintFile d = None ->
  Open o (Some d) None = Ok db -> index_resolves db.
Proof.
  intros Hit Hhint HO. apply live_resolves; [|now apply (Open_live o d)].
  revert HO. unfold Open.
  destruct (checkOptions o); [|discriminate]. cbn [mbind result_bind default from_option id].
  rewrite bool_decide_false by exact Hit. rewrite bool_decide_true by exact Hit.
  unfold loadMergeFiles. cbn [mergeDir].
  set (db0 := loadDataFiles _).
  assert (Hh : hintFile (dir db0) = None).
  { subst db0. unfold loadDataFiles. cbn [dir dataFiles].
    destruct (last _); exact Hhint. }
  unfold loadIndexFromHintFile. rewrite Hh.
  destruct (loadIndexFromDataFiles db0) as [[[]|e] db1] eqn:HL; [|discriminate].
  intros [= <-] fid df.
  apply loadIndexFromDataFiles_applied in HL as (applied & a1 & seq1 & -> & _ & _).
  cbn [olderFiles set_seqNo set_activeFile].
  assert (Hframe : forall l x, olderFiles (fold_left apply_entry l x) = olderFiles x).
  { induction l as [|e l IH]; intros x; [reflexivity|].
    cbn [fold_left]. rewrite IH. apply updateIndex_frame. }
  rewrite Hframe. subst db0. now apply loadDataFiles_olderFiles.
Qed.
